(** * StreamFactory: audio mixing, video looping and job running

A shallow embedding of the three services that make up the core of the
repository:

- [AudioService]  (services/audioService.js): volume and pan curves,
  the ffmpeg filter strings built from them, and [generateAudio];
- [VideoService]  (services/videoService.js): [assembleVideo] and its
  two encoder passes;
- [JobQueue]      (services/jobQueueService.js): [addJob].

Conventions of the embedding.

- JavaScript numbers are rationals ([Q]); [Math.floor] and [Math.ceil]
  are [Qfloor] and [Qceiling].  Equality of numbers is the equality of
  rationals, [==].  The curves of the audio service are computed exactly;
  where a whole number is taken from a quotient or a product (the rounds
  of a loop, a percentage), the operation is rounded to the nearest double
  first, as [Double.nearest] has it.
- [Math.random()] reads a global generator: the sequence of values it
  returns is a function [nat -> Q], and the code threads the number of
  values drawn so far.
- Calls that leave the process (the progress callback, the file system,
  ffmpeg) are recorded, in order, in a trace of effects; what the outside
  world answers (ffprobe's duration, the events an ffmpeg run emits) is
  an argument of the model.
- A template literal is kept as a constructor whose arguments are the
  interpolated values, or rendered with a number printer that is an
  argument. *)

From Stdlib Require Import QArith Qround Qminmax Qpower Qabs Lqa ZArith Lia List
  String.
From stdpp Require Import gmap strings list sorting.

Local Open Scope Q_scope.

(** ** JavaScript helpers *)

Module Js.

(** Truthiness of a number that may be missing ([undefined] or [null]):
    a missing value and [0] are falsy. *)
Definition truthy (x : option Q) : bool :=
  match x with
  | Some q => negb (Qeq_bool q 0)
  | None => false
  end.

(** [a || b] on numbers that may be missing. *)
Definition or (a b : option Q) : option Q :=
  if truthy a then a else b.

(** [a || d] where [d] is a literal. *)
Definition or_default (a : option Q) (d : Q) : Q :=
  match a with
  | Some q => if truthy a then q else d
  | None => d
  end.

(** [a || b] on identifiers. *)
Definition or_id (a b : option Z) : option Z :=
  match a with
  | Some z => if Z.eqb z 0 then b else a
  | None => b
  end.

(** The properties that an object literal inherits from
    [Object.prototype]: reading one of them gives a function (or, for
    [__proto__], the prototype object), which is truthy, never
    [undefined]. *)
Definition prototype_names : list string :=
  [ "constructor"; "__defineGetter__"; "__defineSetter__"; "hasOwnProperty";
    "__lookupGetter__"; "__lookupSetter__"; "isPrototypeOf";
    "propertyIsEnumerable"; "toString"; "valueOf"; "__proto__";
    "toLocaleString" ]%string.

Definition inherited (key : string) : bool :=
  existsb (String.eqb key) prototype_names.

(** [array.join(sep)]. *)
Fixpoint join (sep : string) (l : list string) : string :=
  match l with
  | [] => EmptyString
  | [s] => s
  | s :: rest => s +:+ sep +:+ join sep rest
  end.

End Js.

(** ** Double precision *)

(** The numbers of JavaScript are IEEE 754 doubles: the exact result of an
    arithmetic operation is rounded to the nearest number with 53
    significant bits, a tie going to the one whose last bit is 0, on a grid
    no finer than [2^-1074]. *)
Module Double.

Definition pow2 (e : Z) : Q := 2 ^ e.

(** The nearest integer, a tie going to the even one. *)
Definition rint (x : Q) : Z :=
  let f := Qfloor x in
  let r := x - inject_Z f in
  if Qle_bool r (1 # 2)
  then if Qeq_bool r (1 # 2) then (if Z.even f then f else f + 1)%Z else f
  else (f + 1)%Z.

(** The binade of a positive number: the [e] with [2^e <= x < 2^(e+1)]. *)
Definition binade (x : Q) : Z :=
  let e := (Z.log2 (Qnum x) - Z.log2 (Z.pos (Qden x)))%Z in
  if Qle_bool (pow2 e) x then e else (e - 1)%Z.

(** The exponent of the last of 53 bits, subnormal numbers sharing that of
    the smallest binade. *)
Definition ulp_exponent (x : Q) : Z := Z.max (binade x - 52) (-1074).

Definition nearest_positive (x : Q) : Q :=
  let e := ulp_exponent x in
  inject_Z (rint (x / pow2 e)) * pow2 e.

(** The double nearest to [x], were the exponent not limited above. *)
Definition nearest (x : Q) : Q :=
  if Qeq_bool x 0 then 0
  else if Qle_bool 0 x then nearest_positive x
  else - nearest_positive (- x).

(** What an operation with the exact result [x] returns: the nearest
    double, or [None] for an infinity, which is what a result of magnitude
    [2^1024] or more becomes. *)
Definition round (x : Q) : option Q :=
  let y := nearest x in
  if Qle_bool (pow2 1024) (Qabs y) then None else Some y.

End Double.

(** ** The generator behind [Math.random()] *)

Module Random.

(** A computation that draws from the generator: it receives the number of
    values drawn so far and returns the new count. *)
Definition Rand (A : Type) : Type := nat -> A * nat.

Definition ret {A} (a : A) : Rand A := fun k => (a, k).

Definition bind {A B} (m : Rand A) (f : A -> Rand B) : Rand B :=
  fun k => let (a, k') := m k in f a k'.

(** [for (const x of xs) out.push(body(x))]. *)
Fixpoint for_each {A B} (xs : list A) (body : A -> Rand B) : Rand (list B) :=
  match xs with
  | [] => ret []
  | x :: rest =>
      bind (body x) (fun b =>
      bind (for_each rest body) (fun bs =>
      ret (b :: bs)))
  end.

(** The values of the generator lie in [[0, 1)]. *)
Definition unit_interval (random : nat -> Q) : Prop :=
  forall k, 0 <= random k /\ random k < 1.

End Random.

Notation "'draw' x <~ m ;; f" := (Random.bind m (fun x => f))
  (at level 10, x name, m at level 99, f at level 200).

(** ** AudioService: curves and filters *)

Module AudioService.
Import Random.

Record volume_point := VolumePoint { v_time : Q; volume : Q }.
Record pan_point := PanPoint { p_time : Q; pan : Q }.

(** [Math.max(10, Math.floor(duration / 60))]. *)
Definition curve_points (duration : Q) : Z :=
  Z.max 10 (Qfloor (duration / 60)).

Section Curves.
Variable random : nat -> Q.

Definition Math_random : Rand Q := fun k => (random k, S k).

(** [generateVolumeCurve(duration, baseVolume, volatility)]
    (aiService.js, lines 279-292): the loop
    [for (let i = 0; i <= points; i++)] runs over [0 .. points]. *)
Definition generateVolumeCurve (duration baseVolume volatility : Q)
  : Rand (list volume_point) :=
  let points := curve_points duration in
  for_each (seqZ 0 (points + 1)) (fun i =>
    let time := (inject_Z i / inject_Z points) * duration in
    draw r <~ Math_random ;;
    let randomOffset := (r - 0.5) * volatility in
    let volume := Qmax 0.1 (Qmin 1.0 (baseVolume + randomOffset)) in
    ret (VolumePoint time volume)).

(** [generatePanCurve(duration, spatialDrift)] (lines 297-309). *)
Definition generatePanCurve (duration spatialDrift : Q)
  : Rand (list pan_point) :=
  let points := curve_points duration in
  for_each (seqZ 0 (points + 1)) (fun i =>
    let time := (inject_Z i / inject_Z points) * duration in
    draw r <~ Math_random ;;
    let pan := (r - 0.5) * 2 * spatialDrift in
    ret (PanPoint time pan)).

End Curves.

(** One summand [between(t,lo,hi)*gain] of the volume expression. *)
Record window := Window { lo : Q; hi : Q; gain : Q }.

(** The summands [buildVolumeFilter] maps the curve to: one per point,
    from the point's time to one second later. *)
Definition volume_windows (curve : list volume_point) : list window :=
  map (fun point => Window (v_time point) (v_time point + 1) (volume point))
      curve.




(** [buildPanFilter(panValue)]: the two gains of the stereo split. *)
Record pan_gains := PanGains { leftGain : Q; rightGain : Q }.

Definition pan_split (panValue : Q) : pan_gains :=
  {| leftGain := 1 - Qmax 0 panValue;
     rightGain := 1 + Qmin 0 panValue |}.

(** [panCurve.reduce((sum, p) => sum + p.pan, 0) / panCurve.length]. *)
Definition average_pan (curve : list pan_point) : Q :=
  fold_left (fun sum p => sum + pan p) curve 0
  / inject_Z (Z.of_nat (length curve)).

Section Rendering.
(** How a number prints inside a template literal. *)
Variable show : Q -> string.

Definition render_window (w : window) : string :=
  "between(t," +:+ show (lo w) +:+ "," +:+ show (hi w) +:+ ")*"
  +:+ show (gain w).

(** [buildVolumeFilter(curve)] (lines 314-320). *)
Definition buildVolumeFilter (curve : list volume_point) : string :=
  let expr := Js.join "+" (map render_window (volume_windows curve)) in
  "volume='" +:+ expr +:+ "':eval=frame".

(** [buildPanFilter(panValue)] (lines 325-331). *)
Definition buildPanFilter (panValue : Q) : string :=
  let g := pan_split panValue in
  "pan=stereo|c0=" +:+ show (leftGain g) +:+ "*c0|c1="
  +:+ show (rightGain g) +:+ "*c1".

End Rendering.

(** *** generateAudio *)

(** An entry of [config.stems]: [{stem_id, id, volume}], each of which may
    be missing. *)
Record stem_config := StemConfig {
  stem_id : option Z;
  id : option Z;
  cfg_volume : option Q
}.

(** A row of the [audio_stems] table. *)
Record db_stem := DbStem {
  db_id : Z;
  file_path : string;
  default_volume : option Q
}.

(** [{...dbStem, volume}]. *)
Record audio_stem := AudioStem {
  row : db_stem;
  stem_volume : Q
}.

Record config := Config {
  stems : list stem_config;
  duration : Q;
  volatility : Q;
  density : Q;
  spatialDrift : Q;
  outputName : option string
}.

(** [s.stem_id || s.id]. *)
Definition config_id (s : stem_config) : option Z :=
  Js.or_id (stem_id s) (id s).

Definition same_id (i : option Z) (j : Z) : bool :=
  match i with
  | Some z => Z.eqb z j
  | None => false
  end.

(** [getAudioStems(stemIds)]: [SELECT * FROM audio_stems WHERE id IN (...)]. *)
Definition getAudioStems (db : list db_stem) (stemIds : list (option Z))
  : list db_stem :=
  List.filter (fun r => existsb (fun i => same_id i (db_id r)) stemIds) db.

(** [stemConfig.volume || dbStem.default_volume || 0.7]. *)
Definition base_volume (stemConfig : stem_config) (dbStem : db_stem) : Q :=
  Js.or_default (Js.or (cfg_volume stemConfig) (default_volume dbStem)) 0.7.

(** The body of [dbStems.map(dbStem => ...)]; [None] is the [TypeError] of
    reading [volume] of an [undefined] [stemConfig]. *)
Definition map_stem (stems : list stem_config) (dbStem : db_stem)
  : option audio_stem :=
  match List.find (fun s => same_id (config_id s) (db_id dbStem)) stems with
  | Some stemConfig => Some (AudioStem dbStem (base_volume stemConfig dbStem))
  | None => None
  end.

Fixpoint map_stems (stems : list stem_config) (dbStems : list db_stem)
  : option (list audio_stem) :=
  match dbStems with
  | [] => Some []
  | dbStem :: rest =>
      match map_stem stems dbStem, map_stems stems rest with
      | Some a, Some l => Some (a :: l)
      | _, _ => None
      end
  end.

(** The messages handed to the progress callback. *)
Inductive message :=
| Started                        (* 'Audio generation started' *)
| Processing (timeElapsed : Q)   (* `Processing... (${timeElapsed}s elapsed)` *)
| Completed                      (* 'Audio generation completed' *)
| Failed (errMessage : string).  (* `Error: ${err.message}` *)

(** What [resolve] receives on success. *)
Record result := Result {
  outputPath : string;
  relativePath : string;
  res_duration : Q;
  res_stems : nat;
  generationTime : Q;
  fileSize : Z;
  fileName : string
}.

(** The ffmpeg command that is saved to the output path. *)
Record command := Command {
  inputs : list (string * list string);
  complexFilter : list string;
  cmd_duration : Q;
  cmd_output : string
}.

(** The effects of a call, in the order they happen. *)
Inductive effect :=
| Progress (percent : Z) (msg : message)   (* progressCallback(percent, msg) *)
| Save (cmd : command)                     (* command.save(outputPath) *)
| Unlink (path : string)                   (* fs.unlinkSync(path) *)
| Resolve (r : result)
| Reject (errMessage : string).

(** The [err] of ffmpeg's 'error' event, with the process output. *)
Record encoder_error := EncoderError {
  err_message : string;
  stdout : string;
  stderr : string
}.

(** What happens while the command runs: the events fluent-ffmpeg emits,
    with the reading of [Date.now()] where the handler takes one, and the
    ffmpeg process writing the output file. *)
Inductive encoder_step :=
| OnStart
| OnProgress (percent : option Q) (now : Q)
| OnEnd (now : Q)
| OnError (err : encoder_error)
| OutputWritten (size : Z).

Inductive promise :=
| Pending
| Resolved (r : result)
| Rejected (errMessage : string).

(** The variables the handlers close over, the files on disk, and the
    effects so far (latest first). *)
Record state := State {
  lastProgress : Z;
  files : gmap string Z;
  settled : promise;
  effects : list effect
}.

Definition emit (e : effect) (st : state) : state :=
  State (lastProgress st) (files st) (settled st) (e :: effects st).

(** [if (progressCallback) progressCallback(percent, msg)]. *)
Definition callback (progressCallback : bool) (percent : Z) (msg : message)
    (st : state) : state :=
  if progressCallback then emit (Progress percent msg) st else st.

(** [resolve] and [reject] settle a pending promise and do nothing to a
    settled one. *)
Definition resolve (r : result) (st : state) : state :=
  match settled st with
  | Pending =>
      State (lastProgress st) (files st) (Resolved r) (Resolve r :: effects st)
  | _ => st
  end.

Definition reject (m : string) (st : state) : state :=
  match settled st with
  | Pending =>
      State (lastProgress st) (files st) (Rejected m) (Reject m :: effects st)
  | _ => st
  end.

(** [if (fs.existsSync(path)) fs.unlinkSync(path)]. *)
Definition unlink_if_exists (path : string) (st : state) : state :=
  match files st !! path with
  | Some _ =>
      State (lastProgress st) (delete path (files st)) (settled st)
            (Unlink path :: effects st)
  | None => st
  end.

Section Handlers.
Variable progressCallback : bool.   (* whether a callback was passed *)
Variable startTime : Q.             (* Date.now() when the promise starts *)
Variable cfg_duration : Q.
Variable stemCount : nat.
Variable outPath : string.
Variable outName : string.

(** [((Date.now() - startTime) / 1000)], before [toFixed]. *)
Definition elapsed (now : Q) : Q := (now - startTime) / 1000.

(** The handlers of 'start', 'progress', 'end' and 'error'
    (lines 456-515). *)
Definition handle (step : encoder_step) (st : state) : state :=
  match step with
  | OnStart => callback progressCallback 0 Started st
  | OnProgress percent now =>
      if Js.truthy percent then
        let currentProgress := Qfloor (default 0 percent) in
        if (lastProgress st + 5 <=? currentProgress)%Z then
          callback progressCallback currentProgress
            (Processing (elapsed now))
            (State currentProgress (files st) (settled st) (effects st))
        else st
      else st
  | OnEnd now =>
      let st := callback progressCallback 100 Completed st in
      match files st !! outPath with
      | Some size =>
          resolve (Result outPath ("/audio-output/" +:+ outName)
                          cfg_duration stemCount (elapsed now) size outName)
                  st
      | None => st   (* fs.statSync throws inside the handler *)
      end
  | OnError err =>
      let st := callback progressCallback 0 (Failed (err_message err)) st in
      let st := unlink_if_exists outPath st in
      reject ("Audio generation failed: " +:+ err_message err) st
  | OutputWritten size =>
      State (lastProgress st) (<[outPath := size]> (files st)) (settled st)
            (effects st)
  end.

Definition run (steps : list encoder_step) (st : state) : state :=
  fold_left (fun st step => handle step st) steps st.

End Handlers.

Section GenerateAudio.
Variable random : nat -> Q.
Variable show : Q -> string.
Variable path_resolve : string -> string.
Variable path_join : string -> string -> string.
Variable audioOutputDir : string.

(** What the call finds outside: the stems table, the files on disk (with
    their sizes), the two readings of [Date.now()] before the command
    starts, the number of values already drawn from [Math.random()], and
    what happens while ffmpeg runs. *)
Record world := World {
  db : list db_stem;
  disk : gmap string Z;
  timestamp : Q;
  startTime : Q;
  drawn : nat;
  steps : list encoder_step
}.

(** [`[${index}:a]${volumeFilter},${panFilter}[a${index}]`]. *)
Definition filter_chain (index : nat) (volumeCurve : list volume_point)
    (panCurve : list pan_point) : string :=
  let avgPan := average_pan panCurve in
  let volumeFilter := buildVolumeFilter show volumeCurve in
  let panFilter := buildPanFilter show avgPan in
  let i := show (inject_Z (Z.of_nat index)) in
  "[" +:+ i +:+ ":a]" +:+ volumeFilter +:+ "," +:+ panFilter
  +:+ "[a" +:+ i +:+ "]".

Definition amix_filter (n : nat) : string :=
  let mixInput :=
    Js.join "" (map (fun i => "[a" +:+ show (inject_Z (Z.of_nat i)) +:+ "]")
                    (seq 0 n)) in
  mixInput +:+ "amix=inputs=" +:+ show (inject_Z (Z.of_nat n))
  +:+ ":duration=first:dropout_transition=2,dynaudnorm=f=150:g=15[out]".

(** Everything up to [new Promise]: the validated stems, the output
    file, the curves and the command; or the message of the error
    thrown. *)
Record prepared := Prepared {
  audioStems : list audio_stem;
  prep_fileName : string;
  prep_outputPath : string;
  volumeCurves : list (list volume_point);
  panCurves : list (list pan_point);
  prep_command : command
}.

Definition missing_file (fs : gmap string Z) (stem : audio_stem) : bool :=
  match fs !! path_resolve (file_path (row stem)) with
  | Some _ => false
  | None => true
  end.

Definition default_name (w : world) (outputName : option string) : string :=
  match outputName with
  | Some n => if String.eqb n "" then "audio_" +:+ show (timestamp w) +:+ ".mp3"
              else n
  | None => "audio_" +:+ show (timestamp w) +:+ ".mp3"
  end.

Definition prepare (cfg : config) (w : world) : string + prepared :=
  if (length (stems cfg) =? 0)%nat then
    inl "At least one audio stem is required"
  else if (10 <? length (stems cfg))%nat then
    inl "Maximum 10 audio stems allowed"
  else if negb (Qle_bool 60 (duration cfg))
          || negb (Qle_bool (duration cfg) 36000) then
    inl "Duration must be between 1 minute and 10 hours"
  else
    let stemIds := map config_id (stems cfg) in
    let dbStems := getAudioStems (db w) stemIds in
    if negb (length dbStems =? length stemIds)%nat then
      inl "Some audio stems not found in database"
    else
      match map_stems (stems cfg) dbStems with
      | None => inl "TypeError: Cannot read properties of undefined"
      | Some audioStems =>
          match List.find (missing_file (disk w)) audioStems with
          | Some stem =>
              inl ("Audio file not found: " +:+ file_path (row stem))
          | None =>
              let fileName := default_name w (outputName cfg) in
              let outputPath := path_join audioOutputDir fileName in
              let '(volumeCurves, k) :=
                for_each audioStems (fun stem =>
                  generateVolumeCurve random (duration cfg)
                    (stem_volume stem) (volatility cfg)) (drawn w) in
              let '(panCurves, _) :=
                for_each audioStems (fun _ =>
                  generatePanCurve random (duration cfg)
                    (spatialDrift cfg)) k in
              let filterChains :=
                imap (fun index _ =>
                        filter_chain index
                          (default [] (volumeCurves !! index))
                          (default [] (panCurves !! index)))
                     audioStems
                ++ [amix_filter (length audioStems)] in
              inr (Prepared audioStems fileName outputPath
                     volumeCurves panCurves
                     (Command
                        (map (fun stem =>
                                (path_resolve (file_path (row stem)),
                                 ["-stream_loop"; "-1"])) audioStems)
                        filterChains (duration cfg) outputPath))
          end
      end.

(** [generateAudio(config, progressCallback)] (lines 344-518): the state when the run of
    ffmpeg is over.  An error thrown before the promise is created
    rejects the promise the async function returns. *)
Definition generateAudio (cfg : config) (progressCallback : bool)
    (w : world) : state :=
  let st0 := State 0 (disk w) Pending [] in
  match prepare cfg w with
  | inl msg => reject msg st0
  | inr p =>
      run progressCallback (startTime w) (duration cfg)
          (length (audioStems p)) (prep_outputPath p) (prep_fileName p)
          (steps w) (emit (Save (prep_command p)) st0)
  end.

(** The calls of the progress callback, oldest first. *)
Definition progress_events (st : state) : list (Z * message) :=
  omap (fun e => match e with
                 | Progress pct msg => Some (pct, msg)
                 | _ => None
                 end) (rev (effects st)).

End GenerateAudio.

End AudioService.

(** ** VideoService *)

Module VideoService.

(** The messages handed to the progress callback. *)
Inductive message :=
| Analyzing                    (* 'Analyzing source video...' *)
| CreatingReversedVersion      (* 'Creating reversed version for ping-pong effect...' *)
| CreatingReversed             (* 'Creating reversed video...' *)
| Reversing (lastProgress : Z) (* `Reversing video: ${lastProgress}%` *)
| ReversedCreated              (* 'Reversed video created' *)
| MergingWithAudio             (* 'Merging video with audio...' *)
| MergingStarted               (* 'Merging video and audio...' *)
| Merging (currentProgress : Z) (* `Merging: ${currentProgress}%` *)
| MergeCompleted               (* 'Merge completed' *)
| AssemblyCompleted.           (* 'Video assembly completed' *)

Record config := Config {
  videoPath : string;
  audioPath : string;
  audioDuration : option Q;
  loopType : string;
  outputName : option string
}.

(** What [getVideoInfo] resolves to is passed through untouched. *)
Record result (video_info : Type) := Result {
  outputPath : string;
  relativePath : string;
  res_duration : Q;
  res_loopType : string;
  generationTime : Q;
  fileSize : Z;
  fileName : string;
  videoInfo : video_info
}.
Arguments Result {video_info}.

(** The two ffmpeg commands. *)
Inductive command :=
| ReverseCommand (inputPath outputPath : string)
| MergeCommand (concatListPath audioPath outputPath : string) (duration : Q).

Inductive effect :=
| Progress (percent : Z) (msg : message)          (* progressCallback(...) *)
| Probe (path : string)                           (* ffmpeg.ffprobe(path) *)
| Save (cmd : command)                            (* command.save(outputPath) *)
| WriteFile (path : string) (lines : list string) (* fs.writeFile(path, lines.join('\n')) *)
| Unlink (path : string).                         (* fs.unlink(path) *)

(** What fluent-ffmpeg emits before a run is over, and the ffmpeg process
    writing its output file. *)
Inductive encoder_event :=
| OnStart
| OnProgress (percent : option Q)
| OutputWritten (size : Z).

(** A run of ffmpeg: its events, then 'end' ([None]) or 'error' with the
    error's message. *)
Record encoder_run := EncoderRun {
  events : list encoder_event;
  failure : option string
}.

(** The files on disk and the effects so far (latest first). *)
Record state := State {
  disk : gmap string Z;
  trace : list effect
}.

Definition emit (e : effect) (st : state) : state :=
  State (disk st) (e :: trace st).

Definition write (path : string) (size : Z) (st : state) : state :=
  State (<[path := size]> (disk st)) (trace st).

Definition exists_on_disk (path : string) (st : state) : bool :=
  match disk st !! path with
  | Some _ => true
  | None => false
  end.

(** [if (fs.existsSync(path)) await fs.unlink(path)]. *)
Definition unlink_if_exists (path : string) (st : state) : state :=
  if exists_on_disk path st
  then State (delete path (disk st)) (Unlink path :: trace st)
  else st.

(** A progress callback: what calling it does. *)
Definition callback : Type := Z -> message -> state -> state.

(** [createReversedVideo(inputPath, outputPath, progressCallback)]: the
    state when the promise settles, and the error it rejects with. *)
Definition reverse_handler (outputPath : string) (progressCallback : callback)
    (acc : state * Z) (e : encoder_event) : state * Z :=
  let (st, lastProgress) := acc in
  match e with
  | OnStart => (progressCallback 0%Z CreatingReversed st, lastProgress)
  | OnProgress percent =>
      match percent with
      | Some p =>
          if Js.truthy percent
             && negb (Qle_bool p (inject_Z (lastProgress + 5)))
          then
            let lastProgress := Qfloor p in
            (progressCallback (lastProgress / 4)%Z (Reversing lastProgress) st,
             lastProgress)
          else acc
      | None => acc
      end
  | OutputWritten size => (write outputPath size st, lastProgress)
  end.

Definition createReversedVideo (inputPath outputPath : string)
    (progressCallback : callback) (r : encoder_run) (st : state)
  : state * option string :=
  let st := emit (Save (ReverseCommand inputPath outputPath)) st in
  let (st, _) :=
    fold_left (reverse_handler outputPath progressCallback) (events r)
              (st, 0%Z) in
  match failure r with
  | None => (progressCallback 25%Z ReversedCreated st, None)
  | Some err => (st, Some err)
  end.

(** [mergeVideoWithAudio(concatListPath, audioPath, outputPath, duration,
    progressCallback)]. *)
Definition merge_handler (outputPath : string) (progressCallback : callback)
    (acc : state * Z) (e : encoder_event) : state * Z :=
  let (st, lastProgress) := acc in
  match e with
  | OnStart => (progressCallback 0%Z MergingStarted st, lastProgress)
  | OnProgress percent =>
      if Js.truthy percent then
        let currentProgress := Qfloor (default 0 percent) in
        if (lastProgress + 5 <=? currentProgress)%Z
        then (progressCallback currentProgress (Merging currentProgress) st,
              currentProgress)
        else acc
      else acc
  | OutputWritten size => (write outputPath size st, lastProgress)
  end.

Definition mergeVideoWithAudio (concatListPath audioPath outputPath : string)
    (duration : Q) (progressCallback : callback) (r : encoder_run) (st : state)
  : state * option string :=
  let st :=
    emit (Save (MergeCommand concatListPath audioPath outputPath duration)) st in
  let (st, _) :=
    fold_left (merge_handler outputPath progressCallback) (events r)
              (st, 0%Z) in
  match failure r with
  | None => (progressCallback 100%Z MergeCompleted st, None)
  | Some err => (st, Some err)
  end.

(** A segment of the concat list plays the source or its reversal. *)
Inductive segment := Forward | Reverse.

(** [for (let i = 0; i < loopsNeeded; i++) { concatList.push(...) }]: the
    loop pushes [unit] once per round. *)
Fixpoint push_rounds (loopsNeeded : nat) (unit concatList : list segment)
  : list segment :=
  match loopsNeeded with
  | O => concatList
  | S n => push_rounds n unit (concatList ++ unit)
  end.

(** The number of rounds of a loop [for (i = 0; i < n; i++)] for
    [n = Math.ceil(target / unit)], the quotient being the double nearest
    to the exact one; [None] when the loop has no end, which is when [unit]
    is 0 and the quotient infinite ([target] is positive here).  A quotient
    of [2^1024] or more is an infinity in the code as well; here it is a
    whole number of rounds, which no machine could run either. *)
Definition loops_needed (target unit : Q) : option nat :=
  if Qeq_bool unit 0 then None
  else Some (Z.to_nat (Qceiling (Double.nearest (target / unit)))).

(** How a call of [assembleVideo] ends. *)
Inductive outcome (video_info : Type) :=
| Returned (r : result video_info)
| Thrown (errMessage : string)
| Diverges.
Arguments Returned {video_info}.
Arguments Thrown {video_info}.
Arguments Diverges {video_info}.

Section AssembleVideo.
Variable video_info : Type.
Variable show : Q -> string.
Variable path_resolve : string -> string.
Variable path_join : string -> string -> string.
Variable slashes : string -> string.   (* [.replace(/\\/g, '/')] *)
Variable videoOutputDir : string.

(** What the call finds outside: the files on disk, the two readings of
    [Date.now()] at the start and the one at the end, what ffprobe says of
    the source (an error, or a duration that may be missing), the two runs
    of ffmpeg, and what [getVideoInfo] says of the output. *)
Record world := World {
  files : gmap string Z;
  timestamp : Q;
  startTime : Q;
  endTime : Q;
  probed : string + option Q;
  reverse_run : encoder_run;
  merge_run : encoder_run;
  output_info : string + video_info
}.

Definition tempDir : string := path_join videoOutputDir "temp".

Definition reversedVideoPath (w : world) : string :=
  path_join tempDir ("reversed_" +:+ show (timestamp w) +:+ ".mp4").

Definition concatListPath (w : world) : string :=
  path_join tempDir ("concat_" +:+ show (timestamp w) +:+ ".txt").

Definition output_name (cfg : config) (w : world) : string :=
  match outputName cfg with
  | Some n => if String.eqb n "" then "video_" +:+ show (timestamp w) +:+ ".mp4"
              else n
  | None => "video_" +:+ show (timestamp w) +:+ ".mp4"
  end.

(** [`file '${path.resolve(p).replace(/\\/g, '/')}'`] for the file a segment
    plays. *)
Definition entry (cfg : config) (w : world) (s : segment) : string :=
  let p := match s with
           | Forward => videoPath cfg
           | Reverse => reversedVideoPath w
           end in
  "file '" +:+ slashes (path_resolve p) +:+ "'".

(** [if (progressCallback) progressCallback(percent, msg)]. *)
Definition report (progressCallback : bool) : callback :=
  fun percent msg st =>
    if progressCallback then emit (Progress percent msg) st else st.

(** The [finally] block. *)
Definition cleanup (w : world) (st : state) : state :=
  unlink_if_exists (concatListPath w) (unlink_if_exists (reversedVideoPath w) st).

(** Step 3 of the [try] block, from the concat list on. *)
Definition merge_and_finish (cfg : config) (progressCallback : bool)
    (w : world) (target : Q) (concatList : list segment) (st : state)
  : state * outcome video_info :=
  let outputPath := path_join videoOutputDir (output_name cfg w) in
  let st := emit (WriteFile (concatListPath w) (map (entry cfg w) concatList)) st in
  let st := write (concatListPath w) 0 st in
  let st := report progressCallback 30%Z MergingWithAudio st in
  let (st, err) :=
    mergeVideoWithAudio (concatListPath w) (audioPath cfg) outputPath target
      (fun progress message =>
         report progressCallback
           (30 + Qfloor (Double.nearest
                           (inject_Z progress * Double.nearest 0.7)))%Z
           message)
      (merge_run w) st in
  match err with
  | Some e => (st, Thrown e)
  | None =>
      let totalTime := (endTime w - startTime w) / 1000 in
      let st := report progressCallback 100%Z AssemblyCompleted st in
      match disk st !! outputPath with
      | None => (st, Thrown "ENOENT: no such file or directory")
      | Some size =>
          match output_info w with
          | inl e => (st, Thrown e)
          | inr info =>
              (st, Returned (Result outputPath
                               ("/video-output/" +:+ output_name cfg w)
                               target (loopType cfg) totalTime size
                               (output_name cfg w) info))
          end
      end
  end.

(** The [try] block.  The product [videoDuration * 2] is exact: doubling a
    double changes its exponent only. *)
Definition try_block (cfg : config) (progressCallback : bool) (w : world)
    (target : Q) (st : state) : state * outcome video_info :=
  let st := report progressCallback 0%Z Analyzing st in
  let st := emit (Probe (videoPath cfg)) st in
  match probed w with
  | inl e => (st, Thrown e)
  | inr d =>
      let videoDuration := Js.or_default d 0 in
      if String.eqb (loopType cfg) "ping-pong" then
        let st := report progressCallback 5%Z CreatingReversedVersion st in
        let (st, err) :=
          createReversedVideo (videoPath cfg) (reversedVideoPath w)
            (fun progress message =>
               report progressCallback (5 + progress / 2)%Z message)
            (reverse_run w) st in
        match err with
        | Some e => (st, Thrown e)
        | None =>
            let singlePingPongDuration := videoDuration * 2 in
            match loops_needed target singlePingPongDuration with
            | None => (st, Diverges)
            | Some loopsNeeded =>
                merge_and_finish cfg progressCallback w target
                  (push_rounds loopsNeeded [Forward; Reverse] []) st
            end
        end
      else if String.eqb (loopType cfg) "standard" then
        match loops_needed target videoDuration with
        | None => (st, Diverges)
        | Some loopsNeeded =>
            merge_and_finish cfg progressCallback w target
              (push_rounds loopsNeeded [Forward] []) st
        end
      else
        (st, Thrown ("Unknown loop type: " +:+ loopType cfg
                     +:+ ". Use 'ping-pong' or 'standard'"))
  end.

(** [assembleVideo(config, progressCallback)] (part_004, lines 122-267). *)
Definition assembleVideo (cfg : config) (progressCallback : bool) (w : world)
  : state * outcome video_info :=
  let st := State (files w) [] in
  if negb (exists_on_disk (videoPath cfg) st) then
    (st, Thrown ("Video file not found: " +:+ videoPath cfg))
  else if negb (exists_on_disk (audioPath cfg) st) then
    (st, Thrown ("Audio file not found: " +:+ audioPath cfg))
  else
    match audioDuration cfg with
    | Some target =>
        if negb (Js.truthy (audioDuration cfg)) || negb (Qle_bool 1 target)
        then (st, Thrown "Audio duration must be at least 1 second")
        else
          let (st, out) := try_block cfg progressCallback w target st in
          match out with
          | Diverges => (st, Diverges)
          | _ => (cleanup w st, out)
          end
    | None => (st, Thrown "Audio duration must be at least 1 second")
    end.

(** The effects of a call, oldest first. *)
Definition effects_of (r : state * outcome video_info) : list effect :=
  rev (trace (fst r)).

End AssembleVideo.

Arguments World {video_info}.
Arguments files {video_info}.
Arguments timestamp {video_info}.
Arguments startTime {video_info}.
Arguments endTime {video_info}.
Arguments probed {video_info}.
Arguments reverse_run {video_info}.
Arguments merge_run {video_info}.
Arguments output_info {video_info}.
Arguments effects_of {video_info}.

(** The concat lists written during a call, and the reversals encoded. *)
Definition written_lists (effects : list effect) : list (list string) :=
  omap (fun e => match e with
                 | WriteFile _ lines => Some lines
                 | _ => None
                 end) effects.

Definition reversals (effects : list effect) : list (string * string) :=
  omap (fun e => match e with
                 | Save (ReverseCommand i o) => Some (i, o)
                 | _ => None
                 end) effects.

End VideoService.

(** ** JobQueue *)

Module JobQueue.

(** What a JavaScript function may throw, as far as [error.message] can
    tell. *)
Inductive thrown :=
| WithMessage (message : string)  (* an Error, or another object with a message *)
| WithoutMessage                  (* a value with no message: a string, a number, {} *)
| Nullish.                        (* null or undefined *)

(** Reading [error.message]: the message, [undefined], or the TypeError of
    reading a property of [null] or [undefined]. *)
Definition message_of (error : thrown) : thrown + option string :=
  match error with
  | WithMessage m => inr (Some m)
  | WithoutMessage => inr None
  | Nullish => inl (WithMessage "Cannot read properties of null (reading 'message')")
  end.

Section AddJob.
Variable Data : Type.
Variable Result : Type.

(** A job as [queue.add(jobName, data, {attempts: 3, backoff: {type:
    'exponential', delay: 2000}})] stores it. *)
Record job := Job {
  job_id : Z;
  job_name : string;
  job_data : Data;
  attempts : Z;
  backoff_type : string;
  backoff_delay : Z
}.

(** A BullMQ queue as the service sees it: the jobs added through it, in
    order, and the id that BullMQ assigns to each job added, by its
    position. *)
Record queue := Queue {
  added : list job;
  assigned : nat -> Z
}.

(** [this.queues] holds the queues that were opened, by name. *)
Record service := Service {
  isRedisAvailable : bool;
  queues : gmap string queue
}.

(** What [this.queues[queueName]] reads off the plain object
    [this.queues]: a queue that was opened, a property of
    [Object.prototype], which is truthy and no queue, or [undefined]. *)
Inductive slot :=
| Opened (q : queue)
| Inherited
| Undefined.

Definition read (svc : service) (queueName : string) : slot :=
  match queues svc !! queueName with
  | Some q => Opened q
  | None => if Js.inherited queueName then Inherited else Undefined
  end.

(** A processor either returns a result or throws; [None] is a processor
    that cannot be called. *)
Definition processor : Type := option (Data -> Result + thrown).

Definition call (p : processor) (data : Data) : Result + thrown :=
  match p with
  | Some f => f data
  | None => inr (WithMessage "processor is not a function")
  end.

(** What [addJob] returns. *)
Inductive response :=
| Queued (jobId : Z)              (* {jobId, status: 'queued', message} *)
| Completed (result : Result)     (* {status: 'completed', result, message} *)
| Failed (error : option string). (* {status: 'failed', error, message} *)

(** How a call of [addJob] ends: the promise resolves or rejects. *)
Inductive outcome :=
| Returns (r : response)
| Raises (e : thrown).

(** The synchronous branch of [addJob] (lines 184-206). *)
Definition process_inline (svc : service) (data : Data) (p : processor)
  : service * outcome :=
  match call p data with
  | inl result => (svc, Returns (Completed result))
  | inr error =>
      match message_of error with
      | inr message => (svc, Returns (Failed message))
      | inl typeError => (svc, Raises typeError)
      end
  end.

(** [addJob(queueName, jobName, data, processor)] (part_003, lines
    165-208).  The test [this.isRedisAvailable && this.queues[queueName]]
    passes for every truthy value; calling [add] on one that is no queue
    raises a [TypeError], outside of any [try]. *)
Definition addJob (svc : service) (queueName jobName : string) (data : Data)
    (p : processor) : service * outcome :=
  if isRedisAvailable svc then
    match read svc queueName with
    | Opened q =>
        let job := Job (assigned q (length (added q))) jobName data 3
                       "exponential" 2000 in
        (Service (isRedisAvailable svc)
                 (<[queueName := Queue (added q ++ [job]) (assigned q)]>
                    (queues svc)),
         Returns (Queued (job_id job)))
    | Inherited =>
        (svc, Raises (WithMessage
                        "this.queues[queueName].add is not a function"))
    | Undefined => process_inline svc data p
    end
  else process_inline svc data p.

End AddJob.

Arguments Queue {Data}.
Arguments added {Data}.
Arguments assigned {Data}.
Arguments Service {Data}.
Arguments isRedisAvailable {Data}.
Arguments queues {Data}.
Arguments Opened {Data}.
Arguments Inherited {Data}.
Arguments Undefined {Data}.
Arguments read {Data}.
Arguments Queued {Result}.
Arguments Completed {Result}.
Arguments Failed {Result}.
Arguments Returns {Result}.
Arguments Raises {Result}.
Arguments addJob {Data Result}.

End JobQueue.

(** * Properties *)

(** ** Rounding to the nearest double *)

Module DoubleFacts.
Import Double.

Lemma pow2_pos (e : Z) : 0 < pow2 e.
Proof. apply Qpower_0_lt. reflexivity. Qed.

Lemma pow2_le (e e' : Z) : (e <= e')%Z -> pow2 e <= pow2 e'.
Proof. intros H. apply Qpower_le_compat_l; [exact H|discriminate]. Qed.

Lemma pow2_lt_inv (e e' : Z) : pow2 e < pow2 e' -> (e < e')%Z.
Proof. intros H. eapply Qpower_lt_compat_l_inv; [exact H|reflexivity]. Qed.

Lemma pow2_add (a b : Z) : pow2 (a + b) == pow2 a * pow2 b.
Proof. apply Qpower_plus. discriminate. Qed.

Lemma pow2_succ (e : Z) : pow2 (e + 1) == 2 * pow2 e.
Proof. rewrite pow2_add. change (pow2 1) with 2. ring. Qed.

Lemma pow2_inject (a : Z) : (0 <= a)%Z -> inject_Z (2 ^ a) == pow2 a.
Proof. intros H. exact (Zpower_Qpower 2 a H). Qed.

(** ** Rounding to an integer *)


Lemma rint_mono (x y : Q) : x <= y -> (rint x <= rint y)%Z.
Proof.
  intros Hxy.
  pose proof (Qfloor_resp_le x y Hxy) as Hf.
  pose proof (Qfloor_le x) as Hxlo. pose proof (Qlt_floor x) as Hxhi.
  pose proof (Qfloor_le y) as Hylo. pose proof (Qlt_floor y) as Hyhi.
  rewrite inject_Z_plus in Hxhi, Hyhi.
  change (inject_Z 1) with 1 in Hxhi, Hyhi.
  assert (Hx : (Qfloor x <= rint x <= Qfloor x + 1)%Z).
  { unfold rint. repeat destruct (_ : bool); lia. }
  assert (Hy : (Qfloor y <= rint y <= Qfloor y + 1)%Z).
  { unfold rint. repeat destruct (_ : bool); lia. }
  destruct (Z.eq_dec (Qfloor x) (Qfloor y)) as [E|NE]; [|lia].
  unfold rint in *. rewrite <- E in *.
  set (f := Qfloor x) in *.
  destruct (Qle_bool (x - inject_Z f) (1 # 2)) eqn:Hxle;
    destruct (Qle_bool (y - inject_Z f) (1 # 2)) eqn:Hyle;
    destruct (Qeq_bool (x - inject_Z f) (1 # 2)) eqn:Hxeq;
    destruct (Qeq_bool (y - inject_Z f) (1 # 2)) eqn:Hyeq;
    destruct (Z.even f); try lia; exfalso;
    repeat match goal with
    | H : Qle_bool _ _ = true |- _ => apply Qle_bool_iff in H
    | H : Qeq_bool _ _ = true |- _ => apply Qeq_bool_iff in H
    | H : Qeq_bool _ _ = false |- _ => apply Qeq_bool_neq in H
    | H : Qle_bool ?a ?b = false |- _ =>
        assert (~ a <= b) by (intros H'; apply Qle_bool_iff in H'; congruence);
        clear H
    end; try lra.
  all: try (apply Hyeq; lra). all: try (apply Hxeq; lra).
Qed.

Lemma rint_inject (k : Z) : rint (inject_Z k) = k.
Proof.
  unfold rint. rewrite Qfloor_Z.
  assert (inject_Z k - inject_Z k == 0) as E by ring.
  destruct (Qle_bool _ _) eqn:Hle.
  - destruct (Qeq_bool _ _) eqn:Heq; [|done].
    apply Qeq_bool_iff in Heq. rewrite E in Heq. discriminate.
  - exfalso. assert (inject_Z k - inject_Z k <= 1 # 2) as H
      by (rewrite E; discriminate).
    apply Qle_bool_iff in H. congruence.
Qed.

(** ** The binade of a positive number *)

Lemma binade_spec (x : Q) :
  0 < x -> pow2 (binade x) <= x < pow2 (binade x + 1).
Proof.
  intros Hx. destruct x as [n d]. unfold binade. cbn [Qnum Qden].
  assert (0 < n)%Z as Hn by (unfold Qlt in Hx; simpl in Hx; lia).
  set (a := Z.log2 n). set (b := Z.log2 (Z.pos d)).
  pose proof (Z.log2_nonneg n) as Ha0. pose proof (Z.log2_nonneg (Z.pos d)) as Hb0.
  fold a in Ha0. fold b in Hb0.
  destruct (Z.log2_spec n Hn) as [Ha1 Ha2]. fold a in Ha1, Ha2.
  destruct (Z.log2_spec (Z.pos d) eq_refl) as [Hb1 Hb2]. fold b in Hb1, Hb2.
  rewrite Zle_Qle, pow2_inject in Ha1, Hb1 by lia.
  rewrite Zlt_Qlt in Ha2, Hb2.
  rewrite <- Z.add_1_r, pow2_inject, pow2_succ in Ha2, Hb2 by lia.
  assert (Hq : (n # d) * inject_Z (Z.pos d) == inject_Z n).
  { rewrite (Qmake_Qdiv n d). field. discriminate. }
  assert (He : pow2 (a - b) * pow2 b == pow2 a).
  { rewrite <- pow2_add. replace (a - b + b)%Z with a by lia. reflexivity. }
  pose proof (pow2_pos (a - b)) as Hpe. pose proof (pow2_pos b) as Hpb.
  pose proof (pow2_pos a) as Hpa.
  set (X := n # d) in *. set (D := inject_Z (Z.pos d)) in *.
  set (N := inject_Z n) in *. set (P := pow2 (a - b)) in *.
  set (A := pow2 a) in *. set (B := pow2 b) in *.
  destruct (Qle_bool P X) eqn:Htest.
  - apply Qle_bool_iff in Htest. split; [exact Htest|].
    rewrite pow2_succ. fold P.
    apply Qnot_le_lt. intros Hc.
    assert (2 * P * B <= X * D).
    { apply Qle_trans with (X * B).
      - apply Qmult_le_compat_r; lra.
      - rewrite !(Qmult_comm X). apply Qmult_le_compat_r; lra. }
    lra.
  - assert (X < P) as Hlt.
    { apply Qnot_le_lt. intros H. apply Qle_bool_iff in H. congruence. }
    replace (a - b - 1 + 1)%Z with (a - b)%Z by lia. fold P.
    split; [|exact Hlt].
    assert (pow2 (a - b - 1) * 2 == P) as Hhalf.
    { unfold P. replace (a - b)%Z with (a - b - 1 + 1)%Z at 2 by lia.
      rewrite pow2_succ. ring. }
    pose proof (pow2_pos (a - b - 1)) as Hph.
    set (Ph := pow2 (a - b - 1)) in *.
    apply Qnot_lt_le. intros Hc.
    assert (X * D < Ph * (2 * B)).
    { apply Qle_lt_trans with (Ph * D).
      - apply Qmult_le_compat_r; lra.
      - rewrite !(Qmult_comm Ph). apply Qmult_lt_compat_r; lra. }
    assert (Ph * (2 * B) == A) by (rewrite <- He, <- Hhalf; ring).
    lra.
Qed.


Lemma binade_mono (x y : Q) : 0 < x -> x <= y -> (binade x <= binade y)%Z.
Proof.
  intros Hx Hxy.
  destruct (binade_spec x Hx) as [Hx1 _].
  destruct (binade_spec y) as [_ Hy2]; [lra|].
  assert (binade x < binade y + 1)%Z by (apply pow2_lt_inv; lra).
  lia.
Qed.


(** ** The nearest double *)

Lemma ulp_exponent_mono (x y : Q) :
  0 < x -> x <= y -> (ulp_exponent x <= ulp_exponent y)%Z.
Proof.
  intros Hx Hxy. unfold ulp_exponent.
  pose proof (binade_mono x y Hx Hxy). lia.
Qed.

Lemma scaled_lt (x : Q) :
  0 < x -> x / pow2 (ulp_exponent x) < pow2 53.
Proof.
  intros Hx. destruct (binade_spec x Hx) as [_ Hhi].
  apply Qlt_shift_div_r; [apply pow2_pos|].
  rewrite <- pow2_add. eapply Qlt_le_trans; [exact Hhi|].
  apply pow2_le. unfold ulp_exponent. lia.
Qed.

Lemma scaled_ge (x : Q) :
  0 < x -> (-1022 <= binade x)%Z ->
  pow2 52 <= x / pow2 (ulp_exponent x).
Proof.
  intros Hx He. destruct (binade_spec x Hx) as [Hlo _].
  apply Qle_shift_div_l; [apply pow2_pos|].
  rewrite <- pow2_add. eapply Qle_trans; [|exact Hlo].
  apply pow2_le. unfold ulp_exponent in *. lia.
Qed.


Lemma nearest_positive_nonneg (x : Q) : 0 < x -> 0 <= nearest_positive x.
Proof.
  intros Hx. unfold nearest_positive.
  set (e := ulp_exponent x).
  assert (0 <= rint (x / pow2 e))%Z as Hr.
  { rewrite <- (rint_inject 0). apply rint_mono.
    apply Qle_shift_div_l; [apply pow2_pos|]. change (inject_Z 0) with 0. lra. }
  rewrite Zle_Qle in Hr. change (inject_Z 0) with 0 in Hr.
  pose proof (pow2_pos e).
  apply Qmult_le_0_compat; lra.
Qed.

Lemma nearest_positive_mono (x y : Q) :
  0 < x -> x <= y -> nearest_positive x <= nearest_positive y.
Proof.
  intros Hx Hxy. assert (0 < y) as Hy by lra.
  pose proof (ulp_exponent_mono x y Hx Hxy) as He.
  unfold nearest_positive.
  set (ex := ulp_exponent x) in *. set (ey := ulp_exponent y) in *.
  pose proof (pow2_pos ex) as Hpx. pose proof (pow2_pos ey) as Hpy.
  destruct (Z.eq_dec ex ey) as [E|NE].
  - rewrite <- E. apply Qmult_le_compat_r; [|lra].
    rewrite <- Zle_Qle. apply rint_mono.
    apply Qmult_le_compat_r; [exact Hxy|].
    apply Qlt_le_weak, Qinv_lt_0_compat, Hpx.
  - assert (rint (x / pow2 ex) <= 2 ^ 53)%Z as Hrx.
    { rewrite <- (rint_inject (2 ^ 53)). apply rint_mono.
      rewrite pow2_inject by lia. apply Qlt_le_weak. by apply scaled_lt. }
    assert (2 ^ 52 <= rint (y / pow2 ey))%Z as Hry.
    { rewrite <- (rint_inject (2 ^ 52)). apply rint_mono.
      rewrite pow2_inject by lia. apply scaled_ge; [exact Hy|].
      unfold ex, ey, ulp_exponent in *. lia. }
    rewrite Zle_Qle in Hrx, Hry.
    rewrite pow2_inject in Hrx, Hry by lia.
    apply Qle_trans with (pow2 53 * pow2 ex).
    { apply Qmult_le_compat_r; lra. }
    apply Qle_trans with (pow2 52 * pow2 ey).
    { rewrite <- !pow2_add. apply pow2_le. lia. }
    apply Qmult_le_compat_r; lra.
Qed.

Lemma nearest_nonneg (x : Q) : 0 <= x -> 0 <= nearest x.
Proof.
  intros Hx. unfold nearest.
  destruct (Qeq_bool x 0) eqn:E0; [discriminate|].
  apply Qeq_bool_neq in E0.
  assert (Qle_bool 0 x = true) as -> by (by apply Qle_bool_iff).
  apply nearest_positive_nonneg. lra.
Qed.

(** Rounding never swaps two numbers. *)
Lemma nearest_mono (x y : Q) : 0 <= x -> x <= y -> nearest x <= nearest y.
Proof.
  intros Hx Hxy. unfold nearest at 1.
  destruct (Qeq_bool x 0) eqn:E0.
  { apply nearest_nonneg. lra. }
  apply Qeq_bool_neq in E0.
  assert (Qle_bool 0 x = true) as -> by (by apply Qle_bool_iff).
  unfold nearest.
  destruct (Qeq_bool y 0) eqn:E1.
  { apply Qeq_bool_iff in E1. lra. }
  assert (Qle_bool 0 y = true) as -> by (apply Qle_bool_iff; lra).
  apply nearest_positive_mono; lra.
Qed.

Lemma nearest_comp (x y : Q) : 0 <= x -> x == y -> nearest x == nearest y.
Proof.
  intros Hx Hxy. apply Qle_antisym; apply nearest_mono; lra.
Qed.




Lemma round_Some (x y : Q) :
  round x = Some y -> y = nearest x /\ Qabs (nearest x) < pow2 1024.
Proof.
  unfold round. destruct (Qle_bool _ _) eqn:E; [discriminate|].
  intros [= <-]. split; [done|].
  apply Qnot_le_lt. intros H. apply Qle_bool_iff in H. congruence.
Qed.

End DoubleFacts.

(** ** Drawing from the generator *)

Module RandomFacts.
Import Random.

(** A loop whose body draws once per element reads consecutive values of
    the generator. *)
Lemma for_each_one_draw {A B} (random : nat -> Q) (f : A -> Q -> B)
    (xs : list A) (k : nat) :
  for_each xs (fun x => draw r <~ (fun k => (random k, S k)) ;; ret (f x r)) k
  = (imap (fun j x => f x (random (k + j)%nat)) xs, (k + length xs)%nat).
Proof.
  revert k. induction xs as [|x xs IH]; intros k; simpl.
  - unfold ret. f_equal. lia.
  - unfold bind at 1. unfold bind at 1. unfold ret at 1.
    unfold bind at 1. rewrite IH. unfold ret. simpl. f_equal.
    + f_equal; [do 2 f_equal; lia|].
      apply imap_ext. intros j y _. simpl. do 2 f_equal. lia.
    + lia.
Qed.

(** The [i]-th result of a loop is the body run on the [i]-th element, from
    some count of values drawn. *)
Lemma for_each_lookup {A B} (body : A -> Rand B) (xs : list A) (k : nat)
    (i : nat) (x : A) :
  xs !! i = Some x ->
  exists k', fst (for_each xs body k) !! i = Some (fst (body x k')).
Proof.
  revert k i. induction xs as [|y xs IH]; intros k i Hx; [discriminate|].
  simpl. unfold bind at 1. destruct (body y k) as [b k1] eqn:Hb.
  unfold bind at 1. destruct (for_each xs body k1) as [bs k2] eqn:Hbs.
  unfold ret. simpl. destruct i as [|i]; simpl in *.
  - injection Hx as ->. exists k. by rewrite Hb.
  - destruct (IH k1 i Hx) as [k' Hk']. exists k'. by rewrite Hbs in Hk'.
Qed.

Lemma for_each_length {A B} (body : A -> Rand B) (xs : list A) (k : nat) :
  length (fst (for_each xs body k)) = length xs.
Proof.
  revert k. induction xs as [|y xs IH]; intros k; [done|].
  simpl. unfold bind at 1. destruct (body y k) as [b k1].
  unfold bind at 1. specialize (IH k1).
  destruct (for_each xs body k1) as [bs k2]. simpl in *. by rewrite IH.
Qed.

End RandomFacts.

(** ** The curves *)

Module CurveFacts.
Import Random AudioService.

Lemma curve_points_ge (duration : Q) : (10 <= curve_points duration)%Z.
Proof. unfold curve_points. lia. Qed.

(** [Math.max(0.1, Math.min(1.0, x))] lies between its bounds. *)
Lemma clamp_bounds (x : Q) : 0.1 <= Qmax 0.1 (Qmin 1.0 x) <= 1.0.
Proof.
  split; [apply Q.le_max_l|].
  apply Q.max_lub; [discriminate | apply Q.le_min_l].
Qed.

Definition sample_time (duration : Q) (i : Z) : Q :=
  (inject_Z i / inject_Z (curve_points duration)) * duration.

Lemma sample_time_lt (duration : Q) (i j : Z) :
  0 < duration -> (i < j)%Z ->
  sample_time duration i < sample_time duration j.
Proof.
  intros HD Hij. unfold sample_time.
  pose proof (curve_points_ge duration) as Hp.
  assert (0 < inject_Z (curve_points duration)) as Hc.
  { change 0 with (inject_Z 0). rewrite <- Zlt_Qlt. lia. }
  apply Qinv_lt_0_compat in Hc.
  assert (inject_Z i < inject_Z j) as Hlt by (by rewrite <- Zlt_Qlt).
  unfold Qdiv. apply Qmult_lt_compat_r; [exact HD|].
  apply Qmult_lt_compat_r; [exact Hc|exact Hlt].
Qed.

Lemma sample_time_first (duration : Q) : sample_time duration 0 == 0.
Proof. unfold sample_time. change (inject_Z 0) with 0. unfold Qdiv. ring. Qed.

Lemma sample_time_last (duration : Q) :
  sample_time duration (curve_points duration) == duration.
Proof.
  unfold sample_time. pose proof (curve_points_ge duration) as Hp.
  assert (~ inject_Z (curve_points duration) == 0) as Hc.
  { change 0 with (inject_Z 0). rewrite inject_Z_injective. lia. }
  field. exact Hc.
Qed.

Section WithGenerator.
Variable random : nat -> Q.

Definition volume_sample (duration baseVolume volatility : Q) (k j : nat)
  : volume_point :=
  VolumePoint
    (sample_time duration (Z.of_nat j))
    (Qmax 0.1 (Qmin 1.0 (baseVolume
                         + (random (k + j)%nat - 0.5) * volatility))).

Definition pan_sample (duration spatialDrift : Q) (k j : nat) : pan_point :=
  PanPoint
    (sample_time duration (Z.of_nat j))
    ((random (k + j)%nat - 0.5) * 2 * spatialDrift).

(** The volume curve, sample by sample. *)
Lemma generateVolumeCurve_lookup duration baseVolume volatility k j p :
  fst (generateVolumeCurve random duration baseVolume volatility k) !! j
    = Some p
  <-> (Z.of_nat j <= curve_points duration)%Z
      /\ p = volume_sample duration baseVolume volatility k j.
Proof.
  unfold generateVolumeCurve.
  rewrite (RandomFacts.for_each_one_draw random
    (fun i r =>
       VolumePoint (inject_Z i / inject_Z (curve_points duration) * duration)
         (Qmax 0.1 (Qmin 1.0 (baseVolume + (r - 0.5) * volatility))))).
  simpl. rewrite list_lookup_imap.
  destruct (seqZ 0 (curve_points duration + 1) !! j) as [i|] eqn:Hi; simpl.
  - apply lookup_seqZ in Hi as [-> Hj]. split.
    + intros [= <-]. split; [lia|done].
    + intros [_ ->]. done.
  - split; [done|]. intros [Hj _].
    rewrite lookup_seqZ_lt in Hi; [done|lia].
Qed.

Lemma generatePanCurve_lookup duration spatialDrift k j p :
  fst (generatePanCurve random duration spatialDrift k) !! j = Some p
  <-> (Z.of_nat j <= curve_points duration)%Z
      /\ p = pan_sample duration spatialDrift k j.
Proof.
  unfold generatePanCurve.
  rewrite (RandomFacts.for_each_one_draw random
    (fun i r =>
       PanPoint (inject_Z i / inject_Z (curve_points duration) * duration)
         ((r - 0.5) * 2 * spatialDrift))).
  simpl. rewrite list_lookup_imap.
  destruct (seqZ 0 (curve_points duration + 1) !! j) as [i|] eqn:Hi; simpl.
  - apply lookup_seqZ in Hi as [-> Hj]. split.
    + intros [= <-]. split; [lia|done].
    + intros [_ ->]. done.
  - split; [done|]. intros [Hj _].
    rewrite lookup_seqZ_lt in Hi; [done|lia].
Qed.

Lemma generateVolumeCurve_length duration baseVolume volatility k :
  length (fst (generateVolumeCurve random duration baseVolume volatility k))
  = S (Z.to_nat (curve_points duration)).
Proof.
  unfold generateVolumeCurve. rewrite RandomFacts.for_each_length.
  rewrite length_seqZ. pose proof (curve_points_ge duration). lia.
Qed.

Lemma generatePanCurve_length duration spatialDrift k :
  length (fst (generatePanCurve random duration spatialDrift k))
  = S (Z.to_nat (curve_points duration)).
Proof.
  unfold generatePanCurve. rewrite RandomFacts.for_each_length.
  rewrite length_seqZ. pose proof (curve_points_ge duration). lia.
Qed.

(** The first sample is taken at time 0 and the last at [duration]. *)
Lemma generateVolumeCurve_first duration baseVolume volatility k :
  exists p,
    head (fst (generateVolumeCurve random duration baseVolume volatility k))
      = Some p
    /\ v_time p == 0.
Proof.
  pose proof (curve_points_ge duration) as Hp.
  exists (volume_sample duration baseVolume volatility k 0%nat). split.
  - rewrite head_lookup. apply generateVolumeCurve_lookup. split; [lia|done].
  - simpl. apply sample_time_first.
Qed.

Lemma generateVolumeCurve_last duration baseVolume volatility k :
  exists p,
    last (fst (generateVolumeCurve random duration baseVolume volatility k))
      = Some p
    /\ v_time p == duration.
Proof.
  pose proof (curve_points_ge duration) as Hp.
  exists (volume_sample duration baseVolume volatility k
            (Z.to_nat (curve_points duration))). split.
  - rewrite last_lookup, generateVolumeCurve_length. simpl.
    apply generateVolumeCurve_lookup. split; [lia|done].
  - simpl. rewrite Z2Nat.id by lia. apply sample_time_last.
Qed.

End WithGenerator.

End CurveFacts.

(** ** Claims about the volume curve *)

Import Random AudioService CurveFacts.

(** The number of samples as the specification words it:
    max(10, duration / 60). *)
Definition spec_sample_count (duration : Q) : Q := Qmax 10 (duration / 60).

(** A generator that always returns one half. *)
Definition steady : nat -> Q := fun _ => 0.5.

(** C4, as the code has it.  For every duration, [generateVolumeCurve]
    produces [max(10, floor(duration / 60)) + 1] samples: the first at time 0,
    the last at time [duration], and the [j]-th at [j] times the step
    [duration / max(10, floor(duration / 60))]. *)
Theorem volume_curve_samples (random : nat -> Q)
    (duration baseVolume volatility : Q) (k : nat) :
  let curve := fst (generateVolumeCurve random duration baseVolume volatility k) in
  let points := Z.max 10 (Qfloor (duration / 60)) in
  Z.of_nat (length curve) = (points + 1)%Z
  /\ (forall (j : nat) (p : volume_point), curve !! j = Some p ->
        v_time p == inject_Z (Z.of_nat j) * (duration / inject_Z points))
  /\ (exists p, head curve = Some p /\ v_time p == 0)
  /\ (exists p, last curve = Some p /\ v_time p == duration).
Proof.
  intros curve points. subst curve.
  pose proof (curve_points_ge duration) as Hp.
  repeat split.
  - rewrite generateVolumeCurve_length. fold (curve_points duration) in points.
    subst points. lia.
  - intros j p Hj. apply generateVolumeCurve_lookup in Hj as [_ ->].
    simpl. unfold sample_time. fold (curve_points duration) in points.
    subst points. unfold Qdiv. ring.
  - apply generateVolumeCurve_first.
  - apply generateVolumeCurve_last.
Qed.

(** C4, as stated, fails: for a duration of 60 seconds the curve has 11
    samples, not max(10, 60 / 60) = 10. *)
Lemma volume_curve_samples_counterexample :
  length (fst (generateVolumeCurve steady 60 0.7 0.3 0%nat)) = 11%nat
  /\ ~ inject_Z (Z.of_nat (length (fst (generateVolumeCurve steady 60 0.7 0.3 0%nat))))
       == spec_sample_count 60.
Proof.
  split; [reflexivity|]. vm_compute. discriminate.
Qed.

(** C6.  For every duration above zero (so for every duration in
    [[60, 36000]]), every base volume and every volatility, the sample times
    of the volume curve are strictly increasing, start at 0 and end at
    [duration], and every volume lies in [[0.1, 1.0]]. *)
Theorem volume_curve_bounds (random : nat -> Q)
    (duration baseVolume volatility : Q) (k : nat) :
  0 < duration ->
  let curve := fst (generateVolumeCurve random duration baseVolume volatility k) in
  (forall (i j : nat) (p q : volume_point),
      (i < j)%nat -> curve !! i = Some p -> curve !! j = Some q ->
      v_time p < v_time q)
  /\ (exists p, head curve = Some p /\ v_time p == 0)
  /\ (exists p, last curve = Some p /\ v_time p == duration)
  /\ Forall (fun p => 0.1 <= volume p <= 1.0) curve.
Proof.
  intros HD curve.
  repeat split;
    [|apply generateVolumeCurve_first|apply generateVolumeCurve_last|].
  - intros i j p q Hij Hp Hq.
    apply generateVolumeCurve_lookup in Hp as [_ ->].
    apply generateVolumeCurve_lookup in Hq as [_ ->].
    simpl. apply sample_time_lt; [exact HD|lia].
  - apply Forall_lookup. intros j p Hp.
    apply generateVolumeCurve_lookup in Hp as [_ ->].
    simpl. apply clamp_bounds.
Qed.

Lemma volume_curve_bounds_witness :
  0 < 60
  /\ Forall (fun p => 0.1 <= volume p <= 1.0)
            (fst (generateVolumeCurve steady 60 0.7 1 0%nat)).
Proof.
  split; [reflexivity|].
  apply (volume_curve_bounds steady 60 0.7 1 0%nat). reflexivity.
Defined.

(** ** Claims about panning *)

Lemma pan_sample_bounds (random : nat -> Q) (duration spatialDrift : Q)
    (k j : nat) :
  unit_interval random -> 0 <= spatialDrift <= 1 ->
  -1 <= pan (pan_sample random duration spatialDrift k j) <= 1.
Proof.
  intros Hr [Hd0 Hd1]. destruct (Hr (k + j)%nat) as [Hr0 Hr1]. simpl. nra.
Qed.

Lemma pan_sum_bounds (curve : list pan_point) (acc : Q) :
  Forall (fun p => -1 <= pan p <= 1) curve ->
  acc - inject_Z (Z.of_nat (length curve))
    <= fold_left (fun sum p => sum + pan p) curve acc
    <= acc + inject_Z (Z.of_nat (length curve)).
Proof.
  intros H. revert acc. induction H as [|p l [Hp0 Hp1] _ IH]; intros acc.
  - simpl. change (inject_Z (Z.of_nat 0)) with 0. lra.
  - cbn [fold_left length]. specialize (IH (acc + pan p)).
    rewrite Nat2Z.inj_succ, <- Z.add_1_r, inject_Z_plus.
    change (inject_Z 1) with 1. lra.
Qed.

(** The mean of pan values in [[-1, 1]] lies in [[-1, 1]]. *)
Lemma average_pan_bounds (curve : list pan_point) :
  Forall (fun p => -1 <= pan p <= 1) curve -> -1 <= average_pan curve <= 1.
Proof.
  intros H. unfold average_pan.
  destruct (pan_sum_bounds curve 0 H) as [Hlo Hhi].
  destruct curve as [|p l]; [simpl; split; discriminate|].
  set (n := inject_Z (Z.of_nat (length (p :: l)))) in *.
  assert (0 < n) as Hn.
  { subst n. change 0 with (inject_Z 0). rewrite <- Zlt_Qlt. simpl. lia. }
  split.
  - apply Qle_shift_div_l; [exact Hn|]. lra.
  - apply Qle_shift_div_r; [exact Hn|]. lra.
Qed.

Lemma pan_split_bounds (panValue : Q) :
  -1 <= panValue <= 1 ->
  0 <= leftGain (pan_split panValue) <= 2
  /\ 0 <= rightGain (pan_split panValue) <= 2.
Proof.
  intros [H0 H1]. simpl.
  destruct (Q.max_spec 0 panValue) as [[_ Hmax]|[_ Hmax]];
  destruct (Q.min_spec 0 panValue) as [[_ Hmin]|[_ Hmin]];
  rewrite Hmax, Hmin; lra.
Qed.

Lemma generatePanCurve_bounds (random : nat -> Q) (duration spatialDrift : Q)
    (k : nat) :
  unit_interval random -> 0 <= spatialDrift <= 1 ->
  Forall (fun p => -1 <= pan p <= 1)
         (fst (generatePanCurve random duration spatialDrift k)).
Proof.
  intros Hr Hd. apply Forall_lookup. intros j p Hp.
  apply generatePanCurve_lookup in Hp as [_ ->].
  by apply pan_sample_bounds.
Qed.

(** ** What [prepare] hands to ffmpeg *)

Section Prepare.
Variable random : nat -> Q.
Variable show : Q -> string.
Variable path_resolve : string -> string.
Variable path_join : string -> string -> string.
Variable audioOutputDir : string.

Let prepare := prepare random show path_resolve path_join audioOutputDir.

(** A call that gets as far as the command has passed the validation, and
    its stems, curves and filter chains are the ones computed from the
    configuration. *)
Lemma prepare_inr (cfg : config) (w : world) (p : prepared) :
  prepare cfg w = inr p ->
  (1 <= length (stems cfg) <= 10)%nat
  /\ 60 <= duration cfg <= 36000
  /\ map_stems (stems cfg)
       (getAudioStems (db w) (map config_id (stems cfg))) = Some (audioStems p)
  /\ volumeCurves p
     = fst (for_each (audioStems p)
              (fun stem => generateVolumeCurve random (duration cfg)
                             (stem_volume stem) (volatility cfg)) (drawn w))
  /\ (exists k,
        panCurves p
        = fst (for_each (audioStems p)
                 (fun _ => generatePanCurve random (duration cfg)
                             (spatialDrift cfg)) k))
  /\ complexFilter (prep_command p)
     = imap (fun index _ =>
               filter_chain show index
                 (default [] (volumeCurves p !! index))
                 (default [] (panCurves p !! index)))
            (audioStems p)
       ++ [amix_filter show (length (audioStems p))].
Proof.
  unfold prepare, AudioService.prepare.
  destruct (length (stems cfg) =? 0)%nat eqn:H0; [discriminate|].
  destruct (10 <? length (stems cfg))%nat eqn:H10; [discriminate|].
  destruct (negb (Qle_bool 60 (duration cfg))
            || negb (Qle_bool (duration cfg) 36000)) eqn:HD; [discriminate|].
  apply orb_false_elim in HD as [HD1 HD2].
  destruct (negb (_ =? _)%nat) eqn:Hlen; [discriminate|].
  destruct (map_stems _ _) as [audioStems|] eqn:Hmap; [|discriminate].
  destruct (List.find _ audioStems) eqn:Hfind; [discriminate|].
  destruct (for_each audioStems _ (drawn w)) as [vcs k] eqn:Hv.
  destruct (for_each audioStems _ k) as [pcs k'] eqn:Hp.
  intros [= <-]. simpl.
  apply Nat.eqb_neq in H0. apply Nat.ltb_ge in H10.
  apply negb_false_iff, Qle_bool_iff in HD1, HD2.
  repeat split; try lia; try done.
  - by rewrite Hv.
  - exists k. by rewrite Hp.
Qed.

End Prepare.

(** A small catalogue and request, used to run the model. *)
Module Example.

Definition show (q : Q) : string := "n".
Definition path_resolve (p : string) : string := p.
Definition path_join (dir name : string) : string := dir +:+ "/" +:+ name.

Definition rain : db_stem := DbStem 1 "rain.mp3" (Some 0.4).
Definition wind : db_stem := DbStem 2 "wind.mp3" None.

(** Rain with a volume override of 0, wind with no override. *)
Definition request : config :=
  Config [StemConfig None (Some 1%Z) (Some 0); StemConfig (Some 2%Z) None None]
         60 0.3 0.7 0.5 (Some "mix.mp3").

Definition world_with (steps : list encoder_step) : world :=
  World [rain; wind] {[ "rain.mp3" := 1000%Z; "wind.mp3" := 2000%Z ]}
        1700000000000 1700000000001 0 steps.

Definition prepare (w : world) : string + prepared :=
  AudioService.prepare steady show path_resolve path_join "out" request w.

Definition generateAudio (progressCallback : bool) (w : world) : state :=
  AudioService.generateAudio steady show path_resolve path_join "out" request
    progressCallback w.

End Example.

Lemma steady_unit_interval : unit_interval steady.
Proof. intros k. split; [discriminate|reflexivity]. Qed.

Lemma example_prepare_succeeds (steps : list encoder_step) :
  exists p, Example.prepare (Example.world_with steps) = inr p.
Proof.
  destruct (Example.prepare (Example.world_with steps)) as [e|p] eqn:E.
  - exfalso. vm_compute in E. discriminate.
  - by exists p.
Qed.

Lemma pan_sum_fold (curve : list pan_point) (acc : Q) :
  fold_left (fun sum p => sum + pan p) curve acc
  == acc + fold_right (fun p sum => pan p + sum) 0 curve.
Proof.
  revert acc. induction curve as [|p l IH]; intros acc; simpl.
  - ring.
  - rewrite IH. ring.
Qed.

(** The mean times the number of points is the sum of the pan values. *)
Lemma average_pan_sum (curve : list pan_point) :
  curve <> [] ->
  average_pan curve * inject_Z (Z.of_nat (length curve))
  == fold_right (fun p sum => pan p + sum) 0 curve.
Proof.
  intros Hne. unfold average_pan. rewrite pan_sum_fold.
  assert (0 < inject_Z (Z.of_nat (length curve))) as Hn.
  { change 0 with (inject_Z 0). rewrite <- Zlt_Qlt.
    destruct curve; [done|simpl; lia]. }
  field. lra.
Qed.

(** C7.  With a generator in [[0, 1)] and a spatial drift in [[0, 1]]:
    every pan value of a generated pan curve is
    [(Math.random() - 0.5) * 2 * spatialDrift] and lies in [[-1, 1]]; the
    mean of the curve is the sum of its pan values over their number; and
    the split computed from the mean has a left gain of [1 - max(0, pan)]
    and a right gain of [1 + min(0, pan)], both between 0 and 2.  The
    filter that [buildPanFilter] emits is 'pan=stereo' with exactly these
    two gains, as constants, on the two channels; and in [generateAudio]
    the filter chain of each stem takes its pan filter from the mean of
    that stem's pan curve, one scalar for the whole track. *)
Theorem pan_filter_bounds (random : nat -> Q) (drift : Q) :
  unit_interval random -> 0 <= drift <= 1 ->
  (forall (duration : Q) (k : nat),
     let curve := fst (generatePanCurve random duration drift k) in
     let g := pan_split (average_pan curve) in
     Forall (fun p => -1 <= pan p <= 1) curve
     /\ (forall j p, curve !! j = Some p ->
           pan p = (random (k + j)%nat - 0.5) * 2 * drift)
     /\ average_pan curve * inject_Z (Z.of_nat (length curve))
        == fold_right (fun p sum => pan p + sum) 0 curve
     /\ (0 < length curve)%nat
     /\ leftGain g = 1 - Qmax 0 (average_pan curve)
     /\ rightGain g = 1 + Qmin 0 (average_pan curve)
     /\ 0 <= leftGain g <= 2 /\ 0 <= rightGain g <= 2)
  /\ (forall (show : Q -> string) (panValue : Q),
        buildPanFilter show panValue
        = "pan=stereo|c0=" +:+ show (1 - Qmax 0 panValue) +:+ "*c0|c1="
          +:+ show (1 + Qmin 0 panValue) +:+ "*c1")
  /\ (forall show path_resolve path_join audioOutputDir cfg w p index stem,
        spatialDrift cfg = drift ->
        prepare random show path_resolve path_join audioOutputDir cfg w = inr p ->
        audioStems p !! index = Some stem ->
        exists volumeCurve k,
          let panCurve :=
            fst (generatePanCurve random (duration cfg) drift k) in
          volumeCurves p !! index = Some volumeCurve
          /\ panCurves p !! index = Some panCurve
          /\ complexFilter (prep_command p) !! index
             = Some (filter_chain show index volumeCurve panCurve)
          /\ filter_chain show index volumeCurve panCurve
             = "[" +:+ show (inject_Z (Z.of_nat index)) +:+ ":a]"
               +:+ buildVolumeFilter show volumeCurve +:+ ","
               +:+ buildPanFilter show (average_pan panCurve)
               +:+ "[a" +:+ show (inject_Z (Z.of_nat index)) +:+ "]").
Proof.
  intros Hr Hd. split; [|split].
  - intros duration k curve g.
    assert (Forall (fun p => -1 <= pan p <= 1) curve) as Hc
      by (by apply generatePanCurve_bounds).
    assert (0 < length curve)%nat as Hlen
      by (subst curve; rewrite generatePanCurve_length; lia).
    split; [exact Hc|]. split.
    { intros j p Hp. by apply generatePanCurve_lookup in Hp as [_ ->]. }
    split.
    { apply average_pan_sum. intros E. rewrite E in Hlen. simpl in Hlen. lia. }
    split; [exact Hlen|]. split; [done|]. split; [done|].
    apply pan_split_bounds, average_pan_bounds, Hc.
  - done.
  - intros show path_resolve path_join dir cfg w p index stem <- Hprep Hstem.
    apply prepare_inr in Hprep as (_ & _ & _ & Hv & [k Hp] & Hf).
    destruct (RandomFacts.for_each_lookup
                (fun stem => generateVolumeCurve random (duration cfg)
                               (stem_volume stem) (volatility cfg))
                (audioStems p) (drawn w) index stem Hstem) as [kv Hkv].
    destruct (RandomFacts.for_each_lookup
                (fun _ => generatePanCurve random (duration cfg)
                            (spatialDrift cfg))
                (audioStems p) k index stem Hstem) as [kp Hkp].
    rewrite <- Hv in Hkv. rewrite <- Hp in Hkp.
    eexists _, kp. cbv zeta. split; [exact Hkv|]. split; [exact Hkp|].
    split; [|done].
    rewrite Hf, lookup_app_l.
    + rewrite list_lookup_imap, Hstem. simpl. by rewrite Hkv, Hkp.
    + rewrite length_imap. by apply lookup_lt_Some in Hstem.
Qed.

(** A generator that sways: 0.9 and 0.7 in turn. *)
Definition swaying : nat -> Q := fun k => if Nat.even k then 0.9 else 0.7.

Lemma swaying_unit_interval : unit_interval swaying.
Proof.
  intros k. unfold swaying. destruct (Nat.even k); split;
    (discriminate || reflexivity).
Qed.

(** With a drift of 0.5 the pans of a minute are 0.4 and 0.2 in turn, six
    and five of them: the mean is 34/110, the left gain 38/55, the right
    gain 1. *)
Lemma pan_filter_bounds_witness :
  let curve := fst (generatePanCurve swaying 60 0.5 0%nat) in
  unit_interval swaying
  /\ 0 <= 0.5 <= 1
  /\ Forall (fun p => -1 <= pan p <= 1) curve
  /\ average_pan curve * 11 == 3.4
  /\ leftGain (pan_split (average_pan curve)) == 38 # 55
  /\ rightGain (pan_split (average_pan curve)) == 1.
Proof.
  intros curve.
  split; [exact swaying_unit_interval|].
  split; [split; discriminate|].
  destruct (proj1 (pan_filter_bounds swaying 0.5 swaying_unit_interval
                     ltac:(split; discriminate)) 60 0%nat)
    as (Hbounds & _ & Hmean & _ & Hleft & Hright & _).
  fold curve in Hbounds, Hmean, Hleft, Hright.
  split; [exact Hbounds|]. split.
  { assert (inject_Z (Z.of_nat (length curve)) = 11) as E
      by (vm_compute; reflexivity).
    rewrite E in Hmean. rewrite Hmean. vm_compute. reflexivity. }
  rewrite Hleft, Hright. split; vm_compute; reflexivity.
Defined.

(** ** Claims about the base volume of a stem *)

(** A value that [||] skips: missing, or zero. *)
Definition absent_or_zero (x : option Q) : Prop :=
  x = None \/ exists q, x = Some q /\ q == 0.

Lemma truthy_false (x : option Q) : absent_or_zero x -> Js.truthy x = false.
Proof.
  intros [->|(q & -> & Hq)]; [done|].
  simpl. apply Qeq_bool_iff in Hq. by rewrite Hq.
Qed.

Lemma truthy_true (q : Q) : ~ q == 0 -> Js.truthy (Some q) = true.
Proof.
  intros Hq. simpl. destruct (Qeq_bool q 0) eqn:E; [|done].
  by apply Qeq_bool_iff in E.
Qed.

(** With an override that is missing or zero, the base volume is the
    catalogue's default, or 0.7 when that is missing or zero as well. *)
Lemma base_volume_fallback (stemConfig : stem_config) (dbStem : db_stem) :
  absent_or_zero (cfg_volume stemConfig) ->
  (forall d, default_volume dbStem = Some d -> ~ d == 0 ->
             base_volume stemConfig dbStem = d)
  /\ (absent_or_zero (default_volume dbStem) ->
      base_volume stemConfig dbStem = 0.7).
Proof.
  intros Hv. apply truthy_false in Hv. unfold base_volume, Js.or. rewrite Hv.
  split.
  - intros d Hd Hnz. rewrite Hd. unfold Js.or_default.
    by rewrite (truthy_true d Hnz).
  - intros Hd. apply truthy_false in Hd. unfold Js.or_default.
    destruct (default_volume dbStem); [by rewrite Hd|done].
Qed.

Lemma map_stems_lookup (stems : list stem_config) (dbStems : list db_stem)
    (audioStems : list audio_stem) (index : nat) (stem : audio_stem) :
  map_stems stems dbStems = Some audioStems ->
  audioStems !! index = Some stem ->
  exists stemConfig,
    List.find (fun s => same_id (config_id s) (db_id (row stem))) stems
      = Some stemConfig
    /\ dbStems !! index = Some (row stem)
    /\ stem_volume stem = base_volume stemConfig (row stem).
Proof.
  revert audioStems index.
  induction dbStems as [|dbStem rest IH]; intros audioStems index; simpl.
  - intros [= <-]. done.
  - unfold map_stem.
    destruct (List.find (fun s => same_id (config_id s) (db_id dbStem)) stems)
      as [stemConfig|] eqn:Hfind;
      destruct (map_stems stems rest) as [l|] eqn:Hrest; try discriminate.
    intros [= <-]. destruct index as [|index]; simpl.
    + intros [= <-]. simpl. by exists stemConfig.
    + intros Hstem. by apply (IH l index).
Qed.

(** C10.  In [generateAudio], for each stem that reaches the mixer: the
    volume curve of the stem is generated from the stem's base volume, and
    when the stem's volume override is missing or zero that base volume is
    the catalogue's default volume, or 0.7 when the default is missing or
    zero as well. *)
Theorem zero_override_not_honored (random : nat -> Q) (show : Q -> string)
    (path_resolve : string -> string) (path_join : string -> string -> string)
    (audioOutputDir : string) (cfg : config) (w : world) (p : prepared) :
  prepare random show path_resolve path_join audioOutputDir cfg w = inr p ->
  forall (index : nat) (stem : audio_stem),
    audioStems p !! index = Some stem ->
    exists stemConfig k,
      List.find (fun s => same_id (config_id s) (db_id (row stem))) (stems cfg)
        = Some stemConfig
      /\ volumeCurves p !! index
         = Some (fst (generateVolumeCurve random (duration cfg)
                        (stem_volume stem) (volatility cfg) k))
      /\ (absent_or_zero (cfg_volume stemConfig) ->
          (forall d, default_volume (row stem) = Some d -> ~ d == 0 ->
                     stem_volume stem = d)
          /\ (absent_or_zero (default_volume (row stem)) ->
              stem_volume stem = 0.7)).
Proof.
  intros Hprep index stem Hstem.
  apply prepare_inr in Hprep as (_ & _ & Hmap & Hv & _ & _).
  destruct (map_stems_lookup _ _ _ _ _ Hmap Hstem) as (stemConfig & Hfind & _ & Hvol).
  destruct (RandomFacts.for_each_lookup
              (fun stem => generateVolumeCurve random (duration cfg)
                             (stem_volume stem) (volatility cfg))
              (audioStems p) (drawn w) index stem Hstem) as [k Hk].
  exists stemConfig, k. split; [exact Hfind|]. split; [by rewrite Hv|].
  intros Habsent. rewrite Hvol. by apply base_volume_fallback.
Qed.

(** In the example, rain's override of 0 gives way to its default 0.4, and
    wind, with neither, gets 0.7. *)
Example example_stems :
  map_stems (stems Example.request)
    (getAudioStems [Example.rain; Example.wind]
       (map config_id (stems Example.request)))
  = Some [AudioStem Example.rain 0.4; AudioStem Example.wind 0.7].
Proof. reflexivity. Qed.

Lemma zero_override_not_honored_witness :
  match Example.prepare (Example.world_with []) with
  | inr p =>
      exists stemConfig k,
        List.find (fun s => same_id (config_id s) (db_id Example.rain))
                  (stems Example.request) = Some stemConfig
        /\ volumeCurves p !! 0%nat
           = Some (fst (generateVolumeCurve steady 60 0.4 0.3 k))
        /\ cfg_volume stemConfig = Some 0
  | inl _ => False
  end.
Proof.
  destruct (Example.prepare (Example.world_with [])) as [e|p] eqn:E.
  - vm_compute in E. discriminate.
  - pose proof (prepare_inr _ _ _ _ _ _ _ _ E) as (_ & _ & Hmap & _).
    change (Some [AudioStem Example.rain 0.4; AudioStem Example.wind 0.7]
            = Some (audioStems p)) in Hmap.
    injection Hmap as Hstems.
    destruct (zero_override_not_honored _ _ _ _ _ _ _ _ E 0%nat
                (AudioStem Example.rain 0.4)) as (stemConfig & k & Hfind & Hv & _).
    { by rewrite <- Hstems. }
    exists stemConfig, k. split; [exact Hfind|]. split; [exact Hv|].
    simpl in Hfind. by injection Hfind as <-.
Defined.

(** ** Claims about the volume filter *)














(** ** Claims about progress and failure of [generateAudio] *)

(** A step between 'start' and the end of the run. *)
Definition is_body (s : encoder_step) : bool :=
  match s with
  | OnProgress _ _ | OutputWritten _ => true
  | _ => false
  end.

(** The encoder reports no more than 100 percent. *)
Definition within_100 (s : encoder_step) : bool :=
  match s with
  | OnProgress (Some p) _ => Qle_bool p 100
  | _ => true
  end.

Definition percents (st : state) : list Z := map fst (progress_events st).

Section HandlerFacts.
Variable progressCallback : bool.
Variable startTime : Q.
Variable cfg_duration : Q.
Variable stemCount : nat.
Variable outPath : string.
Variable outName : string.

Let handle := handle progressCallback startTime cfg_duration stemCount outPath outName.
Let run := run progressCallback startTime cfg_duration stemCount outPath outName.

Lemma progress_events_emit (pct : Z) (msg : message) (st : state) :
  progress_events (emit (Progress pct msg) st) = progress_events st ++ [(pct, msg)].
Proof. unfold progress_events. simpl. by rewrite omap_app. Qed.

Lemma progress_events_resolve (r : result) (st : state) :
  progress_events (resolve r st) = progress_events st.
Proof.
  unfold resolve, progress_events. destruct (settled st); simpl; [|done..].
  by rewrite omap_app, app_nil_r.
Qed.

Lemma progress_events_reject (m : string) (st : state) :
  progress_events (reject m st) = progress_events st.
Proof.
  unfold reject, progress_events. destruct (settled st); simpl; [|done..].
  by rewrite omap_app, app_nil_r.
Qed.

Lemma progress_events_unlink (path : string) (st : state) :
  progress_events (unlink_if_exists path st) = progress_events st.
Proof.
  unfold unlink_if_exists, progress_events.
  destruct (files st !! path); simpl; [|done].
  by rewrite omap_app, app_nil_r.
Qed.

(** What holds of the calls made so far while the command runs: the
    percentages never decrease, none exceeds [lastProgress], and the
    completion message has not been sent. *)
Definition running (st : state) : Prop :=
  StronglySorted Z.le (percents st)
  /\ Forall (fun pct => (pct <= lastProgress st)%Z) (percents st)
  /\ Forall (fun e => snd e <> Completed) (progress_events st).

Lemma sorted_snoc (l : list Z) (x bound : Z) :
  StronglySorted Z.le l -> Forall (fun y => (y <= bound)%Z) l ->
  (bound <= x)%Z -> StronglySorted Z.le (l ++ [x]).
Proof.
  intros Hs Hb Hx. apply StronglySorted_app_2.
  - intros y z Hy Hz. apply list_elem_of_singleton in Hz as ->.
    rewrite Forall_forall in Hb. specialize (Hb y Hy). lia.
  - exact Hs.
  - repeat constructor.
Qed.

Lemma handle_body_running (s : encoder_step) (st : state) :
  is_body s = true -> running st -> running (handle s st).
Proof.
  intros Hs (Hsorted & Hbound & Hmsg).
  destruct s as [|percent now| | |size]; try discriminate; simpl.
  - destruct (Js.truthy percent); [|done].
    destruct (_ <=? _)%Z eqn:Hstep; [|done].
    apply Z.leb_le in Hstep.
    destruct progressCallback; simpl.
    + unfold running, percents. rewrite progress_events_emit.
      change (progress_events (State ?a ?b ?c (effects st)))
        with (progress_events st).
      rewrite map_app. simpl. split_and!.
      * eapply sorted_snoc; [exact Hsorted|exact Hbound|lia].
      * apply Forall_app. split; [|by repeat constructor].
        eapply Forall_impl; [exact Hbound|]. simpl. lia.
      * apply Forall_app. split; [exact Hmsg|]. by repeat constructor.
    + split_and!; [exact Hsorted| |exact Hmsg].
      eapply Forall_impl; [exact Hbound|]. simpl. lia.
  - done.
Qed.

Lemma handle_body_bound (s : encoder_step) (st : state) :
  is_body s = true -> within_100 s = true ->
  (lastProgress st <= 100)%Z -> (lastProgress (handle s st) <= 100)%Z.
Proof.
  intros Hs Hp Hst.
  destruct s as [|percent now| | |size]; try discriminate; simpl; [|done].
  destruct percent as [p|]; [|done]. simpl in Hp. apply Qle_bool_iff in Hp.
  destruct (Js.truthy (Some p)); [|done].
  destruct (_ <=? _)%Z; [|done].
  assert (Qfloor p <= 100)%Z as Hfl.
  { change 100%Z with (Qfloor 100). by apply Qfloor_resp_le. }
  destruct progressCallback; exact Hfl.
Qed.

Lemma run_body_running (body : list encoder_step) (st : state) :
  forallb is_body body = true -> running st -> running (run body st).
Proof.
  revert st. induction body as [|s body IH]; intros st Hb Hst; [done|].
  simpl in Hb. apply andb_true_iff in Hb as [Hs Hb].
  simpl. apply IH; [exact Hb|]. by apply handle_body_running.
Qed.

Lemma run_body_bound (body : list encoder_step) (st : state) :
  forallb is_body body = true -> forallb within_100 body = true ->
  (lastProgress st <= 100)%Z -> (lastProgress (run body st) <= 100)%Z.
Proof.
  revert st. induction body as [|s body IH]; intros st Hb Hp Hst; [done|].
  simpl in Hb, Hp. apply andb_true_iff in Hb as [Hs Hb].
  apply andb_true_iff in Hp as [Hps Hp].
  simpl. apply IH; [exact Hb|exact Hp|]. by apply handle_body_bound.
Qed.

Lemma run_app (xs ys : list encoder_step) (st : state) :
  run (xs ++ ys) st = run ys (run xs st).
Proof. apply fold_left_app. Qed.

End HandlerFacts.

Section AudioRuns.
Variable random : nat -> Q.
Variable show : Q -> string.
Variable path_resolve : string -> string.
Variable path_join : string -> string -> string.
Variable audioOutputDir : string.

Let prepare := prepare random show path_resolve path_join audioOutputDir.
Let generateAudio := generateAudio random show path_resolve path_join audioOutputDir.

(** The state in which the handlers find the call after the steps [done]
    of the run of ffmpeg. *)
Definition state_after (cfg : config) (progressCallback : bool) (w : world)
    (p : prepared) (done : list encoder_step) : state :=
  run progressCallback (startTime w) (duration cfg) (length (audioStems p))
      (prep_outputPath p) (prep_fileName p) done
      (State 0 (disk w) Pending [Save (prep_command p)]).

Lemma generateAudio_run (cfg : config) (progressCallback : bool) (w : world)
    (p : prepared) :
  prepare cfg w = inr p ->
  generateAudio cfg progressCallback w
  = state_after cfg progressCallback w p (steps w).
Proof.
  intros Hp. unfold generateAudio, AudioService.generateAudio.
  unfold prepare in Hp. by rewrite Hp.
Qed.

Lemma started_running (cfg : config) (w : world) (p : prepared)
    (progressCallback : bool) :
  let st := state_after cfg progressCallback w p [OnStart] in
  running st /\ lastProgress st = 0%Z.
Proof.
  unfold state_after. simpl. destruct progressCallback; simpl.
  - split; [|done]. unfold running, percents, progress_events. simpl.
    split_and!; repeat constructor; done.
  - split; [|done]. unfold running, percents, progress_events. simpl.
    split_and!; constructor.
Qed.

(** C3, as the code has it.  Take a call that reaches ffmpeg, with a progress
    callback, and a run that starts, reports progress and then ends or
    fails.  The calls of the callback before the last one carry percentages
    that never decrease, and none of them carries the completion message.
    When the run ends, the last call is 100 with the completion message,
    and, if ffmpeg never reported more than 100 percent, the percentages of
    all calls never decrease.  When the run fails, the last call is 0 with
    the error's message. *)
Theorem progress_of_a_run (cfg : config) (w : world) (p : prepared)
    (body : list encoder_step) (final : encoder_step) :
  prepare cfg w = inr p ->
  steps w = OnStart :: body ++ [final] ->
  forallb is_body body = true ->
  let events := progress_events (generateAudio cfg true w) in
  exists pre,
    StronglySorted Z.le (map fst pre)
    /\ Forall (fun e => snd e <> Completed) pre
    /\ match final with
       | OnEnd _ =>
           events = pre ++ [(100%Z, Completed)]
           /\ (forallb within_100 body = true ->
               StronglySorted Z.le (map fst events))
       | OnError err => events = pre ++ [(0%Z, Failed (err_message err))]
       | _ => True
       end.
Proof.
  intros Hp Hsteps Hbody events. subst events.
  rewrite (generateAudio_run cfg true w p Hp), Hsteps.
  unfold state_after.
  change (OnStart :: body ++ [final]) with ([OnStart] ++ body ++ [final]).
  rewrite !run_app.
  fold (state_after cfg true w p [OnStart]).
  destruct (started_running cfg w p true) as [Hrun0 Hlast0].
  set (st0 := state_after cfg true w p [OnStart]) in *.
  pose proof (run_body_running true (startTime w) (duration cfg)
                (length (audioStems p)) (prep_outputPath p) (prep_fileName p)
                body st0 Hbody Hrun0) as (Hsorted & Hbound & Hmsg).
  set (st1 := run true _ _ _ _ _ body st0) in *.
  exists (progress_events st1). split; [exact Hsorted|]. split; [exact Hmsg|].
  destruct final as [|percent now|now|err|size]; try done.
  - simpl.
    match goal with
    | |- ?e = _ /\ _ =>
        assert (e = progress_events st1 ++ [(100%Z, Completed)]) as Hev
    end.
    { destruct (files _ !! _);
        [rewrite progress_events_resolve|]; apply progress_events_emit. }
    split; [exact Hev|]. intros H100. rewrite Hev, map_app. simpl.
    eapply sorted_snoc; [exact Hsorted|exact Hbound|].
    apply run_body_bound; [exact Hbody|exact H100|]. rewrite Hlast0. lia.
  - simpl. rewrite progress_events_reject, progress_events_unlink.
    apply progress_events_emit.
Qed.


End AudioRuns.

(** A run that reports 12.5, 13 and 99.9 percent and ends, and one that
    reports 50 percent and fails. *)
Definition good_body : list encoder_step :=
  [OnProgress (Some 12.5) 1700000002000; OutputWritten 4096;
   OnProgress (Some 13) 1700000003000; OnProgress None 1700000004000;
   OnProgress (Some 99.9) 1700000009000].

Definition exit_1 : encoder_error :=
  EncoderError "ffmpeg exited with code 1" "" "Conversion failed!".

Definition failing_steps : list encoder_step :=
  [OnStart; OutputWritten 4096; OnProgress (Some 50) 1700000005000;
   OnError exit_1].

Example good_run_percents :
  percents (Example.generateAudio true
              (Example.world_with (OnStart :: good_body ++ [OnEnd 1700000010000])))
  = [0; 12; 99; 100]%Z.
Proof. vm_compute. reflexivity. Qed.

(** Nothing caps the percentage: when ffmpeg reports 150 percent the
    callback receives 150, and then the final 100. *)
Example over_100_percents :
  percents (Example.generateAudio true
              (Example.world_with
                 [OnStart; OnProgress (Some 150) 1700000002000;
                  OutputWritten 4096; OnEnd 1700000010000]))
  = [0; 150; 100]%Z.
Proof. vm_compute. reflexivity. Qed.

Lemma progress_of_a_run_witness :
  let w := Example.world_with (OnStart :: good_body ++ [OnEnd 1700000010000]) in
  let events := progress_events (Example.generateAudio true w) in
  exists pre,
    StronglySorted Z.le (map fst pre)
    /\ Forall (fun e => snd e <> Completed) pre
    /\ events = pre ++ [(100%Z, Completed)]
    /\ (forallb within_100 good_body = true ->
        StronglySorted Z.le (map fst events)).
Proof.
  intros w events.
  destruct (example_prepare_succeeds (steps w)) as [p Hp].
  exact (progress_of_a_run steady Example.show Example.path_resolve
           Example.path_join "out" Example.request w p good_body
           (OnEnd 1700000010000) Hp eq_refl eq_refl).
Defined.

(** C3, as stated, fails for a job that fails: after 0 and 50 the error
    handler calls the callback with 0. *)
Lemma progress_of_a_run_counterexample :
  percents (Example.generateAudio true (Example.world_with failing_steps))
  = [0; 50; 0]%Z
  /\ ~ StronglySorted Z.le
         (percents (Example.generateAudio true
                      (Example.world_with failing_steps))).
Proof.
  assert (percents (Example.generateAudio true
                      (Example.world_with failing_steps)) = [0; 50; 0]%Z) as H
    by (vm_compute; reflexivity).
  split; [exact H|]. rewrite H. intros Hs.
  apply StronglySorted_inv in Hs as [Hs _].
  apply StronglySorted_inv in Hs as [_ Hall].
  apply Forall_inv in Hall. lia.
Qed.


(** ** Claims about the loop plan of [assembleVideo] *)

Module LoopFacts.
Import VideoService.

(** The ffmpeg commands started and the files written, among some effects. *)
Definition commands_of (effects : list effect) : list effect :=
  omap (fun e => match e with
                 | Save _ | WriteFile _ _ => Some e
                 | _ => None
                 end) effects.

Definition commands (st : state) : list effect := commands_of (rev (trace st)).

(** A step that starts no command and writes no file. *)
Definition quiet (f : state -> state) : Prop :=
  forall st, commands (f st) = commands st.

Lemma commands_emit (e : effect) (st : state) :
  commands (emit e st) = commands st ++ commands_of [e].
Proof. unfold commands, commands_of. simpl. by rewrite omap_app. Qed.

Lemma quiet_emit_progress (percent : Z) (msg : message) :
  quiet (emit (Progress percent msg)).
Proof. intros st. by rewrite commands_emit, app_nil_r. Qed.

Lemma quiet_write (path : string) (size : Z) : quiet (write path size).
Proof. intros st. done. Qed.

Lemma quiet_unlink (path : string) : quiet (unlink_if_exists path).
Proof.
  intros st. unfold unlink_if_exists. destruct (exists_on_disk path st); [|done].
  change (State (delete path (disk st)) (Unlink path :: trace st))
    with (emit (Unlink path) (State (delete path (disk st)) (trace st))).
  by rewrite commands_emit, app_nil_r.
Qed.

Lemma quiet_report (progressCallback : bool) (percent : Z) (msg : message) :
  quiet (report progressCallback percent msg).
Proof.
  unfold report. destruct progressCallback; [apply quiet_emit_progress|done].
Qed.

Lemma quiet_cleanup (video_info : Type) (show : Q -> string)
    (path_join : string -> string -> string) (videoOutputDir : string)
    (w : world video_info) :
  quiet (cleanup video_info show path_join videoOutputDir w).
Proof. intros st. unfold cleanup. by rewrite !quiet_unlink. Qed.

Lemma reverse_handler_quiet (outputPath : string) (cb : callback)
    (acc : state * Z) (e : encoder_event) :
  (forall p m, quiet (cb p m)) ->
  commands (fst (reverse_handler outputPath cb acc e)) = commands (fst acc).
Proof.
  intros Hcb. destruct acc as [st lastProgress].
  destruct e as [|[p|]|size]; simpl; try done.
  - apply Hcb.
  - destruct (_ && _); [apply Hcb|done].
Qed.

Lemma merge_handler_quiet (outputPath : string) (cb : callback)
    (acc : state * Z) (e : encoder_event) :
  (forall p m, quiet (cb p m)) ->
  commands (fst (merge_handler outputPath cb acc e)) = commands (fst acc).
Proof.
  intros Hcb. destruct acc as [st lastProgress].
  destruct e as [|percent|size]; simpl; try done.
  - apply Hcb.
  - destruct (Js.truthy percent); [|done].
    destruct (_ <=? _)%Z; [apply Hcb|done].
Qed.

Lemma fold_quiet (h : state * Z -> encoder_event -> state * Z)
    (evs : list encoder_event) (acc : state * Z) :
  (forall acc e, commands (fst (h acc e)) = commands (fst acc)) ->
  commands (fst (fold_left h evs acc)) = commands (fst acc).
Proof.
  intros Hh. revert acc. induction evs as [|e evs IH]; intros acc; [done|].
  simpl. by rewrite IH, Hh.
Qed.

(** A reversal pass starts one command, the reversal. *)
Lemma createReversedVideo_commands (inputPath outputPath : string)
    (cb : callback) (r : encoder_run) (st : state) :
  (forall p m, quiet (cb p m)) ->
  commands (fst (createReversedVideo inputPath outputPath cb r st))
  = commands st ++ [Save (ReverseCommand inputPath outputPath)].
Proof.
  intros Hcb. unfold createReversedVideo.
  pose proof (fold_quiet (reverse_handler outputPath cb) (events r)
                (emit (Save (ReverseCommand inputPath outputPath)) st, 0%Z)
                (fun acc e => reverse_handler_quiet outputPath cb acc e Hcb))
    as H1.
  destruct (fold_left _ _ _) as [st1 lp]. simpl in H1.
  rewrite commands_emit in H1.
  destruct (failure r); simpl; [done|]. by rewrite Hcb.
Qed.

(** A merge pass starts one command, the merge. *)
Lemma mergeVideoWithAudio_commands (c a o : string) (d : Q)
    (cb : callback) (r : encoder_run) (st : state) :
  (forall p m, quiet (cb p m)) ->
  commands (fst (mergeVideoWithAudio c a o d cb r st))
  = commands st ++ [Save (MergeCommand c a o d)].
Proof.
  intros Hcb. unfold mergeVideoWithAudio.
  pose proof (fold_quiet (merge_handler o cb) (events r)
                (emit (Save (MergeCommand c a o d)) st, 0%Z)
                (fun acc e => merge_handler_quiet o cb acc e Hcb))
    as H1.
  destruct (fold_left _ _ _) as [st1 lp]. simpl in H1.
  rewrite commands_emit in H1.
  destruct (failure r); simpl; [done|]. by rewrite Hcb.
Qed.

(** The loop builds [loopsNeeded] copies of its unit. *)
Lemma push_rounds_replicate (loopsNeeded : nat) (unit acc : list segment) :
  push_rounds loopsNeeded unit acc
  = acc ++ concat (replicate loopsNeeded unit).
Proof.
  revert acc. induction loopsNeeded as [|n IH]; intros acc; simpl.
  - by rewrite app_nil_r.
  - by rewrite IH, <- app_assoc.
Qed.

End LoopFacts.

Section AssemblyRuns.
Import VideoService LoopFacts.
Variable video_info : Type.
Variable show : Q -> string.
Variable path_resolve : string -> string.
Variable path_join : string -> string -> string.
Variable slashes : string -> string.
Variable videoOutputDir : string.

Let assembleVideo :=
  assembleVideo video_info show path_resolve path_join slashes videoOutputDir.
Let entry := entry video_info show path_resolve path_join slashes videoOutputDir.
Let reversedVideoPath := reversedVideoPath video_info show path_join videoOutputDir.
Let concatListPath := concatListPath video_info show path_join videoOutputDir.
Let output_name := output_name video_info show.

(** The write of the concat list and the merge command that follows it. *)
Definition write_and_merge (cfg : config) (w : world video_info) (target : Q)
    (plan : list segment) : list effect :=
  [WriteFile (concatListPath w) (map (entry cfg w) plan);
   Save (MergeCommand (concatListPath w) (audioPath cfg)
           (path_join videoOutputDir (output_name cfg w)) target)].

(** The request passes the validation and ffprobe reports a duration above
    zero. *)
Definition valid_call (cfg : config) (w : world video_info)
    (source target : Q) : Prop :=
  is_Some (files w !! videoPath cfg)
  /\ is_Some (files w !! audioPath cfg)
  /\ audioDuration cfg = Some target
  /\ 1 <= target
  /\ probed w = inr (Some source)
  /\ 0 < source.

Lemma merge_and_finish_commands (cfg : config) (progressCallback : bool)
    (w : world video_info) (target : Q) (plan : list segment) (st : state) :
  let r := merge_and_finish video_info show path_resolve path_join slashes
             videoOutputDir cfg progressCallback w target plan st in
  commands (fst r) = commands st ++ write_and_merge cfg w target plan
  /\ snd r <> Diverges.
Proof.
  unfold merge_and_finish.
  match goal with
  | |- context [mergeVideoWithAudio ?c ?a ?o ?d ?cb ?r ?s] =>
      pose proof (mergeVideoWithAudio_commands c a o d cb r s
                    (fun p m => quiet_report progressCallback _ m)) as Hm;
      destruct (mergeVideoWithAudio c a o d cb r s) as [st1 err]
  end.
  simpl in Hm. rewrite quiet_report, quiet_write, commands_emit in Hm.
  rewrite <- app_assoc in Hm. simpl in Hm.
  destruct err as [e|]; simpl; [by split|].
  destruct (disk _ !! _); simpl; [|by rewrite quiet_report].
  destruct (output_info w); simpl; by rewrite quiet_report.
Qed.

Lemma loops_needed_positive (target unit : Q) :
  0 < unit ->
  loops_needed target unit
  = Some (Z.to_nat (Qceiling (Double.nearest (target / unit)))).
Proof.
  intros Hu. unfold loops_needed.
  destruct (Qeq_bool unit 0) eqn:E; [|done].
  apply Qeq_bool_iff in E. lra.
Qed.

Lemma or_default_positive (source : Q) :
  0 < source -> Js.or_default (Some source) 0 = source.
Proof.
  intros Hs. unfold Js.or_default, Js.truthy.
  destruct (Qeq_bool source 0) eqn:E; [|done].
  apply Qeq_bool_iff in E. lra.
Qed.

(** The commands of a valid call, in order: for ping-pong the reversal,
    then, if the reversal succeeded, the concat list and the merge; for
    standard the concat list and the merge. *)
Lemma assembleVideo_commands (cfg : config) (progressCallback : bool)
    (w : world video_info) (source target : Q) :
  valid_call cfg w source target ->
  let effects := effects_of (assembleVideo cfg progressCallback w) in
  (loopType cfg = "ping-pong" ->
   commands_of effects
   = Save (ReverseCommand (videoPath cfg) (reversedVideoPath w))
     :: match failure (reverse_run w) with
        | None =>
            write_and_merge cfg w target
              (concat (replicate
                         (Z.to_nat (Qceiling (Double.nearest
                                                (target / (source * 2)))))
                         [Forward; Reverse]))
        | Some _ => []
        end)
  /\ (loopType cfg = "standard" ->
      commands_of effects
      = write_and_merge cfg w target
          (concat (replicate
                     (Z.to_nat (Qceiling (Double.nearest (target / source))))
                     [Forward]))).
Proof.
  intros ([v Hv] & [a Ha] & HT & HT1 & HS & HS0) effects. subst effects.
  unfold effects_of, assembleVideo, VideoService.assembleVideo.
  unfold exists_on_disk. simpl. rewrite Hv, Ha, HT. simpl.
  assert (Qeq_bool target 0 = false) as ->.
  { destruct (Qeq_bool target 0) eqn:E; [|done].
    apply Qeq_bool_iff in E. lra. }
  assert (Qle_bool 1 target = true) as -> by (by apply Qle_bool_iff).
  simpl. unfold try_block. rewrite HS, (or_default_positive source HS0).
  split.
  - intros ->. simpl.
    match goal with
    | |- context [createReversedVideo ?i ?o ?cb ?r ?s] =>
        pose proof (createReversedVideo_commands i o cb r s
                      (fun p m => quiet_report progressCallback _ m)) as Hr;
        destruct (createReversedVideo i o cb r s) as [st1 err] eqn:Hc
    end.
    assert (err = failure (reverse_run w)) as Herr.
    { unfold createReversedVideo in Hc.
      destruct (fold_left _ _ _) as [st2 lp].
      destruct (failure (reverse_run w)); by injection Hc as _ <-. }
    simpl in Hr. rewrite quiet_report, commands_emit, quiet_report in Hr.
    simpl in Hr. rewrite <- Herr.
    destruct err as [e|]; simpl.
    + fold (commands (cleanup video_info show path_join videoOutputDir w st1)).
      by rewrite quiet_cleanup.
    + rewrite loops_needed_positive by lra.
      rewrite push_rounds_replicate. simpl.
      match goal with
      | |- context [merge_and_finish _ _ _ _ _ _ ?c ?cb ?w' ?t ?pl ?s] =>
          destruct (merge_and_finish_commands c cb w' t pl s) as [Hm Hd];
          destruct (merge_and_finish video_info show path_resolve path_join
                      slashes videoOutputDir c cb w' t pl s) as [st2 out]
      end.
      simpl in Hm, Hd. rewrite Hr in Hm.
      destruct out; try done; simpl;
        fold (commands (cleanup video_info show path_join videoOutputDir w st2));
        by rewrite quiet_cleanup.
  - intros ->. simpl.
    rewrite loops_needed_positive by lra.
    rewrite push_rounds_replicate. simpl.
    match goal with
    | |- context [merge_and_finish _ _ _ _ _ _ ?c ?cb ?w' ?t ?pl ?s] =>
        destruct (merge_and_finish_commands c cb w' t pl s) as [Hm Hd];
        destruct (merge_and_finish video_info show path_resolve path_join
                    slashes videoOutputDir c cb w' t pl s) as [st2 out]
    end.
    simpl in Hm, Hd. rewrite commands_emit, quiet_report in Hm. simpl in Hm.
    destruct out; try done; simpl;
      fold (commands (cleanup video_info show path_join videoOutputDir w st2));
      by rewrite quiet_cleanup.
Qed.

End AssemblyRuns.

(** *** The shape of the plan *)

Import VideoService LoopFacts.










Section AssemblyClaims.
Variable video_info : Type.
Variable show : Q -> string.
Variable path_resolve : string -> string.
Variable path_join : string -> string -> string.
Variable slashes : string -> string.
Variable videoOutputDir : string.

Let assembleVideo :=
  assembleVideo video_info show path_resolve path_join slashes videoOutputDir.
Let entry := entry video_info show path_resolve path_join slashes videoOutputDir.
Let reversedVideoPath := reversedVideoPath video_info show path_join videoOutputDir.
Let valid_call := valid_call video_info.



End AssemblyClaims.

(** A ten-second clip looped under 95 seconds of audio. *)
Module VideoExample.

Definition show (q : Q) : string := "n".
Definition path_resolve (p : string) : string := p.
Definition path_join (dir name : string) : string := dir +:+ "/" +:+ name.
Definition slashes (p : string) : string := p.

Definition request (loopType : string) : config :=
  Config "clip.mp4" "mix.mp3" (Some 95) loopType None.

Definition reversal : encoder_run :=
  EncoderRun [OnStart; OnProgress (Some 40); OutputWritten 700;
              OnProgress (Some 90)] None.

Definition merge : encoder_run :=
  EncoderRun [OnStart; OutputWritten 5000; OnProgress (Some 50)] None.

Definition world : VideoService.world unit :=
  World {[ "clip.mp4" := 1000%Z; "mix.mp3" := 2000%Z ]}
        1700000000000 1700000000001 1700000003001
        (inr (Some 10)) reversal merge (inr tt).

Definition assembleVideo (loopType : string) : state * outcome unit :=
  VideoService.assembleVideo unit show path_resolve path_join slashes "out"
    (request loopType) true world.

End VideoExample.

Lemma example_valid_call (loopType : string) :
  valid_call unit (VideoExample.request loopType) VideoExample.world 10 95.
Proof.
  unfold valid_call. split_and!; try done; by eexists.
Qed.

(** The ping-pong call of the example: one reversal, and a list of ten lines
    that plays the clip and its reversal in turn. *)
Example ping_pong_example :
  let effects := effects_of (VideoExample.assembleVideo "ping-pong") in
  reversals effects = [("clip.mp4", "out/temp/reversed_n.mp4")]
  /\ written_lists effects
     = [["file 'clip.mp4'"; "file 'out/temp/reversed_n.mp4'";
         "file 'clip.mp4'"; "file 'out/temp/reversed_n.mp4'";
         "file 'clip.mp4'"; "file 'out/temp/reversed_n.mp4'";
         "file 'clip.mp4'"; "file 'out/temp/reversed_n.mp4'";
         "file 'clip.mp4'"; "file 'out/temp/reversed_n.mp4'"]].
Proof. split; vm_compute; reflexivity. Qed.

Example standard_example :
  written_lists (effects_of (VideoExample.assembleVideo "standard"))
  = [replicate 10 "file 'clip.mp4'"].
Proof. vm_compute. reflexivity. Qed.




(** Two short clips whose rounds depend on the rounding of the quotient.
    A clip of 0.6 seconds under a minute of audio: the double quotient
    [60 / 1.2] is 50, although twice the double nearest to 0.6 is a little
    less than 1.2 and goes into 60 a little more than 50 times.  A clip of
    2.51 seconds under 15.06 seconds of audio: the decimals divide to 3,
    the doubles nearest to them to a little more. *)
Module RoundingExample.

Definition request (audioDuration : Q) (loopType : string) : config :=
  Config "clip.mp4" "mix.mp3" (Some (Double.nearest audioDuration)) loopType
         None.

Definition world (videoDuration : Q) : VideoService.world unit :=
  World {[ "clip.mp4" := 1000%Z; "mix.mp3" := 2000%Z ]}
        1700000000000 1700000000001 1700000003001
        (inr (Some (Double.nearest videoDuration))) VideoExample.reversal
        VideoExample.merge (inr tt).

Definition assembleVideo (audioDuration videoDuration : Q)
    (loopType : string) : state * outcome unit :=
  VideoService.assembleVideo unit VideoExample.show VideoExample.path_resolve
    VideoExample.path_join VideoExample.slashes "out"
    (request audioDuration loopType) true (world videoDuration).

End RoundingExample.



(** ** Claims about [addJob] *)

Section InlineJobs.
Import JobQueue.
Variable Data : Type.
Variable Result : Type.

(** Without Redis the processor runs inside the call: what it returns comes
    back as 'completed', and when it throws a value that has a message, or
    one that can be asked for it, the call returns 'failed' with that
    message and raises nothing. *)
Lemma inline_failure_is_returned (svc : service Data) (queueName jobName : string)
    (data : Data) (f : Data -> Result + thrown) (error : thrown) :
  isRedisAvailable svc = false ->
  f data = inr error ->
  error <> Nullish ->
  exists message,
    message_of error = inr message
    /\ addJob svc queueName jobName data (Some f)
       = (svc, Returns (Failed message)).
Proof.
  intros Hmode Hthrow Hnn. unfold addJob, process_inline, call.
  rewrite Hmode, Hthrow.
  destruct error as [m| |]; [by exists (Some m)|by exists None|done].
Qed.

End InlineJobs.

(** A processor that throws [null]. *)
Definition throws_null : unit -> unit + JobQueue.thrown :=
  fun _ => inr JobQueue.Nullish.

(** C9 fails on the code: without Redis, a processor that throws [null]
    makes [addJob] raise, because its [catch] block reads [error.message]. *)
Theorem inline_null_throw_raises :
  JobQueue.addJob (JobQueue.Service false ∅) "audio" "generate" tt
                  (Some throws_null)
  = (JobQueue.Service false ∅,
     JobQueue.Raises
       (JobQueue.WithMessage
          "Cannot read properties of null (reading 'message')")).
Proof. reflexivity. Qed.

(** * Further properties of the services *)

(** ** [generateAudio]: requests that are turned away *)

Section AudioValidation.
Variable random : nat -> Q.
Variable show : Q -> string.
Variable path_resolve : string -> string.
Variable path_join : string -> string -> string.
Variable audioOutputDir : string.

Let prepare := AudioService.prepare random show path_resolve path_join audioOutputDir.
Let generateAudio :=
  AudioService.generateAudio random show path_resolve path_join audioOutputDir.

(** A request outside the bounds: no stem, more than ten, or a duration
    outside [[60, 36000]]. *)
Definition out_of_bounds (cfg : AudioService.config) : Prop :=
  stems cfg = []
  \/ (10 < length (stems cfg))%nat
  \/ duration cfg < 60
  \/ 36000 < duration cfg.

(** The state of a call that was rejected before anything happened. *)
Definition rejected_at_once (w : AudioService.world) (msg : string) : AudioService.state :=
  AudioService.State 0 (AudioService.disk w) (Rejected msg) [AudioService.Reject msg].

(** A request outside the bounds is rejected at once: no ffmpeg command is
    started, no callback is called, no file is touched.  The message is the
    one of the first check that fails: the stem count before the duration. *)
Theorem out_of_bounds_rejected (cfg : AudioService.config)
    (progressCallback : bool) (w : AudioService.world) :
  out_of_bounds cfg ->
  exists msg,
    generateAudio cfg progressCallback w = rejected_at_once w msg
    /\ (stems cfg = [] -> msg = "At least one audio stem is required")
    /\ ((10 < length (stems cfg))%nat -> msg = "Maximum 10 audio stems allowed")
    /\ ((1 <= length (stems cfg) <= 10)%nat ->
        msg = "Duration must be between 1 minute and 10 hours").
Proof.
  intros Hbad. unfold generateAudio, AudioService.generateAudio, AudioService.prepare.
  destruct (length (stems cfg) =? 0)%nat eqn:H0.
  { apply Nat.eqb_eq in H0. eexists. split; [reflexivity|].
    split_and!; [done|lia|lia]. }
  apply Nat.eqb_neq in H0.
  destruct (10 <? length (stems cfg))%nat eqn:H10.
  { apply Nat.ltb_lt in H10. eexists. split; [reflexivity|].
    split_and!; [|done|lia]. intros Hnil. by rewrite Hnil in H0. }
  apply Nat.ltb_ge in H10.
  assert (negb (Qle_bool 60 (duration cfg))
          || negb (Qle_bool (duration cfg) 36000) = true) as ->.
  { destruct Hbad as [Hnil|[Hlen|[Hlo|Hhi]]].
    - by rewrite Hnil in H0.
    - lia.
    - apply orb_true_iff. left. apply negb_true_iff.
      destruct (Qle_bool 60 (duration cfg)) eqn:E; [|done].
      apply Qle_bool_iff in E. lra.
    - apply orb_true_iff. right. apply negb_true_iff.
      destruct (Qle_bool (duration cfg) 36000) eqn:E; [|done].
      apply Qle_bool_iff in E. lra. }
  eexists. split; [reflexivity|].
  split_and!; [|lia|done]. intros Hnil. by rewrite Hnil in H0.
Qed.

End AudioValidation.

Lemma out_of_bounds_rejected_witness :
  exists msg,
    AudioService.generateAudio steady Example.show Example.path_resolve
      Example.path_join "out"
      (AudioService.Config (stems Example.request) 30 0.3 0.7 0.5 None)
      true (Example.world_with [])
    = rejected_at_once (Example.world_with []) msg
    /\ msg = "Duration must be between 1 minute and 10 hours".
Proof.
  destruct (out_of_bounds_rejected steady Example.show Example.path_resolve
              Example.path_join "out"
              (AudioService.Config (stems Example.request) 30 0.3 0.7 0.5 None)
              true (Example.world_with []))
    as (msg & Hmsg & _ & _ & Hdur).
  { right. right. left. reflexivity. }
  exists msg. split; [exact Hmsg|]. apply Hdur. simpl. lia.
Defined.

(** ** [generateAudio]: the command of an accepted request *)

Lemma map_stems_rows (stems : list stem_config) (dbStems : list db_stem)
    (audioStems : list audio_stem) :
  map_stems stems dbStems = Some audioStems -> map row audioStems = dbStems.
Proof.
  revert audioStems. induction dbStems as [|dbStem rest IH]; intros audioStems.
  - by intros [= <-].
  - simpl. unfold map_stem.
    destruct (List.find (fun s => same_id (config_id s) (db_id dbStem)) stems);
      destruct (map_stems stems rest) as [l|]; try discriminate.
    intros [= <-]. simpl. by rewrite (IH l).
Qed.

(** The effects of a run come after the effects before it. *)
Lemma run_extends_effects (progressCallback : bool) (startTime duration : Q)
    (stemCount : nat) (outPath outName : string)
    (steps : list encoder_step) (st : AudioService.state) :
  exists later,
    effects (run progressCallback startTime duration stemCount outPath outName
               steps st)
    = later ++ effects st.
Proof.
  revert st. induction steps as [|step steps IH]; intros st.
  - by exists [].
  - simpl. destruct (IH (handle progressCallback startTime duration stemCount
                           outPath outName step st)) as [later ->].
    assert (exists l, effects (handle progressCallback startTime duration
                                 stemCount outPath outName step st)
                      = l ++ effects st) as [l ->].
    { destruct step as [|percent now|now|err|size]; simpl.
      - destruct progressCallback; [by exists [AudioService.Progress 0 Started]|by exists []].
      - destruct (Js.truthy percent); [|by exists []].
        destruct (_ <=? _)%Z; [|by exists []].
        destruct progressCallback; simpl; [|by exists []].
        by eexists [_].
      - unfold resolve, AudioService.callback.
        destruct progressCallback; simpl;
          destruct (AudioService.files st !! outPath); simpl;
          destruct (settled st); simpl;
          first [by exists [] | by eexists [_] | by eexists [_; _]].
      - unfold reject, AudioService.unlink_if_exists, AudioService.callback.
        destruct progressCallback; simpl;
          destruct (AudioService.files st !! outPath); simpl;
          destruct (settled st); simpl;
          first [by exists [] | by eexists [_] | by eexists [_; _]
                | by eexists [_; _; _]].
      - by exists []. }
    exists (later ++ l). by rewrite app_assoc.
Qed.

Section AudioCommand.
Variable random : nat -> Q.
Variable show : Q -> string.
Variable path_resolve : string -> string.
Variable path_join : string -> string -> string.
Variable audioOutputDir : string.

Let prepare := AudioService.prepare random show path_resolve path_join audioOutputDir.
Let generateAudio :=
  AudioService.generateAudio random show path_resolve path_join audioOutputDir.

(** What an accepted request has been checked for, and the command built
    for it. *)
Lemma prepare_checks (cfg : AudioService.config) (w : AudioService.world)
    (p : prepared) :
  prepare cfg w = inr p ->
  length (audioStems p) = length (stems cfg)
  /\ map row (audioStems p)
     = getAudioStems (db w) (map config_id (stems cfg))
  /\ List.find (missing_file path_resolve (AudioService.disk w)) (audioStems p)
     = None
  /\ prep_outputPath p = path_join audioOutputDir (prep_fileName p)
  /\ inputs (prep_command p)
     = map (fun stem => (path_resolve (file_path (row stem)),
                         ["-stream_loop"; "-1"])) (audioStems p)
  /\ cmd_duration (prep_command p) = duration cfg
  /\ cmd_output (prep_command p) = prep_outputPath p.
Proof.
  unfold prepare, AudioService.prepare.
  destruct (length (stems cfg) =? 0)%nat eqn:H0; [discriminate|].
  destruct (10 <? length (stems cfg))%nat eqn:H10; [discriminate|].
  destruct (negb (Qle_bool 60 (duration cfg))
            || negb (Qle_bool (duration cfg) 36000)) eqn:HD; [discriminate|].
  destruct (negb (_ =? _)%nat) eqn:Hlen; [discriminate|].
  destruct (map_stems _ _) as [l|] eqn:Hmap; [|discriminate].
  destruct (List.find _ l) eqn:Hfind; [discriminate|].
  destruct (for_each l _ (drawn w)) as [vcs k] eqn:Hv.
  destruct (for_each l _ k) as [pcs k'] eqn:Hp.
  intros [= <-]. simpl.
  apply negb_false_iff, Nat.eqb_eq in Hlen. rewrite length_map in Hlen.
  pose proof (map_stems_rows _ _ _ Hmap) as Hrows.
  split_and!; try done.
  by rewrite <- Hlen, <- Hrows, length_map.
Qed.

(** The command of an accepted request.  Between one and ten stems reach
    the mixer, as many as were requested; each is one input of the command,
    looped without end; the filter graph has one chain per stem and, last,
    the mix of that many inputs; the output is cut at the requested
    duration; and saving this command is the first thing the call does. *)
Theorem accepted_request_command (cfg : AudioService.config)
    (progressCallback : bool) (w : AudioService.world) (p : prepared) :
  prepare cfg w = inr p ->
  let n := length (stems cfg) in
  let cmd := prep_command p in
  (1 <= n <= 10)%nat
  /\ length (audioStems p) = n
  /\ inputs cmd
     = map (fun stem => (path_resolve (file_path (row stem)),
                         ["-stream_loop"; "-1"])) (audioStems p)
  /\ length (complexFilter cmd) = Datatypes.S n
  /\ last (complexFilter cmd) = Some (amix_filter show n)
  /\ cmd_duration cmd = duration cfg
  /\ 60 <= cmd_duration cmd <= 36000
  /\ head (rev (effects (generateAudio cfg progressCallback w)))
     = Some (AudioService.Save cmd).
Proof.
  intros Hp n cmd.
  pose proof (prepare_inr random show path_resolve path_join audioOutputDir
                cfg w p Hp) as (Hn & HD & _ & _ & _ & Hf).
  pose proof (prepare_checks cfg w p Hp) as (Hlen & _ & _ & _ & Hin & Hdur & _).
  subst n cmd.
  split; [exact Hn|]. split; [exact Hlen|]. split; [exact Hin|].
  split; [rewrite Hf, length_app, length_imap, Hlen; simpl; lia|].
  split; [by rewrite Hf, last_snoc, Hlen|].
  split; [exact Hdur|]. split; [by rewrite Hdur|].
  - unfold generateAudio, AudioService.generateAudio.
    unfold prepare in Hp. rewrite Hp.
    destruct (run_extends_effects progressCallback (AudioService.startTime w)
                (duration cfg) (length (audioStems p)) (prep_outputPath p)
                (prep_fileName p) (steps w)
                (AudioService.emit (AudioService.Save (prep_command p))
                   (AudioService.State 0 (AudioService.disk w) Pending [])))
      as [later ->].
    simpl. by rewrite rev_app_distr.
Qed.

End AudioCommand.

Lemma accepted_request_command_witness :
  match Example.prepare (Example.world_with failing_steps) with
  | inr p =>
      length (audioStems p) = 2%nat
      /\ length (complexFilter (prep_command p)) = 3%nat
      /\ head (rev (effects (Example.generateAudio true
                               (Example.world_with failing_steps))))
         = Some (AudioService.Save (prep_command p))
  | inl _ => False
  end.
Proof.
  destruct (Example.prepare (Example.world_with failing_steps)) as [e|p] eqn:E.
  - vm_compute in E. discriminate.
  - pose proof (accepted_request_command steady Example.show Example.path_resolve
                  Example.path_join "out" Example.request true
                  (Example.world_with failing_steps) p E)
      as (_ & Hlen & _ & Hf & _ & _ & _ & Hhead).
    split; [exact Hlen|]. split; [exact Hf|exact Hhead].
Defined.

(** ** [generateAudio]: stems that are unknown or requested twice *)

Lemma filter_ids_NoDup (f : db_stem -> bool) (db : list db_stem) :
  NoDup (map db_id db) -> NoDup (map db_id (List.filter f db)).
Proof.
  induction db as [|r db IH]; [done|].
  simpl. intros [Hr Hdb]%NoDup_cons. destruct (f r); [|by apply IH].
  simpl. apply NoDup_cons. split; [|by apply IH].
  intros Hin. apply Hr. apply list_elem_of_fmap in Hin as (r' & -> & Hr').
  apply list_elem_of_fmap. exists r'. split; [done|].
  apply list_elem_of_In in Hr'. apply filter_In in Hr' as [Hr' _].
  by apply list_elem_of_In.
Qed.

Lemma same_id_true (i : option Z) (z : Z) : same_id i z = true -> i = Some z.
Proof.
  destruct i as [y|]; simpl; [|done]. intros ->%Z.eqb_eq. done.
Qed.

(** When one of the requested ids is requested again, or is the id of no
    row, the rows found are fewer than the ids. *)
Lemma getAudioStems_short (db : list db_stem) (l1 l2 : list (option Z))
    (x : option Z) :
  NoDup (map db_id db) ->
  x ∈ l1 ++ l2 \/ (forall r, r ∈ db -> same_id x (db_id r) = false) ->
  (length (getAudioStems db (l1 ++ x :: l2)) < length (l1 ++ x :: l2))%nat.
Proof.
  intros Hnodup Hx. unfold getAudioStems.
  set (matched := List.filter _ db).
  assert (Some <$> (db_id <$> matched) ⊆+ l1 ++ l2) as Hsub.
  { apply NoDup_submseteq.
    - apply NoDup_fmap; [by intros a b [= ->]|].
      by apply filter_ids_NoDup.
    - intros i (z & -> & (r & -> & Hr)%list_elem_of_fmap)%list_elem_of_fmap.
      apply list_elem_of_In, filter_In in Hr as [Hdb Hmatch].
      apply existsb_exists in Hmatch as (i & Hi & Hsame).
      pose proof (same_id_true i (db_id r) Hsame) as ->.
      apply list_elem_of_In in Hi.
      apply elem_of_app in Hi as [Hi|Hi]; [apply elem_of_app; by left|].
      apply elem_of_cons in Hi as [Hi|Hi]; [|apply elem_of_app; by right].
      subst x. destruct Hx as [Hx|Hx]; [exact Hx|].
      apply list_elem_of_In in Hdb. rewrite (Hx r Hdb) in Hsame. discriminate. }
  apply submseteq_length in Hsub. rewrite !length_fmap in Hsub.
  rewrite !length_app in *. simpl. lia.
Qed.

Section UnknownStems.
Variable random : nat -> Q.
Variable show : Q -> string.
Variable path_resolve : string -> string.
Variable path_join : string -> string -> string.
Variable audioOutputDir : string.

Let generateAudio :=
  AudioService.generateAudio random show path_resolve path_join audioOutputDir.

(** Take a request within the bounds and a stems table without repeated
    ids.  If one of the requested ids is requested a second time, or is the
    id of no row of the table (a missing id included), the call is rejected
    with "Some audio stems not found in database" before ffmpeg is started
    or any file touched. *)
Theorem unknown_or_repeated_stem_rejected (cfg : AudioService.config)
    (progressCallback : bool) (w : AudioService.world)
    (l1 l2 : list (option Z)) (x : option Z) :
  (1 <= length (stems cfg) <= 10)%nat ->
  60 <= duration cfg <= 36000 ->
  NoDup (map db_id (db w)) ->
  map config_id (stems cfg) = l1 ++ x :: l2 ->
  x ∈ l1 ++ l2 \/ (forall r, r ∈ db w -> same_id x (db_id r) = false) ->
  generateAudio cfg progressCallback w
  = rejected_at_once w "Some audio stems not found in database".
Proof.
  intros [Hn1 Hn10] [HD1 HD2] Hnodup Hids Hx.
  unfold generateAudio, AudioService.generateAudio, AudioService.prepare.
  assert ((length (stems cfg) =? 0)%nat = false) as -> by (apply Nat.eqb_neq; lia).
  assert ((10 <? length (stems cfg))%nat = false) as -> by (apply Nat.ltb_ge; lia).
  apply Qle_bool_iff in HD1, HD2. rewrite HD1, HD2. simpl.
  pose proof (getAudioStems_short (db w) l1 l2 x Hnodup Hx) as Hshort.
  rewrite Hids.
  assert ((length (getAudioStems (db w) (l1 ++ x :: l2))
           =? length (l1 ++ x :: l2))%nat = false) as ->
    by (apply Nat.eqb_neq; lia).
  reflexivity.
Qed.

End UnknownStems.

(** Rain requested twice. *)
Definition rain_twice : AudioService.config :=
  AudioService.Config
    [StemConfig None (Some 1%Z) None; StemConfig None (Some 1%Z) (Some 0.5)]
    60 0.3 0.7 0.5 None.

Lemma unknown_or_repeated_stem_rejected_witness :
  AudioService.generateAudio steady Example.show Example.path_resolve
    Example.path_join "out" rain_twice true (Example.world_with [])
  = rejected_at_once (Example.world_with [])
      "Some audio stems not found in database".
Proof.
  apply (unknown_or_repeated_stem_rejected steady Example.show
           Example.path_resolve Example.path_join "out" rain_twice true
           (Example.world_with []) [] [Some 1%Z] (Some 1%Z)).
  - simpl. lia.
  - split; discriminate.
  - simpl. apply NoDup_cons. split; [by intros [=]%list_elem_of_singleton|].
    apply NoDup_singleton.
  - reflexivity.
  - left. by apply list_elem_of_singleton.
Defined.

(** ** [generateAudio]: how often progress is reported *)

(** Each element is at least 5 above the one before it. *)
Definition five_apart (l : list Z) : Prop :=
  forall (i : nat) (a b : Z),
    l !! i = Some a -> l !! Datatypes.S i = Some b -> (a + 5 <= b)%Z.

Lemma five_apart_snoc (l : list Z) (a b : Z) :
  five_apart l -> last l = Some a -> (a + 5 <= b)%Z -> five_apart (l ++ [b]).
Proof.
  intros Hl Ha Hab i x y Hx Hy.
  assert (Datatypes.S i < length (l ++ [b]))%nat as Hi
    by (by apply lookup_lt_Some in Hy).
  rewrite length_app in Hi. simpl in Hi.
  rewrite lookup_app_l in Hx by lia.
  destruct (decide (Datatypes.S i < length l)%nat) as [Hlt|Hge].
  - rewrite lookup_app_l in Hy by lia. by apply (Hl i).
  - rewrite lookup_app_r in Hy by lia.
    replace (Datatypes.S i - length l)%nat with 0%nat in Hy by lia.
    injection Hy as <-. rewrite last_lookup in Ha.
    replace (Init.Nat.pred (length l)) with i in Ha by lia.
    rewrite Hx in Ha. injection Ha as ->. exact Hab.
Qed.

(** While the command runs with a progress callback: the last percentage
    sent is [lastProgress], the percentages are five apart, and there are no
    more of them than [lastProgress] allows. *)
Definition paced (st : AudioService.state) : Prop :=
  last (percents st) = Some (lastProgress st)
  /\ five_apart (percents st)
  /\ (5 * Z.of_nat (length (percents st)) <= lastProgress st + 5)%Z.

Lemma handle_body_paced (startTime duration : Q) (stemCount : nat)
    (outPath outName : string) (s : encoder_step) (st : AudioService.state) :
  is_body s = true -> paced st ->
  paced (handle true startTime duration stemCount outPath outName s st).
Proof.
  intros Hs (Hlast & Hgap & Hcount).
  destruct s as [|percent now| | |size]; try discriminate; simpl; [|done].
  destruct (Js.truthy percent); [|done].
  destruct (_ <=? _)%Z eqn:Hstep; [|done].
  apply Z.leb_le in Hstep.
  unfold paced, percents. rewrite progress_events_emit.
  change (progress_events (AudioService.State ?a ?b ?c (effects st)))
    with (progress_events st).
  rewrite map_app. simpl. split_and!.
  - by rewrite last_snoc.
  - eapply five_apart_snoc; [exact Hgap|exact Hlast|lia].
  - rewrite length_app. simpl. unfold percents in Hcount. lia.
Qed.

Lemma run_body_paced (startTime duration : Q) (stemCount : nat)
    (outPath outName : string) (body : list encoder_step)
    (st : AudioService.state) :
  forallb is_body body = true -> paced st ->
  paced (run true startTime duration stemCount outPath outName body st).
Proof.
  revert st. induction body as [|s body IH]; intros st Hb Hst; [done|].
  simpl in Hb. apply andb_true_iff in Hb as [Hs Hb].
  simpl. apply IH; [exact Hb|]. by apply handle_body_paced.
Qed.

Section AudioPace.
Variable random : nat -> Q.
Variable show : Q -> string.
Variable path_resolve : string -> string.
Variable path_join : string -> string -> string.
Variable audioOutputDir : string.

Let prepare := AudioService.prepare random show path_resolve path_join audioOutputDir.
Let generateAudio :=
  AudioService.generateAudio random show path_resolve path_join audioOutputDir.

(** Progress is reported at most once per five percentage points.  While
    the command of an accepted request runs (after 'start', whatever ffmpeg
    reports and however often), the percentages sent to the callback start
    with 0 and each is at least 5 above the one before; so if ffmpeg never
    reports more than 100 percent there are at most 21 of them. *)
Theorem progress_is_throttled (cfg : AudioService.config)
    (w : AudioService.world) (p : prepared) (body : list encoder_step) :
  prepare cfg w = inr p ->
  steps w = AudioService.OnStart :: body ->
  forallb is_body body = true ->
  let sent := percents (generateAudio cfg true w) in
  head sent = Some 0%Z
  /\ five_apart sent
  /\ (forallb within_100 body = true -> (length sent <= 21)%nat).
Proof.
  intros Hp Hsteps Hbody sent. subst sent.
  unfold generateAudio.
  rewrite (generateAudio_run random show path_resolve path_join audioOutputDir
             cfg true w p Hp), Hsteps.
  unfold state_after.
  change (AudioService.OnStart :: body) with ([AudioService.OnStart] ++ body). rewrite run_app.
  set (st0 := AudioService.run true _ _ _ _ _ [AudioService.OnStart] _).
  assert (paced st0) as Hst0.
  { unfold paced, percents, progress_events. simpl. split_and!; [done| |done].
    intros i a b Ha Hb. by destruct i. }
  assert (exists rest, percents st0 = 0%Z :: rest) as [rest0 Hhead0]
    by (by exists []).
  pose proof (run_body_paced (AudioService.startTime w) (duration cfg)
                (length (audioStems p)) (prep_outputPath p) (prep_fileName p)
                body st0 Hbody Hst0) as (Hlast & Hgap & Hcount).
  split_and!.
  - destruct (run_extends_effects true (AudioService.startTime w) (duration cfg)
                (length (audioStems p)) (prep_outputPath p) (prep_fileName p)
                body st0) as [later Hlater].
    unfold percents, progress_events. rewrite Hlater, rev_app_distr, omap_app.
    rewrite map_app. unfold percents, progress_events in Hhead0.
    rewrite Hhead0. done.
  - exact Hgap.
  - intros H100.
    pose proof (run_body_bound true (AudioService.startTime w) (duration cfg)
                  (length (audioStems p)) (prep_outputPath p) (prep_fileName p)
                  body st0 Hbody H100) as Hle.
    assert (lastProgress st0 = 0%Z) as H0 by done.
    rewrite H0 in Hle. specialize (Hle ltac:(lia)). lia.
Qed.

End AudioPace.

Lemma progress_is_throttled_witness :
  let sent :=
    percents (Example.generateAudio true
                (Example.world_with (AudioService.OnStart :: good_body))) in
  head sent = Some 0%Z /\ five_apart sent.
Proof.
  intros sent.
  destruct (example_prepare_succeeds (AudioService.OnStart :: good_body)) as [p Hp].
  destruct (progress_is_throttled steady Example.show Example.path_resolve
              Example.path_join "out" Example.request
              (Example.world_with (AudioService.OnStart :: good_body)) p good_body
              Hp eq_refl eq_refl) as (Hhead & Hgap & _).
  split; [exact Hhead|exact Hgap].
Defined.

(** ** [generateAudio]: the callback only listens *)

(** The effects other than calls of the progress callback. *)
Definition other_effects (l : list AudioService.effect)
  : list AudioService.effect :=
  omap (fun e => match e with
                 | AudioService.Progress _ _ => None
                 | _ => Some e
                 end) l.

(** The second state is the first without the calls of the callback. *)
Definition same_but_progress (a b : AudioService.state) : Prop :=
  lastProgress a = lastProgress b
  /\ AudioService.files a = AudioService.files b
  /\ settled a = settled b
  /\ other_effects (effects a) = effects b.

Lemma handle_same_but_progress (startTime duration : Q) (stemCount : nat)
    (outPath outName : string) (s : encoder_step) (a b : AudioService.state) :
  same_but_progress a b ->
  same_but_progress
    (handle true startTime duration stemCount outPath outName s a)
    (handle false startTime duration stemCount outPath outName s b).
Proof.
  intros (Hl & Hf & Hs & He). unfold same_but_progress.
  destruct a as [la fa sa ea], b as [lb fb sb eb]. simpl in *. subst.
  destruct s as [|percent now|now|err|size]; simpl.
  - done.
  - destruct (Js.truthy percent); [|done].
    destruct (_ <=? _)%Z; done.
  - unfold resolve. simpl.
    destruct (fb !! outPath); simpl; [|done].
    destruct sb; done.
  - unfold reject, AudioService.unlink_if_exists. simpl.
    destruct (fb !! outPath); simpl; destruct sb; done.
  - done.
Qed.

Lemma other_effects_no_progress (l : list AudioService.effect) :
  omap (fun e => match e with
                 | AudioService.Progress pct msg => Some (pct, msg)
                 | _ => None
                 end) (rev (other_effects l)) = [].
Proof.
  induction l as [|e l IH]; [done|].
  destruct e; simpl; rewrite ?omap_app, ?IH; done.
Qed.

Section AudioCallback.
Variable random : nat -> Q.
Variable show : Q -> string.
Variable path_resolve : string -> string.
Variable path_join : string -> string -> string.
Variable audioOutputDir : string.

Let generateAudio :=
  AudioService.generateAudio random show path_resolve path_join audioOutputDir.

(** The progress callback only listens.  For every request and whatever
    happens while ffmpeg runs, a call without a callback calls none, and it
    settles the same way, leaves the same files and performs the same
    commands, deletions and settlement, in the same order, as the call with a
    callback. *)
Theorem callback_only_listens (cfg : AudioService.config)
    (w : AudioService.world) :
  let loud := generateAudio cfg true w in
  let quiet := generateAudio cfg false w in
  progress_events quiet = []
  /\ settled loud = settled quiet
  /\ AudioService.files loud = AudioService.files quiet
  /\ other_effects (effects loud) = effects quiet.
Proof.
  intros loud quiet.
  assert (same_but_progress loud quiet) as (_ & Hf & Hs & He).
  { subst loud quiet. unfold generateAudio, AudioService.generateAudio.
    destruct (AudioService.prepare _ _ _ _ _ cfg w) as [msg|p]; [done|].
    set (st0 := AudioService.emit _ _).
    assert (same_but_progress st0 st0) as Hsame by done.
    revert Hsame. generalize st0 at 1 3 as a. generalize st0 as b.
    generalize (steps w) as l.
    induction l as [|s l IH]; intros b a Hsame; [exact Hsame|].
    simpl. apply IH. by apply handle_same_but_progress. }
  split_and!; try done.
  unfold progress_events. rewrite <- He. apply other_effects_no_progress.
Qed.

End AudioCallback.

(** ** [assembleVideo]: requests that are turned away *)

Section AssemblyEdges.
Variable video_info : Type.
Variable show : Q -> string.
Variable path_resolve : string -> string.
Variable path_join : string -> string -> string.
Variable slashes : string -> string.
Variable videoOutputDir : string.

Let assembleVideo :=
  VideoService.assembleVideo video_info show path_resolve path_join slashes
    videoOutputDir.
Let try_block :=
  VideoService.try_block video_info show path_resolve path_join slashes
    videoOutputDir.
Let cleanup := VideoService.cleanup video_info show path_join videoOutputDir.
Let reversedVideoPath :=
  VideoService.reversedVideoPath video_info show path_join videoOutputDir.
Let concatListPath :=
  VideoService.concatListPath video_info show path_join videoOutputDir.

(** The request names two files that exist and an audio duration of at
    least one second. *)
Definition passes_validation (cfg : VideoService.config)
    (w : VideoService.world video_info) (target : Q) : Prop :=
  is_Some (VideoService.files w !! videoPath cfg)
  /\ is_Some (VideoService.files w !! audioPath cfg)
  /\ audioDuration cfg = Some target
  /\ 1 <= target.

(** A request that passes the validation runs the [try] block and then,
    unless the block never ends, the [finally] block. *)
Lemma assembleVideo_valid (cfg : VideoService.config) (progressCallback : bool)
    (w : VideoService.world video_info) (target : Q) :
  passes_validation cfg w target ->
  assembleVideo cfg progressCallback w
  = let (st, out) :=
      try_block cfg progressCallback w target
        (VideoService.State (VideoService.files w) []) in
    match out with
    | Diverges => (st, Diverges)
    | _ => (cleanup w st, out)
    end.
Proof.
  intros ([v Hv] & [a Ha] & HT & HT1).
  unfold assembleVideo, VideoService.assembleVideo, exists_on_disk. simpl.
  rewrite Hv, Ha, HT. simpl.
  assert (Qeq_bool target 0 = false) as ->.
  { destruct (Qeq_bool target 0) eqn:E; [|done].
    apply Qeq_bool_iff in E. lra. }
  assert (Qle_bool 1 target = true) as -> by (by apply Qle_bool_iff).
  reflexivity.
Qed.

(** A request that names a missing video or audio file, or an audio
    duration that is missing, zero or below one second, is turned away with
    the matching message before anything is probed, encoded, written or
    deleted.  The video is checked first, then the audio, then the
    duration. *)
Theorem invalid_assembly_rejected (cfg : VideoService.config)
    (progressCallback : bool) (w : VideoService.world video_info) :
  let r := assembleVideo cfg progressCallback w in
  let untouched := VideoService.State (VideoService.files w) [] in
  (VideoService.files w !! videoPath cfg = None ->
   r = (untouched, Thrown ("Video file not found: " +:+ videoPath cfg)))
  /\ (is_Some (VideoService.files w !! videoPath cfg) ->
      VideoService.files w !! audioPath cfg = None ->
      r = (untouched, Thrown ("Audio file not found: " +:+ audioPath cfg)))
  /\ (is_Some (VideoService.files w !! videoPath cfg) ->
      is_Some (VideoService.files w !! audioPath cfg) ->
      audioDuration cfg = None
      \/ (exists target, audioDuration cfg = Some target /\ target < 1) ->
      r = (untouched, Thrown "Audio duration must be at least 1 second")).
Proof.
  intros r untouched. subst r untouched.
  unfold assembleVideo, VideoService.assembleVideo, exists_on_disk. simpl.
  split_and!.
  - by intros ->.
  - intros [v ->] ->. done.
  - intros [v ->] [a ->] [->|(target & -> & Hlt)]; [done|]. simpl.
    assert (Qle_bool 1 target = false) as ->.
    { destruct (Qle_bool 1 target) eqn:E; [|done].
      apply Qle_bool_iff in E. lra. }
    by rewrite orb_true_r.
Qed.

End AssemblyEdges.

(** ** [assembleVideo]: the files it touches *)

Module DiskFacts.



Lemma unlink_other (path q : string) (st : VideoService.state) :
  q <> path ->
  VideoService.disk (VideoService.unlink_if_exists path st) !! q
  = VideoService.disk st !! q.
Proof.
  intros Hq. unfold VideoService.unlink_if_exists.
  destruct (exists_on_disk path st); [|done]. simpl.
  by rewrite lookup_delete_ne.
Qed.

Lemma unlink_gone (path : string) (st : VideoService.state) :
  VideoService.disk (VideoService.unlink_if_exists path st) !! path = None.
Proof.
  unfold VideoService.unlink_if_exists, exists_on_disk.
  destruct (VideoService.disk st !! path) eqn:E; simpl;
    [apply lookup_delete_eq|exact E].
Qed.

Lemma unlink_stays_gone (path q : string) (st : VideoService.state) :
  VideoService.disk st !! q = None ->
  VideoService.disk (VideoService.unlink_if_exists path st) !! q = None.
Proof.
  intros Hq. destruct (decide (q = path)) as [->|Hne];
    [apply unlink_gone|by rewrite unlink_other].
Qed.





Lemma createReversedVideo_error (inputPath outputPath : string)
    (cb : callback) (r : encoder_run) (st : VideoService.state) :
  snd (createReversedVideo inputPath outputPath cb r st) = failure r.
Proof.
  unfold createReversedVideo. destruct (fold_left _ _ _) as [st1 lp].
  by destruct (failure r).
Qed.


Lemma mergeVideoWithAudio_error (c a o : string) (d : Q)
    (cb : callback) (r : encoder_run) (st : VideoService.state) :
  snd (mergeVideoWithAudio c a o d cb r st) = failure r.
Proof.
  unfold mergeVideoWithAudio. destruct (fold_left _ _ _) as [st1 lp].
  by destruct (failure r).
Qed.

End DiskFacts.

Section AssemblyDisk.
Import DiskFacts.
Variable video_info : Type.
Variable show : Q -> string.
Variable path_resolve : string -> string.
Variable path_join : string -> string -> string.
Variable slashes : string -> string.
Variable videoOutputDir : string.

Let assembleVideo :=
  VideoService.assembleVideo video_info show path_resolve path_join slashes
    videoOutputDir.
Let try_block :=
  VideoService.try_block video_info show path_resolve path_join slashes
    videoOutputDir.
Let merge_and_finish :=
  VideoService.merge_and_finish video_info show path_resolve path_join slashes
    videoOutputDir.
Let cleanup := VideoService.cleanup video_info show path_join videoOutputDir.
Let reversedVideoPath :=
  VideoService.reversedVideoPath video_info show path_join videoOutputDir.
Let concatListPath :=
  VideoService.concatListPath video_info show path_join videoOutputDir.
Let output_name := VideoService.output_name video_info show.

(** Where the assembled video goes. *)
Definition output_path (cfg : VideoService.config)
    (w : VideoService.world video_info) : string :=
  path_join videoOutputDir (output_name cfg w).





(** The [finally] block does its work.  After a call that passed the
    validation and came to an end, by returning or by throwing, neither the
    reversed clip nor the concat list is left in the temp directory. *)
Theorem temp_files_are_removed (cfg : VideoService.config)
    (progressCallback : bool) (w : VideoService.world video_info)
    (target : Q) :
  passes_validation video_info cfg w target ->
  let r := assembleVideo cfg progressCallback w in
  snd r <> Diverges ->
  VideoService.disk (fst r) !! reversedVideoPath w = None
  /\ VideoService.disk (fst r) !! concatListPath w = None.
Proof.
  intros Hvalid r. subst r.
  unfold assembleVideo.
  rewrite (assembleVideo_valid video_info show path_resolve path_join slashes
             videoOutputDir cfg progressCallback w target Hvalid).
  destruct (VideoService.try_block _ _ _ _ _ _ _ _ _ _ _) as [st out].
  destruct out; simpl; try done; intros _;
    unfold VideoService.cleanup;
    (split; [apply unlink_stays_gone, unlink_gone|apply unlink_gone]).
Qed.

End AssemblyDisk.

Lemma example_passes_validation (loopType : string) :
  passes_validation unit (VideoExample.request loopType) VideoExample.world 95.
Proof. unfold passes_validation. split_and!; try done; by eexists. Qed.


Lemma temp_files_are_removed_witness :
  VideoService.disk (fst (VideoExample.assembleVideo "ping-pong"))
    !! "out/temp/reversed_n.mp4" = None
  /\ VideoService.disk (fst (VideoExample.assembleVideo "ping-pong"))
       !! "out/temp/concat_n.txt" = None.
Proof.
  apply (temp_files_are_removed unit VideoExample.show
           VideoExample.path_resolve VideoExample.path_join
           VideoExample.slashes "out" (VideoExample.request "ping-pong") true
           VideoExample.world 95 (example_passes_validation "ping-pong")).
  vm_compute. discriminate.
Defined.

(** ** [assembleVideo]: how it ends *)

Section AssemblyOutcome.
Import DiskFacts.
Variable video_info : Type.
Variable show : Q -> string.
Variable path_resolve : string -> string.
Variable path_join : string -> string -> string.
Variable slashes : string -> string.
Variable videoOutputDir : string.

Let assembleVideo :=
  VideoService.assembleVideo video_info show path_resolve path_join slashes
    videoOutputDir.
Let try_block :=
  VideoService.try_block video_info show path_resolve path_join slashes
    videoOutputDir.
Let merge_and_finish :=
  VideoService.merge_and_finish video_info show path_resolve path_join slashes
    videoOutputDir.
Let reversedVideoPath :=
  VideoService.reversedVideoPath video_info show path_join videoOutputDir.
Let concatListPath :=
  VideoService.concatListPath video_info show path_join videoOutputDir.
Let output_name := VideoService.output_name video_info show.
Let output_path := output_path video_info show path_join videoOutputDir.

Lemma merge_and_finish_outcome (cfg : VideoService.config)
    (progressCallback : bool) (w : VideoService.world video_info) (target : Q)
    (plan : list segment) (st : VideoService.state) :
  let r := merge_and_finish cfg progressCallback w target plan st in
  (forall e, failure (merge_run w) = Some e -> snd r = Thrown e)
  /\ (forall res, snd r = Returned res ->
        failure (merge_run w) = None
        /\ VideoService.disk (fst r) !! output_path cfg w
           = Some (VideoService.fileSize _ res)
        /\ VideoService.outputPath _ res = output_path cfg w
        /\ VideoService.res_duration _ res = target
        /\ res_loopType _ res = loopType cfg
        /\ VideoService.fileName _ res = output_name cfg w
        /\ VideoService.generationTime _ res
           = (endTime w - VideoService.startTime w) / 1000).
Proof.
  unfold merge_and_finish, VideoService.merge_and_finish.
  match goal with
  | |- context [mergeVideoWithAudio ?c ?a ?o ?d ?cb ?r ?s] =>
      pose proof (mergeVideoWithAudio_error c a o d cb r s) as Herr;
      destruct (mergeVideoWithAudio c a o d cb r s) as [st1 err]
  end.
  simpl in Herr. subst err.
  destruct (failure (merge_run w)) as [e|]; simpl.
  - split; [by intros e' [= ->]|]. intros res [=].
  - split; [by intros e' [=]|].
    destruct (VideoService.disk _ !! path_join _ _) as [size|] eqn:Hsize;
      simpl; [|by intros res [=]].
    destruct (output_info w); simpl; [by intros res [=]|].
    intros res [= <-]. simpl. split_and!; done.
Qed.

(** What a returned result is worth.  When [assembleVideo] returns, the
    loop type was 'ping-pong' or 'standard', every ffmpeg pass that ran
    ended without error, and the result names the requested loop type, the
    audio duration as the duration, and the output file; provided the output
    path is not one of the two temp paths, that file is on disk with the
    size the result reports. *)
Theorem returned_result_is_sound (cfg : VideoService.config)
    (progressCallback : bool) (w : VideoService.world video_info)
    (res : result video_info) :
  snd (assembleVideo cfg progressCallback w) = Returned res ->
  (loopType cfg = "ping-pong" /\ failure (reverse_run w) = None
   \/ loopType cfg = "standard")
  /\ failure (merge_run w) = None
  /\ audioDuration cfg = Some (VideoService.res_duration _ res)
  /\ 1 <= VideoService.res_duration _ res
  /\ res_loopType _ res = loopType cfg
  /\ VideoService.outputPath _ res = output_path cfg w
  /\ VideoService.fileName _ res = output_name cfg w
  /\ (output_path cfg w <> reversedVideoPath w ->
      output_path cfg w <> concatListPath w ->
      VideoService.disk (fst (assembleVideo cfg progressCallback w))
        !! output_path cfg w
      = Some (VideoService.fileSize _ res)).
Proof.
  unfold assembleVideo, VideoService.assembleVideo.
  destruct (negb (exists_on_disk (videoPath cfg) _)); [by intros [=]|].
  destruct (negb (exists_on_disk (audioPath cfg) _)); [by intros [=]|].
  destruct (audioDuration cfg) as [target|] eqn:HT; [|by intros [=]].
  destruct (negb (Js.truthy (Some target))) eqn:Htruthy; [by intros [=]|].
  destruct (Qle_bool 1 target) eqn:H1; [|by intros [=]]. simpl.
  apply Qle_bool_iff in H1.
  unfold VideoService.try_block.
  destruct (probed w) as [e|d]; simpl; [by intros [=]|].
  destruct (String.eqb (loopType cfg) "ping-pong") eqn:Hpp.
  - apply String.eqb_eq in Hpp.
    match goal with
    | |- context [createReversedVideo ?i ?o ?cb ?r ?s] =>
        pose proof (createReversedVideo_error i o cb r s) as Herr;
        destruct (createReversedVideo i o cb r s) as [st1 err]
    end.
    simpl in Herr. subst err.
    destruct (failure (reverse_run w)) as [e|] eqn:Hrev; simpl;
      [by intros [=]|].
    destruct (loops_needed _ _) as [n|]; simpl; [|by intros [=]].
    fold merge_and_finish.
    destruct (merge_and_finish_outcome cfg progressCallback w target
                (push_rounds n [Forward; Reverse] []) st1) as [_ Hret].
    destruct (merge_and_finish _ _ _ _ _ _) as [st2 out]. simpl in Hret.
    destruct out as [res'| |]; simpl; try (by intros [=]).
    intros [= ->].
    destruct (Hret res eq_refl) as (Hm & Hdisk & Hout & Hdur & Hloop & Hname & _).
    rewrite Hdur. split_and!; try done; [by left|].
    intros Hr Hc. unfold VideoService.cleanup.
    by rewrite !unlink_other.
  - destruct (String.eqb (loopType cfg) "standard") eqn:Hstd; simpl;
      [|by intros [=]].
    apply String.eqb_eq in Hstd.
    destruct (loops_needed _ _) as [n|]; simpl; [|by intros [=]].
    fold merge_and_finish.
    match goal with
    | |- context [merge_and_finish ?c ?cb ?w' ?t ?pl ?s] =>
        destruct (merge_and_finish_outcome c cb w' t pl s) as [_ Hret];
        destruct (merge_and_finish c cb w' t pl s) as [st2 out]
    end.
    simpl in Hret.
    destruct out as [res'| |]; simpl; try (by intros [=]).
    intros [= ->].
    destruct (Hret res eq_refl) as (Hm & Hdisk & Hout & Hdur & Hloop & Hname & _).
    rewrite Hdur. split_and!; try done; [by right|].
    intros Hr Hc. unfold VideoService.cleanup.
    by rewrite !unlink_other.
Qed.

(** Errors come out as they are.  In a call that passed the validation, an
    error of ffprobe, of the reversal pass or of the merge pass is thrown by
    [assembleVideo] with its own message, nothing added; and a loop type
    other than 'ping-pong' and 'standard' is refused, once the source has
    been probed, with a message that names it. *)
Theorem errors_pass_through (cfg : VideoService.config)
    (progressCallback : bool) (w : VideoService.world video_info)
    (target : Q) :
  passes_validation video_info cfg w target ->
  let out := snd (assembleVideo cfg progressCallback w) in
  (forall e, probed w = inl e -> out = Thrown e)
  /\ (forall d e, probed w = inr d -> loopType cfg = "ping-pong" ->
        failure (reverse_run w) = Some e -> out = Thrown e)
  /\ (forall source e, probed w = inr (Some source) -> 0 < source ->
        loopType cfg = "standard"
        \/ (loopType cfg = "ping-pong" /\ failure (reverse_run w) = None) ->
        failure (merge_run w) = Some e -> out = Thrown e)
  /\ (forall d, probed w = inr d ->
        loopType cfg <> "ping-pong" -> loopType cfg <> "standard" ->
        out = Thrown ("Unknown loop type: " +:+ loopType cfg
                      +:+ ". Use 'ping-pong' or 'standard'")).
Proof.
  intros Hvalid out. subst out. unfold assembleVideo.
  rewrite (assembleVideo_valid video_info show path_resolve path_join slashes
             videoOutputDir cfg progressCallback w target Hvalid).
  unfold VideoService.try_block. split_and!.
  - by intros e ->.
  - intros d e -> -> Hrev. simpl.
    match goal with
    | |- context [createReversedVideo ?i ?o ?cb ?r ?s] =>
        pose proof (createReversedVideo_error i o cb r s) as Herr;
        destruct (createReversedVideo i o cb r s) as [st1 err]
    end.
    simpl in Herr. subst err. by rewrite Hrev.
  - intros source e -> Hpos Hloop Hmerge.
    rewrite (or_default_positive source Hpos).
    destruct Hloop as [->|[-> Hrev]]; simpl.
    + rewrite loops_needed_positive by lra.
      fold merge_and_finish.
      match goal with
      | |- context [merge_and_finish ?c ?cb ?w' ?t ?pl ?s] =>
          destruct (merge_and_finish_outcome c cb w' t pl s) as [Hthrow _];
          destruct (merge_and_finish c cb w' t pl s) as [st2 out]
      end.
      simpl in Hthrow. by rewrite (Hthrow e Hmerge).
    + match goal with
      | |- context [createReversedVideo ?i ?o ?cb ?r ?s] =>
          pose proof (createReversedVideo_error i o cb r s) as Herr;
          destruct (createReversedVideo i o cb r s) as [st1 err]
      end.
      simpl in Herr. subst err. rewrite Hrev.
      rewrite loops_needed_positive by lra.
      fold merge_and_finish.
      match goal with
      | |- context [merge_and_finish ?c ?cb ?w' ?t ?pl ?s] =>
          destruct (merge_and_finish_outcome c cb w' t pl s) as [Hthrow _];
          destruct (merge_and_finish c cb w' t pl s) as [st2 out]
      end.
      simpl in Hthrow. by rewrite (Hthrow e Hmerge).
  - intros d -> Hpp Hstd.
    apply String.eqb_neq in Hpp, Hstd. by rewrite Hpp, Hstd.
Qed.

End AssemblyOutcome.

Lemma returned_result_is_sound_witness :
  exists res,
    snd (VideoExample.assembleVideo "ping-pong") = Returned res
    /\ failure (merge_run VideoExample.world) = None
    /\ audioDuration (VideoExample.request "ping-pong")
       = Some (VideoService.res_duration _ res).
Proof.
  destruct (snd (VideoExample.assembleVideo "ping-pong")) as [res| |] eqn:E;
    [|vm_compute in E; discriminate..].
  exists res. split; [reflexivity|].
  pose proof (returned_result_is_sound unit VideoExample.show
                VideoExample.path_resolve VideoExample.path_join
                VideoExample.slashes "out" (VideoExample.request "ping-pong")
                true VideoExample.world res E) as (_ & Hm & Hd & _).
  split; [exact Hm|exact Hd].
Defined.

Lemma errors_pass_through_witness :
  snd (VideoExample.assembleVideo "zigzag")
  = Thrown "Unknown loop type: zigzag. Use 'ping-pong' or 'standard'".
Proof.
  refine (proj2 (proj2 (proj2
            (errors_pass_through unit VideoExample.show
               VideoExample.path_resolve VideoExample.path_join
               VideoExample.slashes "out" (VideoExample.request "zigzag") true
               VideoExample.world 95 (example_passes_validation "zigzag"))))
            (Some 10) eq_refl _ _); discriminate.
Defined.

(** ** [assembleVideo]: the order of its steps, and a source without length *)

Section AssemblySteps.
Variable video_info : Type.
Variable show : Q -> string.
Variable path_resolve : string -> string.
Variable path_join : string -> string -> string.
Variable slashes : string -> string.
Variable videoOutputDir : string.

Let assembleVideo :=
  VideoService.assembleVideo video_info show path_resolve path_join slashes
    videoOutputDir.
Let entry :=
  VideoService.entry video_info show path_resolve path_join slashes
    videoOutputDir.
Let reversedVideoPath :=
  VideoService.reversedVideoPath video_info show path_join videoOutputDir.
Let concatListPath :=
  VideoService.concatListPath video_info show path_join videoOutputDir.
Let output_path := output_path video_info show path_join videoOutputDir.

(** The ffmpeg commands and file writes of a call, in order. *)
Definition steps_taken (cfg : VideoService.config) (progressCallback : bool)
    (w : VideoService.world video_info) : list VideoService.effect :=
  commands_of (effects_of (assembleVideo cfg progressCallback w)).

(** One thing after the other.  In a valid call on a source of duration
    above zero, the steps that start ffmpeg or write a file are, in this
    order: for 'ping-pong' the reversal of the source into the temp
    directory and then, only if it succeeded, the concat list and the merge;
    for 'standard' just the concat list and the merge, nothing being
    re-encoded.  The merge reads the list just written and the request's
    audio, writes the output path and is cut at the audio duration. *)
Theorem steps_in_order (cfg : VideoService.config) (progressCallback : bool)
    (w : VideoService.world video_info) (source target : Q) :
  valid_call video_info cfg w source target ->
  let merge :=
    VideoService.Save (MergeCommand (concatListPath w) (audioPath cfg)
                         (output_path cfg w) target) in
  let reversal :=
    VideoService.Save (ReverseCommand (videoPath cfg) (reversedVideoPath w)) in
  (loopType cfg = "standard" ->
   exists lines,
     steps_taken cfg progressCallback w
     = [WriteFile (concatListPath w) lines; merge])
  /\ (loopType cfg = "ping-pong" ->
      failure (reverse_run w) = None ->
      exists lines,
        steps_taken cfg progressCallback w
        = [reversal; WriteFile (concatListPath w) lines; merge])
  /\ (loopType cfg = "ping-pong" ->
      is_Some (failure (reverse_run w)) ->
      steps_taken cfg progressCallback w = [reversal]).
Proof.
  intros Hvalid merge reversal.
  destruct (assembleVideo_commands video_info show path_resolve path_join
              slashes videoOutputDir cfg progressCallback w source target
              Hvalid) as [Hpp Hstd].
  unfold steps_taken, assembleVideo. split_and!.
  - intros Hloop. rewrite (Hstd Hloop). by eexists.
  - intros Hloop Hrev. rewrite (Hpp Hloop), Hrev. by eexists.
  - intros Hloop [e Hrev]. by rewrite (Hpp Hloop), Hrev.
Qed.

(** A source without length.  When ffprobe reports no duration, or zero,
    for the source of a valid 'standard' or 'ping-pong' request, the number of
    rounds is the ceiling of a division by zero and the loop that builds
    the concat list has no end: the call writes no list, starts no merge and
    comes to no result.  For 'ping-pong' the reversal has been encoded by
    then. *)
Theorem source_without_length (cfg : VideoService.config)
    (progressCallback : bool) (w : VideoService.world video_info)
    (target : Q) (d : option Q) :
  passes_validation video_info cfg w target ->
  probed w = inr d ->
  Js.truthy d = false ->
  (loopType cfg = "standard" ->
   snd (assembleVideo cfg progressCallback w) = Diverges
   /\ steps_taken cfg progressCallback w = [])
  /\ (loopType cfg = "ping-pong" ->
      failure (reverse_run w) = None ->
      snd (assembleVideo cfg progressCallback w) = Diverges
      /\ steps_taken cfg progressCallback w
         = [VideoService.Save
              (ReverseCommand (videoPath cfg) (reversedVideoPath w))]).
Proof.
  intros Hvalid Hprobe Hd.
  assert (Js.or_default d 0 = 0) as Hzero.
  { unfold Js.or_default. destruct d; [by rewrite Hd|done]. }
  unfold steps_taken, assembleVideo.
  rewrite (assembleVideo_valid video_info show path_resolve path_join slashes
             videoOutputDir cfg progressCallback w target Hvalid).
  unfold VideoService.try_block. rewrite Hprobe, Hzero. split.
  - intros ->. simpl. split; [done|].
    destruct progressCallback; reflexivity.
  - intros -> Hrev. simpl.
    match goal with
    | |- context [createReversedVideo ?i ?o ?cb ?r ?s] =>
        pose proof (createReversedVideo_commands i o cb r s
                      (fun p m => quiet_report progressCallback _ m)) as Hr;
        pose proof (DiskFacts.createReversedVideo_error i o cb r s) as Herr;
        destruct (createReversedVideo i o cb r s) as [st1 err]
    end.
    simpl in Hr, Herr. subst err. rewrite Hrev. simpl. split; [done|].
    unfold effects_of. simpl. fold (commands st1). rewrite Hr.
    rewrite quiet_report, commands_emit, quiet_report. done.
Qed.

End AssemblySteps.

(** A world like the example's whose source has no duration. *)
Definition unprobed_world : VideoService.world unit :=
  World {[ "clip.mp4" := 1000%Z; "mix.mp3" := 2000%Z ]}
        1700000000000 1700000000001 1700000003001
        (inr None) VideoExample.reversal VideoExample.merge (inr tt).

Lemma steps_in_order_witness :
  exists lines,
    steps_taken unit VideoExample.show VideoExample.path_resolve
      VideoExample.path_join VideoExample.slashes "out"
      (VideoExample.request "standard") true VideoExample.world
    = [WriteFile "out/temp/concat_n.txt" lines;
       VideoService.Save
         (MergeCommand "out/temp/concat_n.txt" "mix.mp3" "out/video_n.mp4" 95)].
Proof.
  exact (proj1 (steps_in_order unit VideoExample.show VideoExample.path_resolve
                  VideoExample.path_join VideoExample.slashes "out"
                  (VideoExample.request "standard") true VideoExample.world
                  10 95 (example_valid_call "standard")) eq_refl).
Defined.

Lemma source_without_length_witness :
  snd (VideoService.assembleVideo unit VideoExample.show
         VideoExample.path_resolve VideoExample.path_join VideoExample.slashes
         "out" (VideoExample.request "standard") true unprobed_world)
  = Diverges.
Proof.
  refine (proj1 (proj1 (source_without_length unit VideoExample.show
                          VideoExample.path_resolve VideoExample.path_join
                          VideoExample.slashes "out"
                          (VideoExample.request "standard") true
                          unprobed_world 95 None _ eq_refl eq_refl) eq_refl)).
  unfold passes_validation. split_and!; try done; by eexists.
Defined.

(** ** [assembleVideo]: progress *)

Module ProgressFacts.

(** The percentages handed to the callback so far, oldest first. *)
Definition sent (st : VideoService.state) : list Z :=
  omap (fun e => match e with
                 | VideoService.Progress pct _ => Some pct
                 | _ => None
                 end) (rev (VideoService.trace st)).

(** The percentages never decreased and lie between 0 and [b]. *)
Definition rising (b : Z) (st : VideoService.state) : Prop :=
  (0 <= b)%Z
  /\ StronglySorted Z.le (sent st)
  /\ Forall (fun x => (0 <= x <= b)%Z) (sent st).

Lemma sent_report (percent : Z) (msg : VideoService.message)
    (st : VideoService.state) :
  sent (report true percent msg st) = sent st ++ [percent].
Proof. unfold sent. simpl. by rewrite omap_app. Qed.

Lemma rising_report (b x : Z) (msg : VideoService.message)
    (st : VideoService.state) :
  rising b st -> (b <= x)%Z -> rising x (report true x msg st).
Proof.
  intros (Hb & Hs & Hall) Hx. unfold rising. rewrite sent_report.
  split_and!; [lia| |].
  - apply StronglySorted_app_2; [|exact Hs|repeat constructor].
    intros y z Hy ->%list_elem_of_singleton.
    rewrite Forall_forall in Hall. specialize (Hall y Hy). lia.
  - apply Forall_app. split; [|repeat constructor; lia].
    eapply Forall_impl; [exact Hall|]. simpl. lia.
Qed.

Lemma rising_mono (b b' : Z) (st : VideoService.state) :
  rising b st -> (b <= b')%Z -> rising b' st.
Proof.
  intros (Hb & Hs & Hall) Hle. split_and!; [lia|exact Hs|].
  eapply Forall_impl; [exact Hall|]. simpl. lia.
Qed.

Lemma sent_unlink (path : string) (st : VideoService.state) :
  sent (VideoService.unlink_if_exists path st) = sent st.
Proof.
  unfold VideoService.unlink_if_exists. destruct (exists_on_disk path st); [|done].
  unfold sent. simpl. by rewrite omap_app, app_nil_r.
Qed.

(** An event that is not 'start' and reports no more than 100 percent. *)
Definition calm (e : encoder_event) : bool :=
  match e with
  | VideoService.OnStart => false
  | VideoService.OnProgress (Some p) => Qle_bool p 100
  | _ => true
  end.

(** A run that has no event, or starts with 'start' and stays calm. *)
Definition orderly (r : encoder_run) : bool :=
  match events r with
  | [] => true
  | VideoService.OnStart :: body => forallb calm body
  | _ => false
  end.

Definition reverse_cb : callback :=
  fun progress message => report true (5 + progress / 2)%Z message.

(** [Math.floor(progress * 0.7)]. *)
Definition scaled (progress : Z) : Z :=
  Qfloor (Double.nearest (inject_Z progress * Double.nearest 0.7)).

Arguments scaled : simpl never.

Definition merge_cb : callback :=
  fun progress message => report true (30 + scaled progress)%Z message.

Lemma scaled_mono (a b : Z) : (0 <= a <= b)%Z -> (scaled a <= scaled b)%Z.
Proof.
  intros [Ha Hab]. unfold scaled. apply Qfloor_resp_le.
  assert (0 <= Double.nearest 0.7) as H7 by (by vm_compute).
  assert (0 <= inject_Z a) as Ha'
    by (change 0 with (inject_Z 0); by rewrite <- Zle_Qle).
  apply DoubleFacts.nearest_mono.
  - by apply Qmult_le_0_compat.
  - apply Qmult_le_compat_r; [|exact H7]. by rewrite <- Zle_Qle.
Qed.

Lemma scaled_0 : scaled 0 = 0%Z.
Proof. vm_compute. reflexivity. Qed.

Lemma scaled_100 : scaled 100 = 70%Z.
Proof. vm_compute. reflexivity. Qed.

Lemma seventy (lp : Z) : (0 <= lp <= 100)%Z -> (0 <= scaled lp <= 70)%Z.
Proof.
  intros [H0 H100]. split.
  - rewrite <- scaled_0. apply scaled_mono. lia.
  - rewrite <- scaled_100. apply scaled_mono. lia.
Qed.

Lemma reverse_body_rising (outputPath : string) (body : list encoder_event)
    (st : VideoService.state) (lp : Z) :
  forallb calm body = true ->
  (0 <= lp <= 100)%Z -> rising (5 + lp / 4 / 2) st ->
  let r := fold_left (reverse_handler outputPath reverse_cb) body (st, lp) in
  (0 <= snd r <= 100)%Z /\ rising (5 + snd r / 4 / 2) (fst r).
Proof.
  revert st lp. induction body as [|e body IH]; intros st lp Hb Hlp Hst;
    [done|].
  simpl in Hb. apply andb_true_iff in Hb as [He Hb]. simpl.
  destruct e as [|[p|]|size]; simpl in He; try discriminate; simpl.
  - destruct (negb (Qeq_bool p 0)
              && negb (Qle_bool p (inject_Z (lp + 5)))) eqn:Hcond;
      [|by apply IH].
    apply andb_true_iff in Hcond as [_ Hgt]. apply negb_true_iff in Hgt.
    apply Qle_bool_iff in He.
    assert (lp + 5 <= Qfloor p)%Z as Hlo.
    { rewrite <- (Qfloor_Z (lp + 5)). apply Qfloor_resp_le.
      apply Qlt_le_weak, Qnot_le_lt. intros Hle.
      apply Qle_bool_iff in Hle. congruence. }
    assert (Qfloor p <= 100)%Z as Hhi.
    { change 100%Z with (Qfloor 100). by apply Qfloor_resp_le. }
    apply IH; [exact Hb|lia|].
    unfold reverse_cb. eapply rising_report; [exact Hst|].
    assert (lp / 4 / 2 <= Qfloor p / 4 / 2)%Z; [|lia].
    apply Z.div_le_mono; [lia|]. apply Z.div_le_mono; lia.
  - by apply IH.
  - by apply IH.
Qed.

Lemma merge_body_rising (outputPath : string) (body : list encoder_event)
    (st : VideoService.state) (lp : Z) :
  forallb calm body = true ->
  (0 <= lp <= 100)%Z -> rising (30 + scaled lp) st ->
  let r := fold_left (merge_handler outputPath merge_cb) body (st, lp) in
  (0 <= snd r <= 100)%Z
  /\ rising (30 + scaled (snd r)) (fst r).
Proof.
  revert st lp. induction body as [|e body IH]; intros st lp Hb Hlp Hst;
    [done|].
  simpl in Hb. apply andb_true_iff in Hb as [He Hb]. simpl.
  destruct e as [|[p|]|size]; simpl in He; try discriminate; simpl.
  - destruct (negb (Qeq_bool p 0)); [|by apply IH].
    destruct (lp + 5 <=? Qfloor p)%Z eqn:Hstep; [|by apply IH].
    apply Z.leb_le in Hstep. apply Qle_bool_iff in He.
    assert (Qfloor p <= 100)%Z as Hhi.
    { change 100%Z with (Qfloor 100). by apply Qfloor_resp_le. }
    apply IH; [exact Hb|lia|].
    unfold merge_cb. eapply rising_report; [exact Hst|].
    assert (scaled lp <= scaled (Qfloor p))%Z; [|lia].
    apply scaled_mono. lia.
  - by apply IH.
  - by apply IH.
Qed.

(** The reversal pass keeps the percentages rising, up to 17. *)
Lemma createReversedVideo_rising (inputPath outputPath : string)
    (r : encoder_run) (st : VideoService.state) :
  orderly r = true -> rising 5 st ->
  rising 17 (fst (createReversedVideo inputPath outputPath reverse_cb r st)).
Proof.
  intros Hr Hst. unfold createReversedVideo, orderly in *.
  set (st0 := VideoService.emit _ st).
  assert (rising 5 st0) as Hst0.
  { destruct Hst as (Hb & Hs & Hall). unfold rising, sent in *. simpl.
    by rewrite omap_app, app_nil_r. }
  assert (let a := fold_left (reverse_handler outputPath reverse_cb)
                     (events r) (st0, 0%Z) in
          (0 <= snd a <= 100)%Z /\ rising (5 + snd a / 4 / 2) (fst a))
    as Hfold.
  { destruct (events r) as [|[| |] body]; try discriminate.
    - simpl. split; [lia|exact Hst0].
    - simpl. apply reverse_body_rising; [exact Hr|lia|].
      exact (rising_report 5 5 CreatingReversed st0 Hst0 ltac:(lia)). }
  destruct (fold_left _ _ _) as [st1 lp]. simpl in Hfold.
  destruct Hfold as [Hlp Hst1].
  assert (5 + lp / 4 / 2 <= 17)%Z as Hle.
  { assert (lp / 4 / 2 <= 12)%Z; [|lia].
    change 12%Z with (100 / 4 / 2)%Z.
    apply Z.div_le_mono; [lia|]. apply Z.div_le_mono; lia. }
  destruct (failure r); simpl.
  - by eapply rising_mono.
  - unfold reverse_cb. change (5 + 25 / 2)%Z with 17%Z.
    eapply rising_report; [exact Hst1|exact Hle].
Qed.

(** The merge pass keeps them rising, up to 100. *)
Lemma mergeVideoWithAudio_rising (c a o : string) (d : Q)
    (r : encoder_run) (st : VideoService.state) :
  orderly r = true -> rising 30 st ->
  rising 100 (fst (mergeVideoWithAudio c a o d merge_cb r st)).
Proof.
  intros Hr Hst. unfold mergeVideoWithAudio, orderly in *.
  set (st0 := VideoService.emit _ st).
  assert (rising 30 st0) as Hst0.
  { destruct Hst as (Hb & Hs & Hall). unfold rising, sent in *. simpl.
    by rewrite omap_app, app_nil_r. }
  assert (let a := fold_left (merge_handler o merge_cb) (events r) (st0, 0%Z) in
          (0 <= snd a <= 100)%Z
          /\ rising (30 + scaled (snd a)) (fst a))
    as Hfold.
  { destruct (events r) as [|[| |] body]; try discriminate.
    - simpl. split; [lia|exact Hst0].
    - simpl. apply merge_body_rising; [exact Hr|lia|].
      exact (rising_report 30 30 MergingStarted st0 Hst0 ltac:(lia)). }
  destruct (fold_left _ _ _) as [st1 lp]. cbn [fst snd] in Hfold.
  destruct Hfold as [Hlp Hst1].
  pose proof (seventy lp Hlp) as H70.
  destruct (failure r); simpl.
  - eapply rising_mono; [exact Hst1|lia].
  - unfold merge_cb.
    rewrite scaled_100. change (30 + 70)%Z with 100%Z.
    eapply rising_report; [exact Hst1|lia].
Qed.

(** The calls of the callback so far, oldest first, and the range each pass
    keeps to: the reversal reports within 5 to 17, the merge within 30 to
    100. *)
Definition reports (st : VideoService.state) : list (Z * VideoService.message) :=
  omap (fun e => match e with
                 | VideoService.Progress pct msg => Some (pct, msg)
                 | _ => None
                 end) (rev (VideoService.trace st)).

Definition in_range (e : Z * VideoService.message) : Prop :=
  match snd e with
  | CreatingReversed | Reversing _ | ReversedCreated => (5 <= fst e <= 17)%Z
  | MergingStarted | Merging _ | MergeCompleted => (30 <= fst e <= 100)%Z
  | _ => True
  end.

Definition staged (st : VideoService.state) : Prop :=
  Forall in_range (reports st).

Lemma sent_reports (st : VideoService.state) :
  sent st = map fst (reports st).
Proof.
  unfold sent, reports. induction (rev (VideoService.trace st)) as [|e l IH];
    [done|].
  destruct e as [pct msg| | | |]; [|exact IH..].
  change (pct :: omap (fun e => match e with
                                | VideoService.Progress pct _ => Some pct
                                | _ => None
                                end) l
          = pct :: map fst
                     (omap (fun e => match e with
                                     | VideoService.Progress pct msg =>
                                         Some (pct, msg)
                                     | _ => None
                                     end) l)).
  by rewrite IH.
Qed.

Lemma reports_report (percent : Z) (msg : VideoService.message)
    (st : VideoService.state) :
  reports (report true percent msg st) = reports st ++ [(percent, msg)].
Proof. unfold reports. simpl. by rewrite omap_app. Qed.

Lemma staged_report (percent : Z) (msg : VideoService.message)
    (st : VideoService.state) :
  staged st -> in_range (percent, msg) -> staged (report true percent msg st).
Proof.
  intros Hst Hin. unfold staged. rewrite reports_report.
  apply Forall_app. split; [exact Hst|by repeat constructor].
Qed.

Lemma staged_quiet (st st' : VideoService.state) :
  reports st' = reports st -> staged st -> staged st'.
Proof. intros Heq Hst. unfold staged. by rewrite Heq. Qed.

Lemma reports_unlink (path : string) (st : VideoService.state) :
  reports (VideoService.unlink_if_exists path st) = reports st.
Proof.
  unfold VideoService.unlink_if_exists. destruct (exists_on_disk path st); [|done].
  unfold reports. simpl. by rewrite omap_app, app_nil_r.
Qed.

Lemma halved_quarter (lp : Z) :
  (0 <= lp <= 100)%Z -> (5 <= 5 + lp / 4 / 2 <= 17)%Z.
Proof.
  intros [H0 H100].
  assert (0 <= lp / 4 / 2)%Z by (apply Z.div_pos; [apply Z.div_pos|]; lia).
  assert (lp / 4 / 2 <= 100 / 4 / 2)%Z
    by (apply Z.div_le_mono; [lia|]; apply Z.div_le_mono; lia).
  change (100 / 4 / 2)%Z with 12%Z in *. lia.
Qed.

Lemma reverse_body_staged (outputPath : string) (body : list encoder_event)
    (st : VideoService.state) (lp : Z) :
  forallb calm body = true -> (0 <= lp <= 100)%Z -> staged st ->
  let r := fold_left (reverse_handler outputPath reverse_cb) body (st, lp) in
  (0 <= snd r <= 100)%Z /\ staged (fst r).
Proof.
  revert st lp. induction body as [|e body IH]; intros st lp Hb Hlp Hst;
    [done|].
  simpl in Hb. apply andb_true_iff in Hb as [He Hb]. simpl.
  destruct e as [|[p|]|size]; simpl in He; try discriminate; simpl.
  - destruct (negb (Qeq_bool p 0)
              && negb (Qle_bool p (inject_Z (lp + 5)))) eqn:Hcond;
      [|by apply IH].
    apply andb_true_iff in Hcond as [_ Hgt]. apply negb_true_iff in Hgt.
    apply Qle_bool_iff in He.
    assert (lp + 5 <= Qfloor p)%Z as Hlo.
    { rewrite <- (Qfloor_Z (lp + 5)). apply Qfloor_resp_le.
      apply Qlt_le_weak, Qnot_le_lt. intros Hle.
      apply Qle_bool_iff in Hle. congruence. }
    assert (Qfloor p <= 100)%Z as Hhi.
    { change 100%Z with (Qfloor 100). by apply Qfloor_resp_le. }
    apply IH; [exact Hb|lia|].
    unfold reverse_cb. apply staged_report; [exact Hst|].
    apply halved_quarter. lia.
  - by apply IH.
  - by apply IH.
Qed.

Lemma merge_body_staged (outputPath : string) (body : list encoder_event)
    (st : VideoService.state) (lp : Z) :
  forallb calm body = true -> (0 <= lp <= 100)%Z -> staged st ->
  let r := fold_left (merge_handler outputPath merge_cb) body (st, lp) in
  (0 <= snd r <= 100)%Z /\ staged (fst r).
Proof.
  revert st lp. induction body as [|e body IH]; intros st lp Hb Hlp Hst;
    [done|].
  simpl in Hb. apply andb_true_iff in Hb as [He Hb]. simpl.
  destruct e as [|[p|]|size]; simpl in He; try discriminate; simpl.
  - destruct (negb (Qeq_bool p 0)); [|by apply IH].
    destruct (lp + 5 <=? Qfloor p)%Z eqn:Hstep; [|by apply IH].
    apply Z.leb_le in Hstep. apply Qle_bool_iff in He.
    assert (Qfloor p <= 100)%Z as Hhi.
    { change 100%Z with (Qfloor 100). by apply Qfloor_resp_le. }
    apply IH; [exact Hb|lia|].
    unfold merge_cb. apply staged_report; [exact Hst|].
    pose proof (seventy (Qfloor p) ltac:(lia)).
    unfold in_range. cbn [fst snd]. lia.
  - by apply IH.
  - by apply IH.
Qed.

(** The reversal pass reports within 5 to 17. *)
Lemma createReversedVideo_staged (inputPath outputPath : string)
    (r : encoder_run) (st : VideoService.state) :
  orderly r = true -> staged st ->
  staged (fst (createReversedVideo inputPath outputPath reverse_cb r st)).
Proof.
  intros Hr Hst. unfold createReversedVideo, orderly in *.
  set (st0 := VideoService.emit _ st).
  assert (staged st0) as Hst0.
  { eapply staged_quiet; [|exact Hst]. unfold reports. simpl.
    by rewrite omap_app, app_nil_r. }
  assert (let a := fold_left (reverse_handler outputPath reverse_cb)
                     (events r) (st0, 0%Z) in
          (0 <= snd a <= 100)%Z /\ staged (fst a)) as Hfold.
  { destruct (events r) as [|[| |] body]; try discriminate.
    - simpl. split; [lia|exact Hst0].
    - simpl. apply reverse_body_staged; [exact Hr|lia|].
      apply (staged_report 5 CreatingReversed st0 Hst0).
      unfold in_range. cbn [fst snd]. lia. }
  destruct (fold_left _ _ _) as [st1 lp]. simpl in Hfold.
  destruct Hfold as [Hlp Hst1].
  destruct (failure r); simpl; [exact Hst1|].
  unfold reverse_cb. change (5 + 25 / 2)%Z with 17%Z.
  apply staged_report; [exact Hst1|]. unfold in_range. cbn [fst snd]. lia.
Qed.

(** The merge pass reports within 30 to 100. *)
Lemma mergeVideoWithAudio_staged (c a o : string) (d : Q)
    (r : encoder_run) (st : VideoService.state) :
  orderly r = true -> staged st ->
  staged (fst (mergeVideoWithAudio c a o d merge_cb r st)).
Proof.
  intros Hr Hst. unfold mergeVideoWithAudio, orderly in *.
  set (st0 := VideoService.emit _ st).
  assert (staged st0) as Hst0.
  { eapply staged_quiet; [|exact Hst]. unfold reports. simpl.
    by rewrite omap_app, app_nil_r. }
  assert (let a := fold_left (merge_handler o merge_cb) (events r) (st0, 0%Z) in
          (0 <= snd a <= 100)%Z /\ staged (fst a)) as Hfold.
  { destruct (events r) as [|[| |] body]; try discriminate.
    - simpl. split; [lia|exact Hst0].
    - simpl. apply merge_body_staged; [exact Hr|lia|].
      unfold merge_cb. apply staged_report; [exact Hst0|].
      unfold in_range. cbn [fst snd]. rewrite scaled_0. lia. }
  destruct (fold_left _ _ _) as [st1 lp]. cbn [fst snd] in Hfold.
  destruct Hfold as [Hlp Hst1].
  destruct (failure r); simpl; [exact Hst1|].
  unfold merge_cb. apply staged_report; [exact Hst1|].
  unfold in_range. cbn [fst snd]. rewrite scaled_100. lia.
Qed.

End ProgressFacts.

Section AssemblyProgress.
Import ProgressFacts.
Variable video_info : Type.
Variable show : Q -> string.
Variable path_resolve : string -> string.
Variable path_join : string -> string -> string.
Variable slashes : string -> string.
Variable videoOutputDir : string.

Let assembleVideo :=
  VideoService.assembleVideo video_info show path_resolve path_join slashes
    videoOutputDir.
Let merge_and_finish :=
  VideoService.merge_and_finish video_info show path_resolve path_join slashes
    videoOutputDir.

Lemma rising_quiet (b : Z) (st st' : VideoService.state) :
  sent st' = sent st -> rising b st -> rising b st'.
Proof. intros Heq (Hb & Hs & Hall). unfold rising. by rewrite Heq. Qed.

Lemma merge_and_finish_rising (cfg : VideoService.config)
    (w : VideoService.world video_info) (target : Q) (plan : list segment)
    (st : VideoService.state) (b : Z) :
  orderly (merge_run w) = true -> rising b st -> (b <= 30)%Z ->
  let r := merge_and_finish cfg true w target plan st in
  rising 100%Z (fst r)
  /\ (forall res, snd r = Returned res -> last (sent (fst r)) = Some 100%Z).
Proof.
  intros Hm Hst Hb. unfold merge_and_finish, VideoService.merge_and_finish.
  set (st0 := report true 30%Z MergingWithAudio _).
  assert (rising 30%Z st0) as Hst0.
  { subst st0. eapply rising_report; [|exact Hb].
    eapply rising_quiet; [|exact Hst].
    unfold sent. simpl. by rewrite omap_app, app_nil_r. }
  match goal with
  | |- context [mergeVideoWithAudio ?c ?a ?o ?d ?cb ?r ?s] =>
      pose proof (mergeVideoWithAudio_rising c a o d r s Hm Hst0) as Hrise;
      change cb with merge_cb;
      destruct (mergeVideoWithAudio c a o d merge_cb r s) as [st1 err]
  end.
  cbn [fst] in Hrise.
  assert (rising 100%Z (report true 100%Z AssemblyCompleted st1)) as Hfinal
    by (eapply rising_report; [exact Hrise|lia]).
  destruct err as [e|]; cbn [fst snd]; [by split|].
  destruct (VideoService.disk _ !! _); cbn [fst snd]; [|by split].
  destruct (output_info w); cbn [fst snd]; [by split|].
  split; [exact Hfinal|]. intros res _. by rewrite sent_report, last_snoc.
Qed.

Lemma merge_and_finish_staged (cfg : VideoService.config)
    (w : VideoService.world video_info) (target : Q) (plan : list segment)
    (st : VideoService.state) :
  orderly (merge_run w) = true -> staged st ->
  staged (fst (merge_and_finish cfg true w target plan st)).
Proof.
  intros Hm Hst. unfold merge_and_finish, VideoService.merge_and_finish.
  set (st0 := report true 30%Z MergingWithAudio _).
  assert (staged st0) as Hst0.
  { subst st0. apply staged_report; [|done].
    eapply staged_quiet; [|exact Hst].
    unfold reports. simpl. by rewrite omap_app, app_nil_r. }
  match goal with
  | |- context [mergeVideoWithAudio ?c ?a ?o ?d ?cb ?r ?s] =>
      pose proof (mergeVideoWithAudio_staged c a o d r s Hm Hst0) as Hrise;
      change cb with merge_cb;
      destruct (mergeVideoWithAudio c a o d merge_cb r s) as [st1 err]
  end.
  cbn [fst] in Hrise.
  assert (staged (report true 100%Z AssemblyCompleted st1)) as Hfinal
    by (by apply staged_report).
  destruct err as [e|]; cbn [fst snd]; [done|].
  destruct (VideoService.disk _ !! _); cbn [fst snd]; [|done].
  by destruct (output_info w).
Qed.

Lemma assembleVideo_staged (cfg : VideoService.config)
    (w : VideoService.world video_info) :
  orderly (reverse_run w) = true ->
  orderly (merge_run w) = true ->
  staged (fst (assembleVideo cfg true w)).
Proof.
  intros Hrev Hmerge.
  unfold assembleVideo, VideoService.assembleVideo.
  set (st0 := VideoService.State (VideoService.files w) []).
  assert (staged st0) as Hst0 by constructor.
  assert (forall st (out : outcome video_info),
            staged st ->
            staged (fst (match out with
                         | Diverges => (st, Diverges)
                         | _ => (VideoService.cleanup video_info show
                                   path_join videoOutputDir w st, out)
                         end))) as Hfinally.
  { intros st out Hst.
    assert (reports (VideoService.cleanup video_info show path_join
                       videoOutputDir w st) = reports st) as Hclean
      by (unfold VideoService.cleanup; by rewrite !reports_unlink).
    destruct out; cbn [fst]; [by eapply staged_quiet..|done]. }
  destruct (negb (exists_on_disk (videoPath cfg) st0)); [done|].
  destruct (negb (exists_on_disk (audioPath cfg) st0)); [done|].
  destruct (audioDuration cfg) as [target|]; [|done].
  destruct (_ || _); [done|].
  unfold VideoService.try_block.
  set (st1 := VideoService.emit (Probe (videoPath cfg))
                (report true 0%Z Analyzing st0)).
  assert (staged st1) as Hst1.
  { subst st1. eapply staged_quiet;
      [|exact (staged_report 0%Z Analyzing st0 Hst0 I)].
    reflexivity. }
  destruct (probed w) as [e|d].
  { by apply (Hfinally st1 (Thrown e)). }
  destruct (String.eqb (loopType cfg) "ping-pong").
  - match goal with
    | |- context [createReversedVideo ?i ?o ?cb ?run ?s] =>
        pose proof (createReversedVideo_staged i o run s Hrev
                      (staged_report 5%Z CreatingReversedVersion st1 Hst1 I))
          as Hrise;
        change cb with reverse_cb;
        destruct (createReversedVideo i o reverse_cb run s) as [st2 err]
    end.
    cbn [fst] in Hrise.
    destruct err as [e|]; [by apply (Hfinally st2 (Thrown e))|].
    destruct (loops_needed _ _) as [n|]; [|done].
    fold merge_and_finish.
    pose proof (merge_and_finish_staged cfg w target
                  (push_rounds n [Forward; Reverse] []) st2 Hmerge Hrise) as Hm.
    destruct (merge_and_finish _ _ _ _ _ _) as [st3 out].
    cbn [fst] in Hm. by apply (Hfinally st3 out).
  - destruct (String.eqb (loopType cfg) "standard").
    + destruct (loops_needed _ _) as [n|]; [|done].
      fold merge_and_finish.
      pose proof (merge_and_finish_staged cfg w target
                    (push_rounds n [Forward] []) st1 Hmerge Hst1) as Hm.
      destruct (merge_and_finish _ _ _ _ _ _) as [st3 out].
      cbn [fst] in Hm. by apply (Hfinally st3 out).
    + by apply (Hfinally st1 (Thrown _)).
Qed.

(** Progress only goes up.  Take a call with a progress callback in which
    each ffmpeg run is orderly: it emits nothing, or 'start' first and only
    once, and never reports more than 100 percent.  Whatever the request
    and however the call ends, the percentages handed to the callback never
    decrease and all lie between 0 and 100: every report of the reversal
    pass (its start, its progress and its end) carries a percentage within
    5 to 17, and every report of the merge pass one within 30 to 100.  When
    the call returns a result the last percentage is 100. *)
Theorem assembly_progress_rises (cfg : VideoService.config)
    (w : VideoService.world video_info) :
  orderly (reverse_run w) = true ->
  orderly (merge_run w) = true ->
  let r := assembleVideo cfg true w in
  StronglySorted Z.le (sent (fst r))
  /\ Forall (fun x => (0 <= x <= 100)%Z) (sent (fst r))
  /\ (forall pct msg, (pct, msg) ∈ reports (fst r) ->
        match msg with
        | CreatingReversed | Reversing _ | ReversedCreated => (5 <= pct <= 17)%Z
        | MergingStarted | Merging _ | MergeCompleted => (30 <= pct <= 100)%Z
        | _ => True
        end)
  /\ sent (fst r) = map fst (reports (fst r))
  /\ (forall res, snd r = Returned res -> last (sent (fst r)) = Some 100%Z).
Proof.
  intros Hrev Hmerge r.
  assert (rising 100%Z (fst r)
          /\ (forall res, snd r = Returned res ->
                          last (sent (fst r)) = Some 100%Z)) as [(_ & Hs & Hall) Hlast].
  2: { split_and!; [exact Hs|exact Hall| | |exact Hlast].
       - intros pct msg Hin.
         pose proof (assembleVideo_staged cfg w Hrev Hmerge) as Hst.
         unfold staged in Hst. rewrite Forall_forall in Hst.
         exact (Hst (pct, msg) Hin).
       - apply sent_reports. }
  subst r. unfold assembleVideo, VideoService.assembleVideo.
  set (st0 := VideoService.State (VideoService.files w) []).
  assert (rising 0%Z st0) as Hst0 by (split_and!; [lia|constructor..]).
  assert (forall st out,
            rising 100%Z st ->
            (forall res, out = Returned res -> last (sent st) = Some 100%Z) ->
            rising 100%Z (fst (match out with
                             | Diverges => (st, Diverges)
                             | _ => (VideoService.cleanup video_info show
                                       path_join videoOutputDir w st, out)
                             end))
            /\ (forall res,
                  snd (match out with
                       | Diverges => (st, Diverges)
                       | _ => (VideoService.cleanup video_info show
                                 path_join videoOutputDir w st, out)
                       end) = Returned res ->
                  last (sent (fst (match out with
                                   | Diverges => (st, @Diverges video_info)
                                   | _ => (VideoService.cleanup video_info show
                                             path_join videoOutputDir w st, out)
                                   end))) = Some 100%Z)) as Hfinally.
  { intros st out Hst Hout.
    assert (sent (VideoService.cleanup video_info show path_join
                    videoOutputDir w st) = sent st) as Hclean
      by (unfold VideoService.cleanup; by rewrite !sent_unlink).
    destruct out as [res| |]; cbn [fst snd].
    - split; [by eapply rising_quiet|].
      intros res' [= <-]. rewrite Hclean. by apply (Hout res).
    - split; [by eapply rising_quiet|]. by intros res [=].
    - split; [exact Hst|]. by intros res [=]. }
  destruct (negb (exists_on_disk (videoPath cfg) st0));
    [split; [by eapply rising_mono|by intros res [=]]|].
  destruct (negb (exists_on_disk (audioPath cfg) st0));
    [split; [by eapply rising_mono|by intros res [=]]|].
  destruct (audioDuration cfg) as [target|];
    [|split; [by eapply rising_mono|by intros res [=]]].
  destruct (_ || _); [split; [by eapply rising_mono|by intros res [=]]|].
  unfold VideoService.try_block.
  set (st1 := VideoService.emit (Probe (videoPath cfg))
                (report true 0%Z Analyzing st0)).
  assert (rising 0%Z st1) as Hst1.
  { subst st1. eapply rising_quiet;
      [|exact (rising_report 0%Z 0%Z Analyzing st0 Hst0 ltac:(lia))].
    reflexivity. }
  destruct (probed w) as [e|d].
  { apply (Hfinally st1 (Thrown e)); [by eapply rising_mono|by intros res [=]]. }
  destruct (String.eqb (loopType cfg) "ping-pong").
  - match goal with
    | |- context [createReversedVideo ?i ?o ?cb ?run ?s] =>
        pose proof (createReversedVideo_rising i o run s Hrev
                      (rising_report 0%Z 5%Z CreatingReversedVersion st1 Hst1
                         ltac:(lia))) as Hrise;
        change cb with reverse_cb;
        destruct (createReversedVideo i o reverse_cb run s) as [st2 err]
    end.
    cbn [fst] in Hrise.
    destruct err as [e|].
    { apply (Hfinally st2 (Thrown e));
        [by eapply rising_mono|by intros res [=]]. }
    destruct (loops_needed _ _) as [n|].
    + fold merge_and_finish.
      destruct (merge_and_finish_rising cfg w target
                  (push_rounds n [Forward; Reverse] []) st2 17%Z Hmerge Hrise
                  ltac:(lia)) as [Hm1 Hm2].
      destruct (merge_and_finish _ _ _ _ _ _) as [st3 out].
      cbn [fst snd] in Hm1, Hm2. by apply (Hfinally st3 out).
    + split; [by eapply rising_mono|by intros res [=]].
  - destruct (String.eqb (loopType cfg) "standard").
    + destruct (loops_needed _ _) as [n|].
      * fold merge_and_finish.
        destruct (merge_and_finish_rising cfg w target
                    (push_rounds n [Forward] []) st1 0%Z Hmerge Hst1
                    ltac:(lia)) as [Hm1 Hm2].
        destruct (merge_and_finish _ _ _ _ _ _) as [st3 out].
        cbn [fst snd] in Hm1, Hm2. by apply (Hfinally st3 out).
      * split; [by eapply rising_mono|by intros res [=]].
    + apply (Hfinally st1 (Thrown _));
        [by eapply rising_mono|by intros res [=]].
Qed.

End AssemblyProgress.

Lemma assembly_progress_rises_witness :
  ProgressFacts.sent (fst (VideoExample.assembleVideo "ping-pong"))
  = [0; 5; 5; 10; 16; 17; 30; 30; 65; 100; 100]%Z
  /\ StronglySorted Z.le
       (ProgressFacts.sent (fst (VideoExample.assembleVideo "ping-pong"))).
Proof.
  split; [vm_compute; reflexivity|].
  exact (proj1 (assembly_progress_rises unit VideoExample.show
                  VideoExample.path_resolve VideoExample.path_join
                  VideoExample.slashes "out" (VideoExample.request "ping-pong")
                  VideoExample.world eq_refl eq_refl)).
Defined.

(** * The job runner beyond [addJob] *)

(** [initialize], the worker's [processJob] and [getJobStatus] of
    JobQueueService (src/unnamed/part_003), with the three emitters of
    SocketService (src/services/socketService.js) that [processJob] calls. *)

Module JobRunner.
Import JobQueue.

Section Runner.
Variable Data : Type.
Variable Result : Type.

(** The service as its constructor leaves it. *)
Definition fresh : service Data := Service false ∅.

(** [initialize()] (lines 16-57), from the value of [USE_JOB_QUEUE] and
    whether Redis answers the ping: with the queue switched on and Redis
    there, four queues are opened; otherwise the service stays without.
    [ids] is BullMQ's numbering of the jobs of each queue. *)
Definition initialize (USE_JOB_QUEUE : option string) (redis_answers : bool)
    (ids : string -> nat -> Z) : service Data :=
  match USE_JOB_QUEUE with
  | Some flag =>
      if String.eqb flag "true" then
        if redis_answers then
          Service true
            (<["ai" := Queue [] (ids "ai")]>
               (<["upload" := Queue [] (ids "upload")]>
                  (<["video" := Queue [] (ids "video")]>
                     (<["audio" := Queue [] (ids "audio")]> (queues fresh)))))
        else Service false (queues fresh)
      else Service false (queues fresh)
  | None => Service false (queues fresh)
  end.

(** What BullMQ knows of a job besides what [add] stored: its state, its
    progress, and its return value or failure. *)
Record runtime := Runtime {
  job_state : string;
  job_progress : option Z;
  returnvalue : option Result;
  failedReason : option string
}.

(** What [getJobStatus] returns. *)
Inductive status :=
| Unknown                        (* {status: 'unknown', message: 'Queue not available'} *)
| NotFound                       (* {status: 'not_found'} *)
| Snapshot (id : Z) (name : string) (state : string) (progress : option Z)
           (data : Data) (returnvalue : option Result)
           (failedReason : option string).

(** [getJobStatus(queueName, jobId)] (lines 213-236): the status returned,
    or the error thrown.  [getJob] is what BullMQ answers to
    [queue.getJob(jobId)] on the queue of that name: nothing, or a job and
    what it knows of it.  On a truthy [this.queues[queueName]] that is no
    queue, [getJob] is not a function. *)
Definition getJobStatus (getJob : string -> Z -> option (job Data * runtime))
    (svc : service Data) (queueName : string) (jobId : Z) : status + thrown :=
  if isRedisAvailable svc then
    match read svc queueName with
    | Undefined => inl Unknown
    | Inherited =>
        inr (WithMessage "this.queues[queueName].getJob is not a function")
    | Opened _ =>
        match getJob queueName jobId with
        | None => inl NotFound
        | Some (j, r) =>
            inl (Snapshot (job_id Data j) (job_name Data j) (job_state r)
                   (job_progress r) (job_data Data j) (returnvalue r)
                   (failedReason r))
        end
    end
  else inl Unknown.

(** What goes out on the socket, each to the room of its job. *)
Inductive emission :=
| JobProgress (room : string) (jobId : Z) (progress : Z) (status : string)
              (message : string) (timestamp : string)
| JobCompleted (room : string) (jobId : Z) (result : Result)
               (timestamp : string)
| JobFailed (room : string) (jobId : Z) (error : string + thrown)
            (timestamp : string).

(** A processor as the worker sees it: the calls of [updateProgress] it
    makes, and how it ends. *)
Definition reporting_processor : Type :=
  Data -> list (Z * string) * (Result + thrown).

Section Sockets.
Variable show_id : Z -> string.
Variable io : bool.               (* whether SocketService was initialized *)
Variable clock : nat -> string.   (* [new Date().toISOString()], by emission *)

Definition room (jobId : Z) : string := "job:" +:+ show_id jobId.

(** [emitJobProgress(jobId, {progress, status, message})]
    (socketService.js, lines 55-64). *)
Definition emitJobProgress (jobId : Z) (progress : Z) (status message : string)
    (sent : list emission) : list emission :=
  if io
  then sent ++ [JobProgress (room jobId) jobId progress status message
                  (clock (length sent))]
  else sent.

(** [emitJobCompleted(jobId, result)] (lines 69-76). *)
Definition emitJobCompleted (jobId : Z) (result : Result)
    (sent : list emission) : list emission :=
  if io
  then sent ++ [JobCompleted (room jobId) jobId result (clock (length sent))]
  else sent.

(** [error.message || error]: the message if there is one that is not
    empty, else the value thrown; reading it off [null] throws. *)
Definition failure_text (error : thrown) : thrown + (string + thrown) :=
  match message_of error with
  | inl typeError => inl typeError
  | inr (Some m) => if String.eqb m "" then inr (inr error) else inr (inl m)
  | inr None => inr (inr error)
  end.

(** [emitJobFailed(jobId, error)] (lines 81-88): the emissions after it, or
    what it throws. *)
Definition emitJobFailed (jobId : Z) (error : thrown) (sent : list emission)
  : thrown + list emission :=
  if io then
    match failure_text error with
    | inl typeError => inl typeError
    | inr text =>
        inr (sent ++ [JobFailed (room jobId) jobId text (clock (length sent))])
    end
  else inr sent.

(** The [updateProgress] that [processJob] hands to the processor: it
    stores the progress in the job and emits it. *)
Definition updateProgress (jobId : Z) (acc : option Z * list emission)
    (call : Z * string) : option Z * list emission :=
  (Some (fst call),
   emitJobProgress jobId (fst call) "processing" (snd call) (snd acc)).

(** How [processJob] ends for BullMQ. *)
Inductive verdict :=
| Succeeds (result : Result)
| Throws (error : thrown).

(** [processJob(job, processor)] (part_003, lines 110-143): the progress
    stored in the job, the emissions, and the result returned or the error
    thrown to BullMQ. *)
Definition processJob (j : job Data) (p : reporting_processor)
  : option Z * list emission * verdict :=
  let (calls, ending) := p (job_data Data j) in
  let (stored, sent) :=
    fold_left (updateProgress (job_id Data j)) calls (None, []) in
  match ending with
  | inl result =>
      (stored, emitJobCompleted (job_id Data j) result sent, Succeeds result)
  | inr error =>
      match emitJobFailed (job_id Data j) error sent with
      | inr sent' => (stored, sent', Throws error)
      | inl typeError => (stored, sent, Throws typeError)
      end
  end.

End Sockets.

End Runner.

End JobRunner.

(** ** Which submissions are queued *)

Section QueueOrInline.
Import JobQueue JobRunner.
Variable Data : Type.
Variable Result : Type.

(** The queues that [initialize] opens. *)
Definition opened_queues : list string := ["audio"; "video"; "upload"; "ai"].

Lemma opened_not_inherited (queueName : string) :
  queueName ∈ opened_queues -> Js.inherited queueName = false.
Proof.
  unfold opened_queues. intros Hin.
  repeat (apply elem_of_cons in Hin as [->|Hin]; [reflexivity|]).
  by apply elem_of_nil in Hin.
Qed.

Lemma initialize_read (flag : option string) (redis_answers : bool)
    (ids : string -> nat -> Z) (queueName : string) :
  let svc := initialize Data flag redis_answers ids in
  (isRedisAvailable svc
   = bool_decide (flag = Some "true" /\ redis_answers = true))
  /\ read svc queueName
     = if decide (flag = Some "true" /\ redis_answers = true
                  /\ queueName ∈ opened_queues)
       then Opened (Queue [] (ids queueName))
       else if Js.inherited queueName then Inherited else Undefined.
Proof.
  intros svc. subst svc. split.
  - unfold initialize. destruct flag as [flag|]; [|done].
    destruct (String.eqb flag "true") eqn:Hflag.
    + apply String.eqb_eq in Hflag as ->. destruct redis_answers.
      * by rewrite bool_decide_eq_true_2.
      * rewrite bool_decide_eq_false_2; [done|]. by intros [_ ?].
    + apply String.eqb_neq in Hflag.
      rewrite bool_decide_eq_false_2; [done|]. intros [[= ->] _]. done.
  - destruct (decide (flag = Some "true" /\ redis_answers = true
                      /\ queueName ∈ opened_queues)) as [H|H].
    + destruct H as (-> & -> & Hin). unfold opened_queues in Hin.
      repeat (apply elem_of_cons in Hin as [->|Hin]; [done|]).
      by apply elem_of_nil in Hin.
    + unfold read.
      assert (queues (initialize Data flag redis_answers ids) !! queueName
              = None) as ->; [|done].
      unfold initialize, fresh. destruct flag as [flag|]; [|done].
      destruct (String.eqb flag "true") eqn:Hflag; [|done].
      apply String.eqb_eq in Hflag as ->.
      destruct redis_answers; [|done]. cbn [queues].
      assert (queueName ∉ opened_queues) as Hnot by (intros Hin; by apply H).
      unfold opened_queues in Hnot.
      rewrite !not_elem_of_cons in Hnot. destruct Hnot as (? & ? & ? & ? & _).
      by rewrite !lookup_insert_ne.
Qed.

(** Queued, refused or inline.  After [initialize], with [USE_JOB_QUEUE]
    'true' and a Redis that answered the ping, a submission to 'audio',
    'video', 'upload' or 'ai' is queued: the job is added with the name and
    data given, three attempts and exponential backoff from 2000 ms, and
    the call returns the id BullMQ assigned to it, whatever the processor
    would do.  With the same service, a queue name that every object
    inherits as a property ('constructor', 'toString', ...) makes [addJob]
    and [getJobStatus] raise a [TypeError], and the service is as before.
    In every other case, a Redis that does not answer and the queue name
    'youtube' of the upload route among them, the processor runs inside
    [addJob], whose outcome is then the processor's: a result comes back as
    'completed' and the service is as before, and [getJobStatus] has
    nothing to say ('unknown'). *)
Theorem queued_or_inline (flag : option string) (redis_answers : bool)
    (ids : string -> nat -> Z) (queueName jobName : string) (data : Data)
    (f : Data -> Result + thrown)
    (getJob : string -> Z -> option (job Data * runtime Result)) :
  let svc := initialize Data flag redis_answers ids in
  let r := addJob svc queueName jobName data (Some f) in
  let up := flag = Some "true" /\ redis_answers = true in
  (up /\ queueName ∈ opened_queues ->
   snd r = Returns (Queued (ids queueName 0%nat))
   /\ (exists q,
         queues (fst r) !! queueName = Some q
         /\ added q = [Job Data (ids queueName 0%nat) jobName data 3
                         "exponential" 2000]))
  /\ (up /\ Js.inherited queueName = true ->
      r = (svc, Raises (WithMessage
                          "this.queues[queueName].add is not a function"))
      /\ (forall jobId,
            getJobStatus Data Result getJob svc queueName jobId
            = inr (WithMessage
                     "this.queues[queueName].getJob is not a function")))
  /\ (~ up \/ ((queueName ∉ opened_queues) /\ Js.inherited queueName = false) ->
      fst r = svc
      /\ (forall result, f data = inl result ->
                         snd r = Returns (Completed result))
      /\ (forall jobId,
            getJobStatus Data Result getJob svc queueName jobId
            = inl (Unknown Data Result))).
Proof.
  intros svc r up. subst r.
  destruct (initialize_read flag redis_answers ids queueName) as [Hav Hread].
  fold svc in Hav, Hread. fold up in Hav.
  assert (Hinline : forall svc0 : service Data,
            fst (process_inline Data Result svc0 data (Some f)) = svc0
            /\ (forall result, f data = inl result ->
                  snd (process_inline Data Result svc0 data (Some f))
                  = Returns (Completed result))).
  { intros svc0. unfold process_inline, call.
    destruct (f data) as [result|error]; simpl.
    - split; [done|]. by intros result' [= ->].
    - split; [by destruct (message_of error)|]. by intros result [=]. }
  unfold addJob, getJobStatus. rewrite Hav, Hread. split_and!.
  - intros [Hup Hin]. rewrite bool_decide_eq_true_2 by exact Hup.
    rewrite decide_True by (destruct Hup; done). cbn.
    split; [done|]. eexists. split; [apply lookup_insert_eq|done].
  - intros [Hup Hinh]. rewrite bool_decide_eq_true_2 by exact Hup.
    rewrite decide_False.
    + by rewrite Hinh.
    + intros (_ & _ & Hin). apply opened_not_inherited in Hin. congruence.
  - intros [Hdown|[Hnot Hinh]].
    + rewrite bool_decide_eq_false_2 by exact Hdown.
      destruct (Hinline svc) as [H1 H2]. by split_and!.
    + destruct (bool_decide up).
      * rewrite decide_False by (intros (_ & _ & Hin); by apply Hnot).
        rewrite Hinh. destruct (Hinline svc) as [H1 H2]. by split_and!.
      * destruct (Hinline svc) as [H1 H2]. by split_and!.
Qed.

End QueueOrInline.

(** The upload route submits to 'youtube', which is never opened. *)
Lemma queued_or_inline_witness :
  let svc := JobRunner.initialize unit (Some "true") true
               (fun _ n => Z.of_nat n + 1)%Z in
  JobQueue.addJob svc "youtube" "upload" tt (Some (fun _ => inl 7%Z))
  = (svc, JobQueue.Returns (JobQueue.Completed 7%Z))
  /\ JobQueue.addJob (Result := Z) svc "constructor" "upload" tt
       (Some (fun _ => inl 7%Z))
     = (svc, JobQueue.Raises
               (JobQueue.WithMessage
                  "this.queues[queueName].add is not a function")).
Proof.
  intros svc.
  destruct (queued_or_inline unit Z (Some "true") true
              (fun _ n => Z.of_nat n + 1)%Z "youtube" "upload" tt
              (fun _ => inl 7%Z) (fun _ _ => None))
    as (_ & _ & Hinline).
  destruct Hinline as (Hsvc & Hres & _).
  { right. split; [|reflexivity]. unfold opened_queues. intros Hin.
    repeat (apply elem_of_cons in Hin as [Hin|Hin]; [discriminate|]).
    by apply elem_of_nil in Hin. }
  destruct (queued_or_inline unit Z (Some "true") true
              (fun _ n => Z.of_nat n + 1)%Z "constructor" "upload" tt
              (fun _ => inl 7%Z) (fun _ _ => None))
    as (_ & Hrefused & _).
  destruct Hrefused as [Hraise _]; [by split|].
  fold svc in Hsvc, Hres. split; [|exact Hraise].
  rewrite (surjective_pairing (JobQueue.addJob _ _ _ _ _)).
  by rewrite Hsvc, (Hres 7%Z eq_refl).
Defined.

(** ** The worker's reports *)

Section WorkerReports.
Import JobQueue JobRunner.
Variable Data : Type.
Variable Result : Type.
Variable show_id : Z -> string.
Variable clock : nat -> string.

Let processJob := processJob Data Result show_id.
Let room := room show_id.

(** The progress emissions for some calls of [updateProgress], the first of
    them being emission number [k]. *)
Definition progress_emissions (jobId : Z) (k : nat) (calls : list (Z * string))
  : list (emission Result) :=
  imap (fun i call =>
          JobProgress Result (room jobId) jobId (fst call) "processing"
                      (snd call) (clock (k + i))) calls.

Lemma updateProgress_fold (io : bool) (jobId : Z) (calls : list (Z * string))
    (stored : option Z) (sent : list (emission Result)) :
  fold_left (updateProgress Result show_id io clock jobId) calls (stored, sent)
  = (match last calls with
     | Some call => Some (fst call)
     | None => stored
     end,
     if io then sent ++ progress_emissions jobId (length sent) calls else sent).
Proof.
  revert stored sent. induction calls as [|call calls IH]; intros stored sent.
  - simpl. destruct io; [by rewrite app_nil_r|done].
  - cbn [fold_left]. unfold updateProgress at 2. cbn [fst snd].
    rewrite IH. f_equal.
    + destruct calls as [|c calls]; [done|]. rewrite last_cons_cons.
      destruct (last (c :: calls)) eqn:E; [done|].
      apply last_None in E. discriminate.
    + unfold emitJobProgress, progress_emissions. destruct io; [|done].
      rewrite <- app_assoc. f_equal. simpl. rewrite Nat.add_0_r. f_equal.
      apply imap_ext. intros i c _. simpl. rewrite length_app. simpl.
      do 2 f_equal. lia.
Qed.

(** The worker reports in order.  For a job whose processor calls
    [updateProgress] some number of times and then returns, or throws
    anything but [null]: with the socket server up, one progress emission
    goes to the job's room per call, in order, each with status
    'processing', followed by exactly one closing emission, 'completed'
    with the result or 'failed' with the error's message; the progress kept
    in the job is that of the last call; and BullMQ gets the result, or the
    very error the processor threw, to count the attempt.  With the socket
    server down nothing is emitted and the rest is the same. *)
Theorem worker_reports_in_order (io : bool) (j : job Data)
    (p : reporting_processor Data Result) (calls : list (Z * string))
    (ending : Result + thrown) :
  p (job_data Data j) = (calls, ending) ->
  ending <> inr Nullish ->
  let jobId := job_id Data j in
  let closing :=
    match ending with
    | inl result =>
        JobCompleted Result (room jobId) jobId result (clock (length calls))
    | inr error =>
        JobFailed Result (room jobId) jobId
          match error with
          | WithMessage m => if String.eqb m "" then inr error else inl m
          | _ => inr error
          end (clock (length calls))
    end in
  processJob io clock j p
  = (match last calls with
     | Some call => Some (fst call)
     | None => None
     end,
     if io then progress_emissions jobId 0 calls ++ [closing] else [],
     match ending with
     | inl result => Succeeds Result result
     | inr error => Throws Result error
     end).
Proof.
  intros Hp Hnull jobId closing. subst closing.
  unfold processJob, JobRunner.processJob. rewrite Hp.
  rewrite updateProgress_fold. fold jobId. simpl.
  assert (length (progress_emissions jobId 0 calls) = length calls) as Hlen
    by apply length_imap.
  destruct ending as [result|error].
  - unfold emitJobCompleted. destruct io; [|done]. by rewrite Hlen.
  - unfold emitJobFailed, failure_text. destruct io; [|done].
    destruct error as [m| |]; simpl; [| |done].
    + destruct (String.eqb m ""); by rewrite Hlen.
    + by rewrite Hlen.
Qed.

End WorkerReports.

Lemma worker_reports_in_order_witness :
  JobRunner.processJob unit Z (fun _ => "7") true (fun _ => "now")
    (JobQueue.Job unit 7 "generate" tt 3 "exponential" 2000)
    (fun _ => ([(10%Z, "a"); (50%Z, "b")], inr (JobQueue.WithMessage "boom")))
  = (Some 50%Z,
     [JobRunner.JobProgress Z "job:7" 7 10 "processing" "a" "now";
      JobRunner.JobProgress Z "job:7" 7 50 "processing" "b" "now";
      JobRunner.JobFailed Z "job:7" 7 (inl "boom") "now"],
     JobRunner.Throws Z (JobQueue.WithMessage "boom")).
Proof.
  apply (worker_reports_in_order unit Z (fun _ => "7") (fun _ => "now") true
           (JobQueue.Job unit 7 "generate" tt 3 "exponential" 2000)
           (fun _ => ([(10%Z, "a"); (50%Z, "b")],
                      inr (JobQueue.WithMessage "boom")))
           [(10%Z, "a"); (50%Z, "b")] (inr (JobQueue.WithMessage "boom"))
           eq_refl).
  discriminate.
Defined.

(** * The rest of AudioService *)

(** ** [getAllStemsByCategory] *)

Module Catalogue.

(** A category that is the name of a property every object inherits. *)
Definition inherited (c : string) : bool := Js.inherited c.

Section Grouping.
Variable Row : Type.
Variable category : Row -> string.

(** What [grouped[key]] reads. *)
Inductive slot : Type :=
  | Own (group : list Row)
  | Inherited
  | Undefined.

Definition read (grouped : gmap string (list Row)) (key : string) : slot :=
  match grouped !! key with
  | Some group => Own group
  | None => if inherited key then Inherited else Undefined
  end.

(** The body of [rows.forEach] in [getAllStemsByCategory] (aiService.js,
    lines 577-582).  An array and an inherited function are both truthy, so
    a group is started only where the read gives [undefined]; [push] is then
    called on whatever the second read gives, which raises a [TypeError]
    ([None]) if that is not an array. *)
Definition push_row (grouped : gmap string (list Row)) (stem : Row)
  : option (gmap string (list Row)) :=
  let grouped :=
    match read grouped (category stem) with
    | Undefined => <[category stem := []]> grouped
    | _ => grouped
    end in
  match read grouped (category stem) with
  | Own group => Some (<[category stem := group ++ [stem]]> grouped)
  | _ => None
  end.

(** [rows.forEach(...)] from a given [grouped]: an exception leaves the loop. *)
Fixpoint for_each (rows : list Row) (grouped : gmap string (list Row))
  : option (gmap string (list Row)) :=
  match rows with
  | [] => Some grouped
  | stem :: rows =>
      match push_row grouped stem with
      | Some grouped => for_each rows grouped
      | None => None
      end
  end.

(** [getAllStemsByCategory()], from the rows the query returns; [None] when
    the callback of [db.all] throws, so that the promise is never settled. *)
Definition getAllStemsByCategory (rows : list Row)
  : option (gmap string (list Row)) :=
  for_each rows ∅.

(** The rows of one category, in the order of the query. *)
Definition of_category (c : string) (rows : list Row) : list Row :=
  List.filter (fun stem => String.eqb (category stem) c) rows.

End Grouping.

Arguments Own {Row}.
Arguments Inherited {Row}.
Arguments Undefined {Row}.

End Catalogue.

Section GroupingFacts.
Import Catalogue.
Variable Row : Type.
Variable category : Row -> string.

Let push_row := push_row Row category.
Let for_each := for_each Row category.
Let of_category := of_category Row category.

(** No own property of [grouped] has an inherited name. *)
Definition plain (grouped : gmap string (list Row)) : Prop :=
  forall c, inherited c = true -> grouped !! c = None.

Lemma push_row_inherited (grouped : gmap string (list Row)) (stem : Row) :
  plain grouped -> inherited (category stem) = true ->
  push_row grouped stem = None.
Proof.
  intros Hplain Hin. unfold push_row, Catalogue.push_row, read.
  rewrite (Hplain _ Hin), Hin. cbn. by rewrite ?(Hplain _ Hin), ?Hin.
Qed.

Lemma push_row_plain (grouped : gmap string (list Row)) (stem : Row) :
  plain grouped -> inherited (category stem) = false ->
  exists grouped',
    push_row grouped stem = Some grouped' /\ plain grouped' /\
    forall c,
      grouped' !! c
      = if String.eqb (category stem) c
        then Some (default [] (grouped !! c) ++ [stem])
        else grouped !! c.
Proof.
  intros Hplain Hout. unfold push_row, Catalogue.push_row, read.
  destruct (grouped !! category stem) as [group|] eqn:Hg.
  - rewrite Hg. eexists. split; [done|]. split.
    + intros c Hc. rewrite lookup_insert_ne; [by apply Hplain|congruence].
    + intros c. destruct (String.eqb (category stem) c) eqn:E.
      * apply String.eqb_eq in E as <-. by rewrite lookup_insert_eq, Hg.
      * apply String.eqb_neq in E. by rewrite lookup_insert_ne.
  - rewrite Hout, lookup_insert_eq. eexists. split; [done|]. split.
    + intros c Hc. rewrite !lookup_insert_ne by congruence. by apply Hplain.
    + intros c. destruct (String.eqb (category stem) c) eqn:E.
      * apply String.eqb_eq in E as <-. by rewrite lookup_insert_eq, Hg.
      * apply String.eqb_neq in E. by rewrite !lookup_insert_ne.
Qed.

Lemma grouping_lookup (rows : list Row) (grouped : gmap string (list Row)) :
  plain grouped ->
  match for_each rows grouped with
  | Some grouped' =>
      Forall (fun stem => inherited (category stem) = false) rows /\
      forall c,
        grouped' !! c
        = match grouped !! c, of_category c rows with
          | None, [] => None
          | found, group => Some (default [] found ++ group)
          end
  | None => Exists (fun stem => inherited (category stem) = true) rows
  end.
Proof.
  revert grouped. induction rows as [|stem rows IH]; intros grouped Hplain.
  - simpl. split; [constructor|]. intros c.
    destruct (grouped !! c); simpl; [by rewrite app_nil_r|done].
  - cbn [for_each Catalogue.for_each]. fold push_row.
    destruct (inherited (category stem)) eqn:Hin.
    + rewrite (push_row_inherited _ _ Hplain Hin). by constructor.
    + destruct (push_row_plain _ _ Hplain Hin) as (g & -> & Hg & Hlook).
      fold (Catalogue.for_each Row category rows g). fold (for_each rows g).
      specialize (IH g Hg). destruct (for_each rows g) as [g'|].
      * destruct IH as [Hall IH]. split; [by constructor|].
        intros c. rewrite IH, Hlook.
        unfold of_category, Catalogue.of_category. cbn [List.filter].
        destruct (String.eqb (category stem) c); [|done].
        fold (of_category c rows).
        destruct (grouped !! c) as [group|]; simpl; [|done].
        by rewrite <- app_assoc.
      * by constructor 2.
Qed.

(** Grouping loses and invents nothing, unless a category carries the name
    of a property every object inherits.  When [getAllStemsByCategory]
    resolves, no row has such a category, the group under a category is
    exactly the rows of that category in the order the query gave them, and
    a category without rows has no group.  When it does not resolve, some
    row's category is the name of an inherited property ([constructor],
    [toString], ...), on which [push] is not a function. *)
Theorem groups_are_the_categories (rows : list Row) :
  match getAllStemsByCategory Row category rows with
  | Some grouped =>
      Forall (fun stem => inherited (category stem) = false) rows /\
      forall c,
        grouped !! c
        = match of_category c rows with
          | [] => None
          | group => Some group
          end
  | None => Exists (fun stem => inherited (category stem) = true) rows
  end.
Proof.
  unfold getAllStemsByCategory.
  pose proof (grouping_lookup rows ∅) as H. fold for_each.
  destruct (for_each rows ∅) as [grouped|].
  - destruct H as [Hall H]; [by intros c _; apply lookup_empty|].
    split; [done|]. intros c. rewrite H, lookup_empty.
    by destruct (of_category c rows).
  - apply H. intros c _. apply lookup_empty.
Qed.

End GroupingFacts.

(** * Housekeeping of the video service *)

(** ** [cleanupTempFiles] *)

Module TempFiles.

(** An entry of the temp directory, under its name, with the [mtimeMs] that
    [fs.stat] reports for it. *)
Inductive dirent :=
| File (mtimeMs : Q)
| Directory (mtimeMs : Q).

Definition mtimeMs (e : dirent) : Q :=
  match e with
  | File m | Directory m => m
  end.

(** How the call ends: [{ cleaned }], or the rejection of [fs.stat] or
    [fs.unlink] with its error code. *)
Inductive ending :=
| Cleaned (cleaned : nat)
| Fails (code : string).

Section Cleanup.
Variable now : Q.              (* Date.now() *)
Variable olderThanHours : Q.

Definition threshold : Q := olderThanHours * 60 * 60 * 1000.

(** [now - stats.mtimeMs > threshold]. *)
Definition expired (e : dirent) : bool :=
  negb (Qle_bool (now - mtimeMs e) threshold).

(** The body of the loop: [fs.stat] rejects for a name that is not there,
    [fs.unlink] for a directory. *)
Definition visit (dir : gmap string dirent) (cleaned : nat) (file : string)
  : gmap string dirent * (nat + string) :=
  match dir !! file with
  | None => (dir, inr "ENOENT")
  | Some e =>
      if expired e then
        match e with
        | File _ => (delete file dir, inl (S cleaned))
        | Directory _ => (dir, inr "EISDIR")
        end
      else (dir, inl cleaned)
  end.

(** [for (const file of files) { ... }]. *)
Fixpoint sweep (files : list string) (dir : gmap string dirent)
    (cleaned : nat) : gmap string dirent * ending :=
  match files with
  | [] => (dir, Cleaned cleaned)
  | file :: files =>
      match visit dir cleaned file with
      | (dir, inl cleaned) => sweep files dir cleaned
      | (dir, inr code) => (dir, Fails code)
      end
  end.

End Cleanup.

(** [cleanupTempFiles(olderThanHours = 24)] (part_004, lines 365-384), given
    what [fs.readdir] lists and the reading of [Date.now()]: the temp
    directory afterwards and how the call ends. *)
Definition cleanupTempFiles (olderThanHours : option Q) (now : Q)
    (files : list string) (dir : gmap string dirent)
  : gmap string dirent * ending :=
  sweep now (default 24 olderThanHours) files dir 0.

(** [files] is what [fs.readdir] gives for [dir]: every name once. *)
Definition listing (files : list string) (dir : gmap string dirent) : Prop :=
  NoDup files /\ forall f, f ∈ files <-> is_Some (dir !! f).

End TempFiles.

Section TempFileFacts.
Import TempFiles.
Variable now : Q.
Variable hours : Q.

Let expired := expired now hours.

(** No directory of [dir] is older than the threshold. *)
Definition only_old_files (dir : gmap string dirent) : Prop :=
  forall f m, dir !! f = Some (Directory m) -> expired (Directory m) = false.

Lemma sweep_spec (files : list string) (dir : gmap string dirent)
    (cleaned : nat) :
  NoDup files -> (forall f, f ∈ files -> is_Some (dir !! f)) ->
  only_old_files dir ->
  exists dir' n,
    sweep now hours files dir cleaned = (dir', Cleaned (cleaned + n))
    /\ (forall f,
          dir' !! f
          = match dir !! f with
            | Some e =>
                if bool_decide (f ∈ files) && expired e then None else Some e
            | None => None
            end)
    /\ size dir = (size dir' + n)%nat.
Proof.
  revert dir cleaned.
  induction files as [|file files IH]; intros dir cleaned Hnd Hin Hdirs.
  - exists dir, 0%nat. simpl. rewrite Nat.add_0_r. split_and!; [done| |lia].
    intros f. by destruct (dir !! f).
  - apply NoDup_cons in Hnd as [Hfresh Hnd].
    destruct (Hin file) as [e He]; [by left|].
    cbn [sweep]. unfold visit. rewrite He. fold (expired e).
    destruct (expired e) eqn:Hexp.
    + destruct e as [m|m]; [|by rewrite (Hdirs _ _ He) in Hexp].
      destruct (IH (delete file dir) (S cleaned) Hnd) as (dir' & n & Hrun & Hlook & Hsize).
      * intros f Hf. rewrite lookup_delete_ne; [|by intros ->].
        apply Hin. by right.
      * intros f m' Hf. apply lookup_delete_Some in Hf as [_ Hf].
        by apply (Hdirs f).
      * exists dir', (S n). split_and!.
        -- rewrite Hrun. do 2 f_equal. lia.
        -- intros f. rewrite Hlook. destruct (decide (f = file)) as [->|Hne].
           ++ rewrite lookup_delete_eq, He, Hexp.
              rewrite bool_decide_eq_true_2; [done|by left].
           ++ rewrite lookup_delete_ne by done.
              destruct (dir !! f) as [e'|]; [|done].
              rewrite (bool_decide_ext (f ∈ file :: files) (f ∈ files)); [done|].
              rewrite elem_of_cons. tauto.
        -- rewrite map_size_delete_Some in Hsize by done.
           assert (size dir <> 0)%nat; [|lia].
           intros Hz. apply map_size_empty_inv in Hz. subst dir.
           by rewrite lookup_empty in He.
    + destruct (IH dir cleaned Hnd) as (dir' & n & Hrun & Hlook & Hsize).
      * intros f Hf. apply Hin. by right.
      * done.
      * exists dir', n. split_and!; [done| |done].
        intros f. rewrite Hlook. destruct (decide (f = file)) as [->|Hne].
        -- rewrite He, Hexp, !andb_false_r. done.
        -- destruct (dir !! f) as [e'|]; [|done].
           rewrite (bool_decide_ext (f ∈ file :: files) (f ∈ files)); [done|].
           rewrite elem_of_cons. tauto.
Qed.

End TempFileFacts.

(** The sweep removes exactly the old files.  When [fs.readdir] lists the
    temp directory and no directory in it is older than the threshold,
    [cleanupTempFiles] ends with a count; what is left is every entry that
    is not older than the threshold, untouched; the count is the number of
    entries that went; and a second sweep at the same moment removes
    nothing and reports 0. *)
Theorem old_temp_files_are_swept (olderThanHours : option Q) (now : Q)
    (files : list string) (dir : gmap string TempFiles.dirent) :
  TempFiles.listing files dir ->
  only_old_files now (default 24 olderThanHours) dir ->
  exists dir' cleaned,
    TempFiles.cleanupTempFiles olderThanHours now files dir
    = (dir', TempFiles.Cleaned cleaned)
    /\ (forall f,
          dir' !! f
          = match dir !! f with
            | Some e =>
                if TempFiles.expired now (default 24 olderThanHours) e
                then None else Some e
            | None => None
            end)
    /\ size dir = (size dir' + cleaned)%nat
    /\ forall files',
         TempFiles.listing files' dir' ->
         TempFiles.cleanupTempFiles olderThanHours now files' dir'
         = (dir', TempFiles.Cleaned 0).
Proof.
  intros [Hnd Hlist] Hdirs. unfold TempFiles.cleanupTempFiles.
  set (hours := default 24 olderThanHours) in *.
  destruct (sweep_spec now hours files dir 0 Hnd) as (dir' & n & Hrun & Hlook & Hsize);
    [by intros f Hf; apply Hlist|done|].
  assert (Hleft : forall f,
            dir' !! f
            = match dir !! f with
              | Some e => if TempFiles.expired now hours e then None else Some e
              | None => None
              end).
  { intros f. rewrite Hlook. destruct (dir !! f) as [e|] eqn:He; [|done].
    rewrite bool_decide_eq_true_2; [done|]. apply Hlist. by rewrite He. }
  exists dir', n. split_and!; [done|done|done|].
  intros files' [Hnd' Hlist'].
  destruct (sweep_spec now hours files' dir' 0 Hnd') as (dir'' & n' & Hrun' & Hlook' & Hsize').
  { by intros f Hf; apply Hlist'. }
  { intros f m Hf. rewrite Hleft in Hf.
    destruct (dir !! f) as [e|] eqn:He; [|done].
    destruct (TempFiles.expired now hours e) eqn:Hexp; [done|].
    by injection Hf as ->. }
  assert (dir'' = dir') as ->.
  { apply map_eq. intros f. rewrite Hlook'.
    destruct (dir' !! f) as [e|] eqn:He'; [|done].
    rewrite Hleft in He'. destruct (dir !! f) as [e0|]; [|done].
    destruct (TempFiles.expired now hours e0) eqn:Hexp; [done|].
    injection He' as ->. by rewrite Hexp, andb_false_r. }
  rewrite Hrun'. do 2 f_equal. lia.
Qed.

Lemma old_temp_files_are_swept_witness :
  exists dir' cleaned,
    TempFiles.cleanupTempFiles None 100000000 ["concat_1.txt"; "reversed_2.mp4"]
      {[ "concat_1.txt" := TempFiles.File 1000;
         "reversed_2.mp4" := TempFiles.File 99000000 ]}
    = (dir', TempFiles.Cleaned cleaned)
    /\ dir' !! "concat_1.txt" = None
    /\ dir' !! "reversed_2.mp4" = Some (TempFiles.File 99000000).
Proof.
  destruct (old_temp_files_are_swept None 100000000
              ["concat_1.txt"; "reversed_2.mp4"]
              {[ "concat_1.txt" := TempFiles.File 1000;
                 "reversed_2.mp4" := TempFiles.File 99000000 ]})
    as (dir' & cleaned & Hrun & Hlook & _).
  - split.
    + apply (bool_decide_unpack _). by vm_compute.
    + intros f. rewrite !elem_of_cons, elem_of_nil.
      split.
      * intros [->|[->|[]]]; by eexists.
      * intros [e He].
        destruct (decide (f = "concat_1.txt")) as [->|H1]; [by left|].
        destruct (decide (f = "reversed_2.mp4")) as [->|H2]; [by right; left|].
        rewrite lookup_insert_ne, lookup_singleton_ne in He by done. done.
  - intros f m Hf.
    destruct (decide (f = "concat_1.txt")) as [->|H1]; [done|].
    destruct (decide (f = "reversed_2.mp4")) as [->|H2]; [done|].
    rewrite lookup_insert_ne, lookup_singleton_ne in Hf by done. done.
  - exists dir', cleaned. split; [exact Hrun|].
    split; rewrite Hlook; reflexivity.
Defined.

(** ** [deleteVideo] *)

Module Deletion.

(** How a deletion ends: [{ success: true, message }], or the error
    thrown. *)
Inductive deletion :=
| Deleted (message : string)
| NotFound (errMessage : string).

Section DeleteVideo.
Variable path_join : string -> string -> string.
Variable videoOutputDir : string.

(** [deleteVideo(fileName)] (part_004, lines 349-360). *)
Definition deleteVideo (fileName : string) (st : VideoService.state)
  : VideoService.state * deletion :=
  let filePath := path_join videoOutputDir fileName in
  if exists_on_disk filePath st
  then (VideoService.State (delete filePath (VideoService.disk st))
          (VideoService.Unlink filePath :: trace st),
        Deleted "Video deleted")
  else (st, NotFound "Video file not found").

End DeleteVideo.

End Deletion.

Section AssembleThenDelete.
Import DiskFacts Deletion.
Variable video_info : Type.
Variable show : Q -> string.
Variable path_resolve : string -> string.
Variable path_join : string -> string -> string.
Variable slashes : string -> string.
Variable videoOutputDir : string.

Let assembleVideo :=
  VideoService.assembleVideo video_info show path_resolve path_join slashes
    videoOutputDir.
Let merge_and_finish :=
  VideoService.merge_and_finish video_info show path_resolve path_join slashes
    videoOutputDir.
Let reversedVideoPath :=
  VideoService.reversedVideoPath video_info show path_join videoOutputDir.
Let concatListPath :=
  VideoService.concatListPath video_info show path_join videoOutputDir.
Let output_name := VideoService.output_name video_info show.
Let output_path := output_path video_info show path_join videoOutputDir.
Let deleteVideo := deleteVideo path_join videoOutputDir.

Lemma returned_output (cfg : VideoService.config) (progressCallback : bool)
    (w : VideoService.world video_info) (res : result video_info) :
  snd (assembleVideo cfg progressCallback w) = Returned res ->
  output_path cfg w <> reversedVideoPath w ->
  output_path cfg w <> concatListPath w ->
  VideoService.fileName _ res = output_name cfg w
  /\ VideoService.outputPath _ res = output_path cfg w
  /\ VideoService.disk (fst (assembleVideo cfg progressCallback w))
       !! output_path cfg w
     = Some (VideoService.fileSize _ res).
Proof.
  intros Hret Hr Hc. revert Hret.
  unfold assembleVideo, VideoService.assembleVideo.
  destruct (negb (exists_on_disk (videoPath cfg) _)); [by intros [=]|].
  destruct (negb (exists_on_disk (audioPath cfg) _)); [by intros [=]|].
  destruct (audioDuration cfg) as [target|]; [|by intros [=]].
  destruct (_ || _); [by intros [=]|].
  assert (Hfinish : forall plan st,
            let r := merge_and_finish cfg progressCallback w target plan st in
            snd (let (st', out) := r in
                 match out with
                 | Diverges => (st', Diverges)
                 | _ => (VideoService.cleanup video_info show path_join
                           videoOutputDir w st', out)
                 end) = Returned res ->
            VideoService.fileName _ res = output_name cfg w
            /\ VideoService.outputPath _ res = output_path cfg w
            /\ VideoService.disk
                 (fst (let (st', out) := r in
                       match out with
                       | Diverges => (st', Diverges)
                       | _ => (VideoService.cleanup video_info show path_join
                                 videoOutputDir w st', out)
                       end)) !! output_path cfg w
               = Some (VideoService.fileSize _ res)).
  { intros plan st r. subst r.
    destruct (merge_and_finish_outcome video_info show path_resolve path_join
                slashes videoOutputDir cfg progressCallback w target plan st)
      as [_ Hout].
    fold merge_and_finish in Hout.
    destruct (merge_and_finish cfg progressCallback w target plan st)
      as [st' out].
    simpl in Hout. destruct out as [res'| |]; simpl; try (by intros [=]).
    intros [= ->].
    destruct (Hout res eq_refl) as (_ & Hdisk & Hpath & _ & _ & Hname & _).
    split_and!; [done|done|].
    unfold VideoService.cleanup. by rewrite !unlink_other. }
  unfold VideoService.try_block.
  destruct (probed w) as [e|d]; simpl; [by intros [=]|].
  destruct (String.eqb (loopType cfg) "ping-pong").
  - destruct (createReversedVideo _ _ _ _ _) as [st1 err].
    destruct err as [e|]; simpl; [by intros [=]|].
    destruct (loops_needed _ _) as [n|]; simpl; [|by intros [=]].
    apply Hfinish.
  - destruct (String.eqb (loopType cfg) "standard"); simpl; [|by intros [=]].
    destruct (loops_needed _ _) as [n|]; simpl; [|by intros [=]].
    apply Hfinish.
Qed.

(** An assembled video can be deleted, once.  After [assembleVideo] has
    returned a result (with an output path that is neither temp path),
    [deleteVideo] of the result's [fileName] succeeds and removes the file
    at the result's [outputPath] and no other; a second [deleteVideo] of the
    same name throws 'Video file not found' and changes nothing. *)
Theorem assembled_video_is_deleted_once (cfg : VideoService.config)
    (progressCallback : bool) (w : VideoService.world video_info)
    (res : result video_info) :
  snd (assembleVideo cfg progressCallback w) = Returned res ->
  output_path cfg w <> reversedVideoPath w ->
  output_path cfg w <> concatListPath w ->
  let st := fst (assembleVideo cfg progressCallback w) in
  exists st1,
    deleteVideo (VideoService.fileName _ res) st
    = (st1, Deleted "Video deleted")
    /\ VideoService.disk st1 !! VideoService.outputPath _ res = None
    /\ (forall q, q <> VideoService.outputPath _ res ->
          VideoService.disk st1 !! q = VideoService.disk st !! q)
    /\ deleteVideo (VideoService.fileName _ res) st1
       = (st1, NotFound "Video file not found").
Proof.
  intros Hret Hr Hc st.
  destruct (returned_output cfg progressCallback w res Hret Hr Hc)
    as (Hname & Hpath & Hdisk).
  fold st in Hdisk. rewrite Hname, Hpath.
  unfold deleteVideo, Deletion.deleteVideo, exists_on_disk.
  fold (output_name cfg w). fold (output_path cfg w).
  change (path_join videoOutputDir (output_name cfg w))
    with (output_path cfg w).
  rewrite Hdisk. eexists. split; [reflexivity|]. simpl.
  rewrite lookup_delete_eq. split_and!; [done| |done].
  intros q Hq. by rewrite lookup_delete_ne.
Qed.

End AssembleThenDelete.

Lemma assembled_video_is_deleted_once_witness :
  exists res st1,
    snd (VideoExample.assembleVideo "ping-pong") = Returned res
    /\ Deletion.deleteVideo VideoExample.path_join "out"
         (VideoService.fileName _ res)
         (fst (VideoExample.assembleVideo "ping-pong"))
       = (st1, Deletion.Deleted "Video deleted")
    /\ VideoService.disk st1 !! VideoService.outputPath _ res = None.
Proof.
  destruct (snd (VideoExample.assembleVideo "ping-pong")) as [res| |] eqn:E;
    [|vm_compute in E; discriminate..].
  destruct (assembled_video_is_deleted_once unit VideoExample.show
              VideoExample.path_resolve VideoExample.path_join
              VideoExample.slashes "out" (VideoExample.request "ping-pong")
              true VideoExample.world res E)
    as (st1 & Hdel & Hgone & _).
  - vm_compute. discriminate.
  - vm_compute. discriminate.
  - exists res, st1. split; [reflexivity|]. split; [exact Hdel|exact Hgone].
Defined.

(** ** [deleteAudio] *)

Section GenerateThenDelete.
Import Deletion.
Variable random : nat -> Q.
Variable show : Q -> string.
Variable path_resolve : string -> string.
Variable path_join : string -> string -> string.
Variable audioOutputDir : string.

Let prepare :=
  AudioService.prepare random show path_resolve path_join audioOutputDir.
Let generateAudio :=
  AudioService.generateAudio random show path_resolve path_join audioOutputDir.

(** [deleteAudio(fileName)] (aiService.js, lines 592-603). *)
Definition deleteAudio (fileName : string) (st : AudioService.state)
  : AudioService.state * deletion :=
  let filePath := path_join audioOutputDir fileName in
  match AudioService.files st !! filePath with
  | Some _ =>
      (AudioService.State (lastProgress st)
         (delete filePath (AudioService.files st)) (settled st)
         (AudioService.Unlink filePath :: effects st),
       Deleted "Audio file deleted")
  | None => (st, NotFound "Audio file not found")
  end.

(** What ffmpeg's 'end' event settles.  Take a call that reaches ffmpeg and
    a run whose last event is 'end', arriving while the promise is pending.
    If ffmpeg has left an output file, the promise resolves with that
    file's size and name; [deleteAudio] of the resolved [fileName] then
    succeeds and removes the file at the resolved [outputPath], and a
    second [deleteAudio] of it throws 'Audio file not found' and changes
    nothing.  If there is no output file, [fs.statSync] throws inside the
    handler and the promise is left pending. *)
Theorem end_event_settles (cfg : AudioService.config)
    (progressCallback : bool) (w : AudioService.world) (p : prepared)
    (before : list encoder_step) (now : Q) :
  prepare cfg w = inr p ->
  steps w = before ++ [OnEnd now] ->
  let st0 := state_after cfg progressCallback w p before in
  settled st0 = Pending ->
  let st := generateAudio cfg progressCallback w in
  match AudioService.files st0 !! prep_outputPath p with
  | Some size =>
      exists r st1,
        settled st = Resolved r
        /\ AudioService.fileSize r = size
        /\ AudioService.fileName r = prep_fileName p
        /\ AudioService.outputPath r
           = path_join audioOutputDir (AudioService.fileName r)
        /\ deleteAudio (AudioService.fileName r) st
           = (st1, Deleted "Audio file deleted")
        /\ AudioService.files st1 !! AudioService.outputPath r = None
        /\ deleteAudio (AudioService.fileName r) st1
           = (st1, NotFound "Audio file not found")
  | None => settled st = Pending
  end.
Proof.
  intros Hp Hsteps st0 Hpending st. subst st.
  destruct (prepare_checks random show path_resolve path_join audioOutputDir
              cfg w p Hp) as (_ & _ & _ & Hpath & _).
  unfold generateAudio.
  rewrite (generateAudio_run random show path_resolve path_join audioOutputDir
             cfg progressCallback w p Hp), Hsteps.
  unfold state_after. rewrite run_app.
  fold (state_after cfg progressCallback w p before). fold st0.
  destruct (AudioService.files st0 !! prep_outputPath p) as [size|] eqn:Hfile.
  - eexists _, _. cbn [AudioService.run fold_left AudioService.handle].
    assert (Hcb : forall pct msg,
              AudioService.files (AudioService.callback progressCallback pct msg st0)
              = AudioService.files st0
              /\ settled (AudioService.callback progressCallback pct msg st0)
                 = settled st0).
    { intros. by destruct progressCallback. }
    destruct (Hcb 100%Z Completed) as [Hf Hs].
    rewrite Hf, Hfile. unfold AudioService.resolve. rewrite Hs, Hpending.
    cbn [settled AudioService.fileSize AudioService.fileName
         AudioService.outputPath].
    split_and!; [reflexivity|reflexivity|reflexivity|exact Hpath| | |].
    + unfold deleteAudio.
      cbn [AudioService.files AudioService.fileName]. rewrite Hf.
      rewrite <- Hpath, Hfile. reflexivity.
    + cbn [AudioService.files AudioService.outputPath].
      apply lookup_delete_eq.
    + unfold deleteAudio. cbn [AudioService.files AudioService.fileName].
      rewrite <- Hpath, lookup_delete_eq. reflexivity.
  - cbn [AudioService.run fold_left AudioService.handle].
    destruct progressCallback; simpl; by rewrite Hfile.
Qed.

End GenerateThenDelete.

Lemma end_event_settles_witness :
  exists r,
    settled (Example.generateAudio true
               (Example.world_with [AudioService.OnStart; AudioService.OutputWritten 7; OnEnd 5]))
    = Resolved r
    /\ AudioService.fileSize r = 7%Z.
Proof.
  destruct (Example.prepare
              (Example.world_with [AudioService.OnStart; AudioService.OutputWritten 7; OnEnd 5]))
    as [msg|p] eqn:Hp; [vm_compute in Hp; discriminate|].
  pose proof (end_event_settles steady Example.show Example.path_resolve
                Example.path_join "out" Example.request true
                (Example.world_with [AudioService.OnStart; AudioService.OutputWritten 7; OnEnd 5]) p
                [AudioService.OnStart; AudioService.OutputWritten 7] 5 Hp eq_refl eq_refl) as H.
  cbv zeta in H.
  assert (Hfile : AudioService.files
            (state_after Example.request true
               (Example.world_with [AudioService.OnStart; AudioService.OutputWritten 7; OnEnd 5]) p
               [AudioService.OnStart; AudioService.OutputWritten 7]) !! prep_outputPath p = Some 7%Z).
  { unfold state_after. simpl. apply lookup_insert_eq. }
  rewrite Hfile in H.
  destruct H as (r & st1 & Hres & Hsize & _).
  exists r. split; [exact Hres|exact Hsize].
Defined.

(** * AIService *)

Module AIService.

(** [Math.trunc], and the remainder [a % b] of two numbers, which takes the
    sign of [a]. *)
Definition trunc (x : Q) : Z :=
  if Qle_bool 0 x then Qfloor x else Qceiling x.

Definition rem (a b : Q) : Q := a - b * inject_Z (trunc (a / b)).

(** Lines 41-45 of [generateMetadata]. *)
Definition durationHours (duration : Q) : Z := Qfloor (duration / 3600).

Definition durationMinutes (duration : Q) : Z :=
  Qfloor (rem duration 3600 / 60).

Section DurationText.
Variable show : Z -> string.

Definition durationText (duration : Q) : string :=
  let durationHours := durationHours duration in
  let durationMinutes := durationMinutes duration in
  if (0 <? durationHours)%Z then
    show durationHours +:+ " hour"
    +:+ (if (1 <? durationHours)%Z then "s" else "")
    +:+ (if (0 <? durationMinutes)%Z
         then " " +:+ show durationMinutes +:+ " minutes" else "")
  else
    show durationMinutes +:+ " minute"
    +:+ (if (1 <? durationMinutes)%Z then "s" else "").

End DurationText.

(** The service after [initialize(apiKey)] (lines 13-29): [constructed]
    tells whether the Gemini client could be built. *)
Definition initialize (apiKey : option string) (constructed : bool) : bool :=
  match apiKey with
  | None => false
  | Some key =>
      if String.eqb key "" || String.eqb key "your_gemini_api_key_here"
      then false
      else constructed
  end.

(** What [JSON.parse] makes of the model's answer, taken to be an object
    whose title and description are strings where they are there; a field
    may be missing.  A string is the sequence of its code units. *)
Record metadata := Metadata {
  title : option string;
  description : option string;
  tags : option (list string)
}.

Definition present (field : option string) : bool :=
  match field with
  | Some s => negb (String.eqb s "")
  | None => false
  end.

(** [metadata.title.substring(0, 97) + '...'] when the title has more than
    100 code units. *)
Definition trim_title (t : string) : string :=
  if (100 <? String.length t)%nat
  then String.substring 0 97 t +:+ "..."
  else t.

(** [generateMetadata] (lines 34-121) once the prompt is built: [answer] is
    how lines 91-102 end, with the message of an error of the request or
    of [JSON.parse], or with the parsed object.  The result is the
    metadata returned or the message of the error thrown. *)
Definition generateMetadata (isAvailable : bool) (answer : string + metadata)
  : string + metadata :=
  if negb isAvailable then
    inl "AI service not available - please configure GEMINI_API_KEY"
  else
    let attempt :=
      match answer with
      | inl e => inl e
      | inr m =>
          if negb (present (title m)) || negb (present (description m))
             || negb (bool_decide (is_Some (tags m)))
          then inl "Invalid AI response format"
          else inr (Metadata (option_map trim_title (title m))
                      (description m) (tags m))
      end in
    match attempt with
    | inl e => inl ("Failed to generate metadata: " +:+ e)
    | inr m => inr m
    end.

End AIService.

Section FloorFacts.

Lemma floor_between (x : Q) (n : Z) :
  inject_Z n <= x -> x < inject_Z (n + 1) -> Qfloor x = n.
Proof.
  intros Hlo Hhi.
  pose proof (Qfloor_le x) as Hle. pose proof (Qlt_floor x) as Hlt.
  assert (inject_Z n < inject_Z (Qfloor x + 1)) as H1 by lra.
  assert (inject_Z (Qfloor x) < inject_Z (n + 1)) as H2 by lra.
  rewrite <- Zlt_Qlt in H1, H2. lia.
Qed.

Lemma floor_shift (x : Q) (n : Z) :
  Qfloor (x - inject_Z n) = (Qfloor x - n)%Z.
Proof.
  pose proof (Qfloor_le x) as Hle. pose proof (Qlt_floor x) as Hlt.
  apply floor_between.
  - unfold Z.sub. rewrite inject_Z_plus, inject_Z_opp. lra.
  - replace (Qfloor x - n + 1)%Z with ((Qfloor x + 1) + - n)%Z by lia.
    rewrite inject_Z_plus, inject_Z_opp. lra.
Qed.

End FloorFacts.

Section StringFacts.

Lemma length_append (s t : string) :
  String.length (s +:+ t) = (String.length s + String.length t)%nat.
Proof. induction s as [|c s IH]; simpl; [done|]. by rewrite IH. Qed.

Lemma length_substring (n : nat) (s : string) :
  String.length (String.substring 0 n s) = Nat.min n (String.length s).
Proof.
  revert n. induction s as [|c s IH]; intros [|n]; simpl; try done.
  by rewrite IH.
Qed.

Lemma substring_append (n : nat) (s t : string) :
  (n <= String.length s)%nat ->
  String.substring 0 n (s +:+ t) = String.substring 0 n s.
Proof.
  revert n. induction s as [|c s IH]; intros [|n] Hn; simpl in *; try done.
  - by destruct t.
  - lia.
  - rewrite IH; [done|lia].
Qed.

Lemma substring_twice (n : nat) (s : string) :
  String.substring 0 n (String.substring 0 n s) = String.substring 0 n s.
Proof.
  revert n. induction s as [|c s IH]; intros [|n]; simpl; try done.
  by rewrite IH.
Qed.

Lemma substring_all (s : string) :
  String.substring 0 (String.length s) s = s.
Proof. induction s as [|c s IH]; simpl; [done|]. by rewrite IH. Qed.

Lemma substring_after (s t : string) :
  String.substring (String.length s) (String.length t) (s +:+ t) = t.
Proof.
  induction s as [|c s IH]; simpl; [apply substring_all|exact IH].
Qed.

End StringFacts.

(** The duration in the prompt drops the seconds and nothing else.  For a
    duration that is not negative, the hours are not negative, the minutes
    lie between 0 and 59, and sixty times the hours plus the minutes is the
    number of whole minutes of the duration; below an hour the text names
    minutes only, and below a minute it reads '0 minute'. *)
Theorem duration_text_parts (show : Z -> string) (duration : Q) :
  0 <= duration ->
  let h := AIService.durationHours duration in
  let m := AIService.durationMinutes duration in
  (0 <= h)%Z /\ (0 <= m < 60)%Z
  /\ (60 * h + m)%Z = Qfloor (duration / 60)
  /\ (duration < 3600 ->
      AIService.durationText show duration
      = show m +:+ " minute" +:+ (if (1 <? m)%Z then "s" else ""))
  /\ (duration < 60 ->
      AIService.durationText show duration = show 0%Z +:+ " minute").
Proof.
  intros Hd h m.
  assert (Hh0 : (0 <= h)%Z).
  { unfold h, AIService.durationHours. change 0%Z with (Qfloor 0).
    apply Qfloor_resp_le. apply Qle_shift_div_l; lra. }
  assert (Hrem : AIService.rem duration 3600 == duration - 3600 * inject_Z h).
  { unfold AIService.rem, AIService.trunc.
    destruct (Qle_bool 0 (duration / 3600)) eqn:E; [reflexivity|].
    exfalso. apply not_true_iff_false in E. apply E, Qle_bool_iff.
    apply Qle_shift_div_l; lra. }
  assert (Hm : m = (Qfloor (duration / 60) - 60 * h)%Z).
  { unfold m, AIService.durationMinutes.
    rewrite <- floor_shift. apply Qfloor_comp. rewrite Hrem.
    rewrite inject_Z_mult. change (inject_Z 60) with 60. field. }
  pose proof (Qfloor_le (duration / 3600)) as Hle.
  pose proof (Qlt_floor (duration / 3600)) as Hlt.
  fold (AIService.durationHours duration) in Hle, Hlt. fold h in Hle, Hlt.
  assert (H1 : 3600 * inject_Z h <= duration).
  { apply (Qmult_le_l _ _ 3600) in Hle; [|lra].
    assert (3600 * (duration / 3600) == duration) as E by field.
    rewrite E in Hle.
    exact Hle. }
  assert (H2 : duration < 3600 * inject_Z (h + 1)).
  { apply (Qmult_lt_l _ _ 3600) in Hlt; [|lra].
    assert (3600 * (duration / 3600) == duration) as E by field.
    rewrite E in Hlt.
    exact Hlt. }
  rewrite inject_Z_plus in H2. change (inject_Z 1) with 1 in H2.
  assert (Hlo : (60 * h <= Qfloor (duration / 60))%Z).
  { rewrite <- (Qfloor_Z (60 * h)). apply Qfloor_resp_le.
    rewrite inject_Z_mult. change (inject_Z 60) with 60.
    apply Qle_shift_div_l; lra. }
  assert (Hhi : (Qfloor (duration / 60) < 60 * h + 60)%Z).
  { rewrite Zlt_Qlt. eapply Qle_lt_trans; [apply Qfloor_le|].
    rewrite inject_Z_plus, inject_Z_mult. change (inject_Z 60) with 60.
    apply Qlt_shift_div_r; lra. }
  split; [exact Hh0|]. split; [lia|]. split; [lia|].
  assert (Hsmall : duration < 3600 -> h = 0%Z).
  { intros H. apply floor_between.
    - change (inject_Z 0) with 0. apply Qle_shift_div_l; lra.
    - change (inject_Z (0 + 1)) with 1. apply Qlt_shift_div_r; lra. }
  split.
  - intros H. unfold AIService.durationText.
    fold h. fold m. by rewrite (Hsmall H).
  - intros H. unfold AIService.durationText. fold h. fold m.
    assert (h = 0%Z) as Hz by (apply Hsmall; lra).
    assert (m = 0%Z) as ->; [|by rewrite Hz].
    rewrite Hm, Hz.
    replace (Qfloor (duration / 60) - 60 * 0)%Z
      with (Qfloor (duration / 60)) by lia.
    apply floor_between.
    + change (inject_Z 0) with 0. apply Qle_shift_div_l; lra.
    + change (inject_Z (0 + 1)) with 1. apply Qlt_shift_div_r; lra.
Qed.

Lemma duration_text_parts_witness :
  AIService.durationHours 3725 = 1%Z /\ AIService.durationMinutes 3725 = 2%Z
  /\ (60 * AIService.durationHours 3725 + AIService.durationMinutes 3725)%Z
     = Qfloor (3725 / 60).
Proof.
  pose proof (duration_text_parts (fun _ => "n") 3725 ltac:(lra))
    as (_ & _ & Hsum & _).
  split; [reflexivity|]. split; [reflexivity|exact Hsum].
Defined.

(** What [generateMetadata] lets through.  Metadata is returned only by a
    service that was initialized with a key other than the empty one and
    the placeholder and could build its client, from a parsed answer whose
    title and description are not empty and whose tags are there; the
    description and the tags are returned as they came; the title returned
    is not empty and has at most 100 code units, it is the parsed title
    when that has at most 100, and else its first 97 code units followed by
    three dots.  Every error but the one of a service that is not available
    carries the prefix 'Failed to generate metadata: '. *)
Theorem metadata_is_checked (apiKey : option string) (constructed : bool)
    (answer : string + AIService.metadata) :
  let isAvailable := AIService.initialize apiKey constructed in
  match AIService.generateMetadata isAvailable answer with
  | inr m =>
      (exists key,
         apiKey = Some key /\ key <> "" /\ key <> "your_gemini_api_key_here"
         /\ constructed = true)
      /\ exists raw t t',
           answer = inr raw
           /\ AIService.title raw = Some t /\ AIService.title m = Some t'
           /\ AIService.description m = AIService.description raw
           /\ AIService.present (AIService.description m) = true
           /\ AIService.tags m = AIService.tags raw
           /\ is_Some (AIService.tags m)
           /\ (1 <= String.length t' <= 100)%nat
           /\ ((String.length t <= 100)%nat -> t' = t)
           /\ ((100 < String.length t)%nat ->
               String.length t' = 100%nat
               /\ String.substring 0 97 t' = String.substring 0 97 t
               /\ String.substring 97 3 t' = "...")
  | inl e =>
      if isAvailable
      then exists cause, e = "Failed to generate metadata: " +:+ cause
      else e = "AI service not available - please configure GEMINI_API_KEY"
  end.
Proof.
  intros isAvailable. unfold AIService.generateMetadata.
  destruct isAvailable eqn:Havailable; simpl; [|done].
  assert (Hkey : exists key,
            apiKey = Some key /\ key <> "" /\ key <> "your_gemini_api_key_here"
            /\ constructed = true).
  { unfold isAvailable, AIService.initialize in Havailable.
    destruct apiKey as [key|]; [|done]. exists key.
    destruct (String.eqb key "") eqn:E1; [done|].
    destruct (String.eqb key "your_gemini_api_key_here") eqn:E2; [done|].
    apply String.eqb_neq in E1, E2. simpl in Havailable. done. }
  destruct answer as [e|raw]; [by eexists|].
  destruct (AIService.title raw) as [t|] eqn:Ht; simpl; [|by eexists].
  destruct (String.eqb t "") eqn:Hempty; simpl; [by eexists|].
  destruct (AIService.present (AIService.description raw)) eqn:Hdesc; simpl;
    [|by eexists].
  destruct (AIService.tags raw) as [tags|] eqn:Htags; simpl; [|by eexists].
  split; [done|]. exists raw, t, (AIService.trim_title t).
  rewrite Ht, Htags. split_and!; try done.
  - unfold AIService.trim_title.
    destruct (100 <? String.length t)%nat eqn:Hlong.
    + apply Nat.ltb_lt in Hlong.
      rewrite length_append, length_substring.
      change (String.length "...") with 3%nat. lia.
    + destruct t; [done|simpl; lia].
  - unfold AIService.trim_title.
    destruct (100 <? String.length t)%nat eqn:Hlong.
    + apply Nat.ltb_lt in Hlong.
      rewrite length_append, length_substring.
      change (String.length "...") with 3%nat. lia.
    + by apply Nat.ltb_ge in Hlong.
  - intros Hshort. unfold AIService.trim_title.
    destruct (100 <? String.length t)%nat eqn:Hlong; [|done].
    apply Nat.ltb_lt in Hlong. lia.
  - intros Hlong. unfold AIService.trim_title.
    apply Nat.ltb_lt in Hlong as Hlong'. rewrite Hlong'.
    split_and!.
    + rewrite length_append, length_substring.
      change (String.length "...") with 3%nat. lia.
    + rewrite substring_append.
      * apply substring_twice.
      * rewrite length_substring. lia.
    + assert (String.length (String.substring 0 97 t) = 97%nat) as Hlen
        by (rewrite length_substring; lia).
      rewrite <- Hlen at 1.
      exact (substring_after (String.substring 0 97 t) "...").
Qed.

(** * Upload progress *)

Module SocketService.

(** [Math.round]: the nearest integer, a half going up. *)
Definition Math_round (x : Q) : Z := Qfloor (x + 0.5).

(** [Math.round((data.bytesUploaded / data.totalBytes) * 100)], the
    quotient and the product each rounded to a double; [None] when the
    value is [NaN] or infinite. *)
Definition upload_percent (bytesUploaded totalBytes : Q) : option Z :=
  if Qeq_bool totalBytes 0 then None
  else
    match Double.round (bytesUploaded / totalBytes) with
    | None => None
    | Some ratio =>
        match Double.round (ratio * 100) with
        | None => None
        | Some percent => Some (Math_round percent)
        end
    end.

(** The payload of 'upload:progress'. *)
Record upload_progress := UploadProgress {
  up_room : string;
  uploadId : string;
  bytesUploaded : Q;
  totalBytes : Q;
  progress : option Z;
  timestamp : string
}.

(** [emitUploadProgress(uploadId, data)] (socketService.js, lines 105-114):
    the emissions after it. *)
Definition emitUploadProgress (io : bool) (now : string) (uploadId : string)
    (bytesUploaded totalBytes : Q) (sent : list upload_progress)
  : list upload_progress :=
  if io
  then sent ++ [UploadProgress ("upload:" +:+ uploadId) uploadId bytesUploaded
                  totalBytes (upload_percent bytesUploaded totalBytes) now]
  else sent.

End SocketService.

Section UploadFacts.
Import Double DoubleFacts.

(** A result between 0 and a double below [2^1024] is rounded to a double
    in the same range. *)
Lemma round_within (x hi : Q) :
  0 <= x <= hi -> nearest hi == hi -> hi < pow2 1024 ->
  round x = Some (nearest x) /\ 0 <= nearest x <= hi.
Proof.
  intros [Hlo Hhi] Hexact Hfin.
  pose proof (nearest_nonneg x Hlo) as H0.
  pose proof (nearest_mono x hi Hlo Hhi) as H1. rewrite Hexact in H1.
  split; [|split; assumption].
  unfold round. destruct (Qle_bool _ _) eqn:E; [|done].
  apply Qle_bool_iff in E. rewrite Qabs_pos in E by exact H0. lra.
Qed.

Lemma nearest_1 : nearest 1 == 1.
Proof. vm_compute. reflexivity. Qed.

Lemma nearest_100 : nearest 100 == 100.
Proof. vm_compute. reflexivity. Qed.

Lemma below_overflow (x : Q) : x <= 100 -> x < pow2 1024.
Proof.
  intros H. eapply Qle_lt_trans; [exact H|]. by vm_compute.
Qed.

Lemma upload_percent_spec (bytesUploaded totalBytes : Q) :
  0 < totalBytes -> 0 <= bytesUploaded <= totalBytes ->
  let ratio := nearest (bytesUploaded / totalBytes) in
  let percent := nearest (ratio * 100) in
  SocketService.upload_percent bytesUploaded totalBytes
  = Some (SocketService.Math_round percent)
  /\ 0 <= ratio <= 1 /\ 0 <= percent <= 100.
Proof.
  intros Htotal [Hlo Hhi] ratio percent.
  assert (0 <= bytesUploaded / totalBytes <= 1) as Hq.
  { split; [apply Qle_shift_div_l; lra|apply Qle_shift_div_r; lra]. }
  destruct (round_within _ 1 Hq nearest_1 (below_overflow 1 ltac:(lra)))
    as [Hr1 Hr2].
  fold ratio in Hr1, Hr2.
  assert (0 <= ratio * 100 <= 100) as Hp by (split; lra).
  destruct (round_within _ 100 Hp nearest_100
              (below_overflow 100 ltac:(lra))) as [Hp1 Hp2].
  fold percent in Hp1, Hp2.
  unfold SocketService.upload_percent.
  destruct (Qeq_bool totalBytes 0) eqn:Hzero.
  { apply Qeq_bool_iff in Hzero. lra. }
  rewrite Hr1. fold ratio. rewrite Hp1. destruct Hr2, Hp2. by split_and!.
Qed.

(** The percentage of an upload.  With an initialized socket server, a
    positive total and an uploaded count between 0 and the total, exactly
    one event is emitted, to the room of the upload; its progress is a
    whole number between 0 and 100, it is 0 when nothing is uploaded and
    100 when all is, and it is never less than the progress of a smaller
    count. *)
Theorem upload_progress_in_range (now uploadId : string)
    (bytesUploaded totalBytes : Q) (sent : list SocketService.upload_progress) :
  0 < totalBytes -> 0 <= bytesUploaded <= totalBytes ->
  exists p,
    SocketService.emitUploadProgress true now uploadId bytesUploaded
      totalBytes sent
    = sent ++ [SocketService.UploadProgress ("upload:" +:+ uploadId) uploadId
                 bytesUploaded totalBytes (Some p) now]
    /\ (0 <= p <= 100)%Z
    /\ (bytesUploaded == 0 -> p = 0%Z)
    /\ (bytesUploaded == totalBytes -> p = 100%Z)
    /\ forall earlier,
         0 <= earlier <= bytesUploaded ->
         exists q,
           SocketService.upload_percent earlier totalBytes = Some q
           /\ (q <= p)%Z.
Proof.
  intros Htotal [Hlo Hhi].
  destruct (upload_percent_spec bytesUploaded totalBytes Htotal
              (conj Hlo Hhi)) as (Hp & [Hr0 Hr1] & [Hx0 Hx1]).
  cbv zeta in Hp.
  set (ratio := nearest (bytesUploaded / totalBytes)) in *.
  set (percent := nearest (ratio * 100)) in *.
  assert (0 <= ratio * 100) as Hprod by lra.
  unfold SocketService.emitUploadProgress. rewrite Hp.
  eexists. split; [reflexivity|]. unfold SocketService.Math_round.
  split_and!.
  - change 0%Z with (Qfloor 0). apply Qfloor_resp_le. lra.
  - change 100%Z with (Qfloor (100 + 0.5)). apply Qfloor_resp_le. lra.
  - intros Hnone.
    assert (bytesUploaded / totalBytes == 0) as Hq
      by (rewrite Hnone; field; lra).
    assert (ratio == 0) as Hratio.
    { unfold ratio.
      apply (Qeq_trans _ (nearest 0)); [|reflexivity].
      apply nearest_comp; [rewrite Hq; discriminate|exact Hq]. }
    assert (percent == 0) as Hpercent.
    { unfold percent.
      apply (Qeq_trans _ (nearest 0)); [|reflexivity].
      apply nearest_comp; [exact Hprod|]. rewrite Hratio. reflexivity. }
    rewrite (Qfloor_comp (percent + 0.5) 0.5); [reflexivity|].
    rewrite Hpercent. reflexivity.
  - intros Hall.
    assert (bytesUploaded / totalBytes == 1) as Hq
      by (rewrite Hall; field; lra).
    assert (ratio == 1) as Hratio.
    { unfold ratio.
      apply (Qeq_trans _ (nearest 1)); [|exact nearest_1].
      apply nearest_comp; [rewrite Hq; discriminate|exact Hq]. }
    assert (percent == 100) as Hpercent.
    { unfold percent.
      apply (Qeq_trans _ (nearest 100)); [|exact nearest_100].
      apply nearest_comp; [exact Hprod|]. rewrite Hratio. reflexivity. }
    rewrite (Qfloor_comp (percent + 0.5) 100.5); [reflexivity|].
    rewrite Hpercent. reflexivity.
  - intros earlier [He0 He1].
    destruct (upload_percent_spec earlier totalBytes Htotal)
      as (Hq & [Hs0 Hs1] & _); [split; lra|].
    cbv zeta in Hq. rewrite Hq. eexists. split; [reflexivity|].
    unfold SocketService.Math_round. apply Qfloor_resp_le.
    assert (earlier / totalBytes <= bytesUploaded / totalBytes) as Hle.
    { apply Qmult_le_compat_r; [exact He1|].
      apply Qlt_le_weak, Qinv_lt_0_compat, Htotal. }
    assert (0 <= earlier / totalBytes) as Hnn
      by (apply Qle_shift_div_l; lra).
    pose proof (nearest_mono _ _ Hnn Hle) as Hmono. fold ratio in Hmono.
    assert (nearest (nearest (earlier / totalBytes) * 100) <= percent).
    { apply nearest_mono; lra. }
    lra.
Qed.

End UploadFacts.

(** 29 of 200 bytes: the quotient in doubles is just under 0.145, a hundred
    times that just under 14.5, and the percentage sent is 14. *)
Lemma upload_progress_in_range_witness :
  exists p,
    SocketService.emitUploadProgress true "t" "u" 29 200 []
    = [SocketService.UploadProgress "upload:u" "u" 29 200 (Some p) "t"]
    /\ p = 14%Z.
Proof.
  destruct (upload_progress_in_range "t" "u" 29 200 [])
    as (p & Hemit & _); [lra|split; lra|].
  exists p. split; [exact Hemit|].
  assert (SocketService.upload_percent 29 200 = Some 14%Z) as Hp
    by (vm_compute; reflexivity).
  unfold SocketService.emitUploadProgress in Hemit. rewrite Hp in Hemit.
  simpl in Hemit. by injection Hemit as <-.
Defined.

(** * Presets *)

Module Presets.

(** A row of [audio_presets], with [stem_configs] parsed. *)
Record preset := Preset {
  preset_id : Z;
  preset_name : string;
  stem_configs : list stem_config
}.

(** [customConfig]; every field may be missing. *)
Record custom_config := CustomConfig {
  c_volatility : option Q;
  c_density : option Q;
  c_spatialDrift : option Q;
  c_outputName : option string
}.

Section GenerateFromPreset.
Variable random : nat -> Q.
Variable show : Q -> string.
Variable show_id : Z -> string.
Variable path_resolve : string -> string.
Variable path_join : string -> string -> string.
Variable underscores : string -> string.   (* [.replace(/\s+/g, '_')] *)
Variable audioOutputDir : string.

(** [getAudioPreset(presetId)] (aiService.js, lines 256-273). *)
Definition getAudioPreset (presets : list preset) (presetId : Z)
  : string + preset :=
  match List.find (fun row => Z.eqb (preset_id row) presetId) presets with
  | Some row => inr row
  | None => inl ("Preset " +:+ show_id presetId +:+ " not found")
  end.

(** The [config] that lines 530-537 build; [now] is the reading of
    [Date.now()]. *)
Definition preset_config (p : preset) (duration : Q) (customConfig : custom_config)
    (now : Q) : AudioService.config :=
  let generated := underscores (preset_name p) +:+ "_" +:+ show now +:+ ".mp3" in
  AudioService.Config (stem_configs p) duration
    (Js.or_default (c_volatility customConfig) 0.3)
    (Js.or_default (c_density customConfig) 0.7)
    (Js.or_default (c_spatialDrift customConfig) 0.5)
    (Some match c_outputName customConfig with
          | Some n => if String.eqb n "" then generated else n
          | None => generated
          end).

(** [generateFromPreset(presetId, duration, customConfig, progressCallback)]
    (lines 523-540). *)
Definition generateFromPreset (presets : list preset) (presetId : Z)
    (duration : Q) (customConfig : custom_config) (progressCallback : bool)
    (now : Q) (w : AudioService.world) : AudioService.state :=
  match getAudioPreset presets presetId with
  | inl msg =>
      AudioService.reject msg (AudioService.State 0 (AudioService.disk w) Pending [])
  | inr p =>
      AudioService.generateAudio random show path_resolve path_join
        audioOutputDir (preset_config p duration customConfig now)
        progressCallback w
  end.

End GenerateFromPreset.

End Presets.

Section PresetFacts.
Import Presets.
Variable random : nat -> Q.
Variable show : Q -> string.
Variable show_id : Z -> string.
Variable path_resolve : string -> string.
Variable path_join : string -> string -> string.
Variable underscores : string -> string.
Variable audioOutputDir : string.

Let generateFromPreset :=
  generateFromPreset random show show_id path_resolve path_join underscores
    audioOutputDir.
Let generateAudio :=
  AudioService.generateAudio random show path_resolve path_join audioOutputDir.

Lemma or_default_truthy (a : option Q) (d : Q) :
  ~ d == 0 -> ~ Js.or_default a d == 0.
Proof.
  intros Hd. unfold Js.or_default, Js.truthy. destruct a as [q|]; [|done].
  destruct (Qeq_bool q 0) eqn:E; simpl; [done|].
  by apply Qeq_bool_neq in E.
Qed.

Lemma append_not_empty (s t : string) : t <> "" -> s +:+ t <> "".
Proof. intros Ht. destruct s; [done|]. simpl. discriminate. Qed.

(** What a preset hands to [generateAudio].  A preset that is not in the
    table rejects the call with a message naming its id, and nothing is
    run or touched.  For a preset that is, the run is the run of
    [generateAudio] on the preset's stems and the given duration, with a
    volatility, a density and a spatial drift that are never 0 (an override
    of 0 gives the default, as a missing one does) and an output name that
    is never empty, so that the name [generateAudio] would make up is never
    used. *)
Theorem preset_run (presets : list preset) (presetId : Z) (duration : Q)
    (customConfig : custom_config) (progressCallback : bool) (now : Q)
    (w : AudioService.world) :
  match List.find (fun row => Z.eqb (preset_id row) presetId) presets with
  | None =>
      let st := generateFromPreset presets presetId duration customConfig
                  progressCallback now w in
      settled st = Rejected ("Preset " +:+ show_id presetId +:+ " not found")
      /\ effects st = [Reject ("Preset " +:+ show_id presetId +:+ " not found")]
      /\ AudioService.files st = AudioService.disk w
  | Some p =>
      exists cfg name,
        generateFromPreset presets presetId duration customConfig
          progressCallback now w
        = generateAudio cfg progressCallback w
        /\ preset_id p = presetId
        /\ stems cfg = stem_configs p
        /\ AudioService.duration cfg = duration
        /\ ~ volatility cfg == 0 /\ ~ density cfg == 0
        /\ ~ spatialDrift cfg == 0
        /\ (Js.truthy (c_volatility customConfig) = false ->
            volatility cfg = 0.3)
        /\ (Js.truthy (c_density customConfig) = false -> density cfg = 0.7)
        /\ (Js.truthy (c_spatialDrift customConfig) = false ->
            spatialDrift cfg = 0.5)
        /\ AudioService.outputName cfg = Some name /\ name <> ""
        /\ default_name show w (AudioService.outputName cfg) = name
  end.
Proof.
  unfold generateFromPreset, Presets.generateFromPreset, getAudioPreset.
  destruct (List.find _ presets) as [p|] eqn:Hfind; [|done].
  apply find_some in Hfind as [_ Hid]. apply Z.eqb_eq in Hid.
  eexists _, _. split; [reflexivity|].
  cbn [preset_config stems AudioService.duration volatility density
       spatialDrift AudioService.outputName].
  assert (Hname :
            match c_outputName customConfig with
            | Some n =>
                if String.eqb n ""
                then underscores (preset_name p) +:+ "_" +:+ show now +:+ ".mp3"
                else n
            | None => underscores (preset_name p) +:+ "_" +:+ show now +:+ ".mp3"
            end <> "").
  { assert (underscores (preset_name p) +:+ "_" +:+ show now +:+ ".mp3" <> "")
      by (apply append_not_empty; discriminate).
    destruct (c_outputName customConfig) as [n|]; [|done].
    destruct (String.eqb n "") eqn:E; [done|]. by apply String.eqb_neq. }
  split_and!; try done; try (apply or_default_truthy; lra).
  - intros Hfalsy. unfold Js.or_default.
    destruct (c_volatility customConfig); [by rewrite Hfalsy|done].
  - intros Hfalsy. unfold Js.or_default.
    destruct (c_density customConfig); [by rewrite Hfalsy|done].
  - intros Hfalsy. unfold Js.or_default.
    destruct (c_spatialDrift customConfig); [by rewrite Hfalsy|done].
  - unfold default_name. apply String.eqb_neq in Hname. by rewrite Hname.
Qed.

End PresetFacts.
